(** * The incremental transcript pipeline of the live-captioning tool

    A shallow embedding of the stateful core of [src/hooks/useSpeechRecognition.ts]
    (stream ingest: segmentation, silence commit, recogniser restarts) and of
    [src/App.tsx] (retry wrapper, refinement splice, incremental and batch
    translation, the two watermarks), followed by the properties of the
    specification stated over that embedding.

    Conventions of the embedding.
    - A JavaScript string is a list of code units.  The recogniser runs with
      [lang = 'en-US'] and every string handled here is modelled over the
      ASCII range: a code unit is an [ascii], [toUpperCase] acts on the
      letters a-z, and the white space of [trim], [trimEnd] and the regular
      expression class \s is the ASCII white space of ECMAScript
      (TAB, LF, VT, FF, CR, SPACE).  A code unit above 127 stands for one
      that is neither white space nor a lower-case letter.
    - A JavaScript number that holds a length, an index or a time stamp is
      a [Z]; [slice] clamps its indices as ECMAScript does.
    - React state ([useState]) and refs ([useRef]) are fields of a record
      that every handler takes and returns.
    - An awaited remote call splits its handler in two: the part that runs up
      to the [await] and the part that runs when the promise settles. *)

From Stdlib Require Import List Ascii String ZArith Lia Bool Arith.
Import ListNotations.
Local Open Scope Z_scope.

(** ** JavaScript strings *)

Module JS.

Definition str := list ascii.

Definition lit (s : string) : str := list_ascii_of_string s.

Definition nl : ascii := "010"%char.
Definition space : ascii := " "%char.

(** [s.length] *)
Definition length (s : str) : Z := Z.of_nat (List.length s).

(** White space and line terminators of ECMAScript, ASCII range. *)
Definition is_space (c : ascii) : bool :=
  let n := nat_of_ascii c in
  ((9 <=? n) && (n <=? 13))%nat || (n =? 32)%nat.

(** [s.trimStart()] *)
Fixpoint trimStart (s : str) : str :=
  match s with
  | [] => []
  | c :: s' => if is_space c then trimStart s' else s
  end.

(** [s.trimEnd()] *)
Fixpoint trimEnd (s : str) : str :=
  match s with
  | [] => []
  | c :: s' =>
      match trimEnd s' with
      | [] => if is_space c then [] else [c]
      | r => c :: r
      end
  end.

(** [s.trim()] *)
Definition trim (s : str) : str := trimEnd (trimStart s).

(** [c.toUpperCase()] on one code unit *)
Definition toUpperCase (c : ascii) : ascii :=
  let n := nat_of_ascii c in
  if ((97 <=? n) && (n <=? 122))%nat then ascii_of_nat (n - 32) else c.

(** [s.slice(start, end)] with the index clamping of ECMAScript: a negative
    index counts from the end, and an empty range gives the empty string. *)
Definition slice (s : str) (start end_ : Z) : str :=
  let len := length s in
  let from := if start <? 0 then Z.max (len + start) 0 else Z.min start len in
  let to := if end_ <? 0 then Z.max (len + end_) 0 else Z.min end_ len in
  firstn (Z.to_nat (to - from)) (skipn (Z.to_nat from) s).

(** [s.slice(start)] *)
Definition slice_from (s : str) (start : Z) : str := slice s start (length s).

(** [s.startsWith(p)] *)
Fixpoint startsWith (s p : str) {struct p} : bool :=
  match p with
  | [] => true
  | a :: p' =>
      match s with
      | [] => false
      | b :: s' => Ascii.eqb a b && startsWith s' p'
      end
  end.

(** [s.endsWith(p)] *)
Definition endsWith (s p : str) : bool := startsWith (rev s) (rev p).

(** [s.includes(p)] *)
Fixpoint includes (s p : str) : bool :=
  startsWith s p ||
  match s with
  | [] => false
  | _ :: s' => includes s' p
  end.

(** [a === b] on strings *)
Fixpoint eqb (a b : str) : bool :=
  match a, b with
  | [], [] => true
  | x :: a', y :: b' => Ascii.eqb x y && eqb a' b'
  | _, _ => false
  end.

(** Truthiness of a string: the empty string is the only falsy one. *)
Definition truthy (s : str) : bool :=
  match s with [] => false | _ :: _ => true end.

(** [s.split('\n')], which always has at least one element. *)
Fixpoint split_lines (s : str) : str * list str :=
  match s with
  | [] => ([], [])
  | c :: s' =>
      let '(l, ls) := split_lines s' in
      if Ascii.eqb c nl then ([], l :: ls) else (c :: l, ls)
  end.

(** The last element of [s.split('\n')]. *)
Definition last_line (s : str) : str :=
  let '(l, ls) := split_lines s in last ls l.

End JS.

(** ** Stream ingest: [src/hooks/useSpeechRecognition.ts] *)

Module Speech.
Import JS.

(** The members of [TranscriptionStatus] (declared in [types.ts]) that the
    hook uses. *)
Inductive TranscriptionStatus := IDLE | RECORDING | PAUSED | STOPPED.

Definition status_eqb (a b : TranscriptionStatus) : bool :=
  match a, b with
  | IDLE, IDLE | RECORDING, RECORDING | PAUSED, PAUSED | STOPPED, STOPPED => true
  | _, _ => false
  end.

(** What a handler asks of the underlying recogniser: [recognition.start()],
    [recognition.stop()], and [setTimeout(() => recognition.start(), ms)]. *)
Inductive command :=
| CmdStart
| CmdStop
| CmdStartAfter (ms : Z).

(** State of the hook.  [statusRef] mirrors [status] (it is copied by an
    effect after every render), so one field stands for both; [commands] is
    the trace of the requests made to the recogniser, oldest first;
    [pendingRestarts] counts the timers set by [onerror] that have not fired
    yet (nothing in the hook ever clears one). *)
Record state := mkState {
  status : TranscriptionStatus;
  text : str;
  interimText : str;
  error : option str;
  restartCount : Z;
  commands : list command;
  pendingRestarts : nat
}.

Definition initial : state :=
  {| status := IDLE; text := []; interimText := []; error := None;
     restartCount := 0; commands := [];
     pendingRestarts := 0 |}.

Definition set_text (t : str) (s : state) : state :=
  {| status := status s; text := t; interimText := interimText s;
     error := error s; restartCount := restartCount s; commands := commands s;
     pendingRestarts := pendingRestarts s |}.

Definition set_interimText (t : str) (s : state) : state :=
  {| status := status s; text := text s; interimText := t;
     error := error s; restartCount := restartCount s; commands := commands s;
     pendingRestarts := pendingRestarts s |}.

Definition set_status (st : TranscriptionStatus) (s : state) : state :=
  {| status := st; text := text s; interimText := interimText s;
     error := error s; restartCount := restartCount s; commands := commands s;
     pendingRestarts := pendingRestarts s |}.

Definition set_error (e : option str) (s : state) : state :=
  {| status := status s; text := text s; interimText := interimText s;
     error := e; restartCount := restartCount s; commands := commands s;
     pendingRestarts := pendingRestarts s |}.

Definition set_restartCount (n : Z) (s : state) : state :=
  {| status := status s; text := text s; interimText := interimText s;
     error := error s; restartCount := n; commands := commands s;
     pendingRestarts := pendingRestarts s |}.

Definition send (c : command) (s : state) : state :=
  {| status := status s; text := text s; interimText := interimText s;
     error := error s; restartCount := restartCount s;
     commands := commands s ++ [c];
     pendingRestarts := pendingRestarts s |}.

Definition set_pendingRestarts (n : nat) (s : state) : state :=
  {| status := status s; text := text s; interimText := interimText s;
     error := error s; restartCount := restartCount s; commands := commands s;
     pendingRestarts := n |}.

(** [setTimeout(() => { try { recognition.start(); } catch(e) {} }, ms)] *)
Definition send_after (ms : Z) (s : state) : state :=
  set_pendingRestarts (S (pendingRestarts s)) (send (CmdStartAfter ms) s).

Definition ERROR_MAP : list (string * (string * string)) :=
  [ ("no-speech", ("Không nghe thấy âm thanh.", "Vui lòng kiểm tra Micro hoặc nói to hơn."));
    ("audio-capture", ("Lỗi thu âm Micro.", "Đảm bảo Micro không bị ứng dụng khác chiếm dụng."));
    ("not-allowed", ("Quyền truy cập Micro bị từ chối.", "Vui lòng cấp quyền Micro trong cài đặt trình duyệt."));
    ("network", ("Lỗi kết nối mạng.", "Kiểm tra internet để Web Speech API hoạt động."));
    ("not-supported", ("Trình duyệt không hỗ trợ.", "Vui lòng sử dụng Chrome hoặc Microsoft Edge."));
    ("aborted", ("Phiên ghi âm bị ngắt.", "Đang tự động khởi động lại...")) ]%string.

Definition UNKNOWN_ERROR : string * string :=
  ("Lỗi ghi âm không xác định.", "Thử tải lại trang.")%string.

Fixpoint lookup (k : string) (m : list (string * (string * string)))
  : option (string * string) :=
  match m with
  | [] => None
  | (k', v) :: m' => if String.eqb k k' then Some v else lookup k m'
  end.

Definition MAX_READABLE_LINE_LENGTH : Z := 160.
Definition SOFT_BREAK_THRESHOLD : Z := 80.

(** [capitalize]: [s.charAt(0).toUpperCase() + s.slice(1)] *)
Definition capitalize (s : str) : str :=
  match s with
  | [] => []
  | c :: s' => toUpperCase c :: s'
  end.

(** The class [[.!?]] *)
Definition is_terminator (c : ascii) : bool :=
  Ascii.eqb c "."%char || Ascii.eqb c "!"%char || Ascii.eqb c "?"%char.

(** [/[.!?]$/.test(s)] *)
Definition ends_in_punctuation (s : str) : bool :=
  match rev s with
  | [] => false
  | c :: _ => is_terminator c
  end.

(** [/[.!?\n]$/.test(s)] *)
Definition ends_in_punctuation_or_newline (s : str) : bool :=
  match rev s with
  | [] => false
  | c :: _ => is_terminator c || Ascii.eqb c nl
  end.

(** [chunk.match(/([^.!?]+[.!?]\s*|[^.!?]+$)/g)]: all matches, left to right.

    At a position the first alternative takes the longest run of
    non-terminators (at least one), which is then followed either by a
    terminator or by the end of the input; giving back part of the run never
    helps, since the code unit after a shorter run is a non-terminator.  With
    a terminator the match goes on through it and the white space after it;
    at the end of the input the second alternative matches the same run.
    Where the code unit at the position is a terminator nothing matches and
    the search moves one code unit on.  The three states of the scan are:
    looking for the start of a match, inside the run, inside the white space
    after the terminator. *)
Inductive scan_state :=
| Seek
| Run (acc : str)
| Trail (acc : str).

Fixpoint sentence_scan (st : scan_state) (s : str) : list str :=
  match s with
  | [] =>
      match st with
      | Seek => []
      | Run acc => [acc]
      | Trail acc => [acc]
      end
  | c :: s' =>
      match st with
      | Seek =>
          if is_terminator c then sentence_scan Seek s'
          else sentence_scan (Run [c]) s'
      | Run acc =>
          if is_terminator c then sentence_scan (Trail (acc ++ [c])) s'
          else sentence_scan (Run (acc ++ [c])) s'
      | Trail acc =>
          if is_space c then sentence_scan (Trail (acc ++ [c])) s'
          else if is_terminator c then acc :: sentence_scan Seek s'
          else acc :: sentence_scan (Run [c]) s'
      end
  end.

(** [chunk.match(sentenceRegex) || [chunk]] *)
Definition sentence_matches (chunk : str) : list str :=
  match sentence_scan Seek chunk with
  | [] => [chunk]
  | ms => ms
  end.

(** The break decision and the separator chosen for the next unit. *)
Definition shouldBreak (newText : str) : bool :=
  let lastLine := last_line newText in
  let endsInPunctuation := ends_in_punctuation lastLine in
  (endsInPunctuation && (length lastLine >? SOFT_BREAK_THRESHOLD))
  || (length lastLine >? MAX_READABLE_LINE_LENGTH).

Definition separator (newText : str) : str :=
  match newText with
  | [] => []
  | _ :: _ =>
      if shouldBreak newText then [nl]
      else if ends_in_punctuation (last_line newText) then [space] else [space]
  end.

(** The body of [matches.forEach]: one unit appended to [newText]. *)
Definition append_sentence (newText s : str) : str :=
  match capitalize (trim s) with
  | [] => newText
  | sentence => newText ++ separator newText ++ sentence
  end.

(** The updater given to [setText] when a final chunk arrives. *)
Definition commit (finalChunk prev : str) : str :=
  match trim finalChunk with
  | [] => prev
  | chunk => fold_left append_sentence (sentence_matches chunk) (trimEnd prev)
  end.

(** The updater given to [setText] when the silence timer fires. *)
Definition silence_commit (prev : str) : str :=
  let trimmed := trimEnd prev in
  if (length trimmed >? 0) && negb (ends_in_punctuation_or_newline trimmed)
  then trimmed ++ ["."%char; nl; nl]
  else if (length trimmed >? 0) && negb (endsWith trimmed [nl; nl])
  then trimmed ++ [nl; nl]
  else prev.

(** The silence effect arms its 1200 ms timer exactly when the hook is
    recording and no interim fragment is pending. *)
Definition SILENCE_MS : Z := 1200.

Definition silence_timer_armed (s : state) : bool :=
  status_eqb (status s) RECORDING && negb (truthy (interimText s)).

Definition on_silence_timeout (s : state) : state :=
  if silence_timer_armed s then set_text (silence_commit (text s)) s else s.

(** One entry of [event.results] from [event.resultIndex] on: [isFinal] and
    the transcript of its first alternative. *)
Definition result := (bool * str)%type.

Definition finalChunk_of (results : list result) : str :=
  List.concat (map snd (filter fst results)).

Definition interimChunk_of (results : list result) : str :=
  List.concat (map snd (filter (fun r => negb (fst r)) results)).

(** [recognition.onresult] *)
Definition onresult (results : list result) (s : state) : state :=
  let s := set_restartCount 0 s in
  let finalChunk := finalChunk_of results in
  if truthy finalChunk
  then set_interimText [] (set_text (commit finalChunk (text s)) s)
  else set_interimText (interimChunk_of results) s.

(** [recognition.onerror] *)
Definition onerror (code : string) (s : state) : state :=
  let errInfo := match lookup code ERROR_MAP with
                 | Some i => i
                 | None => UNKNOWN_ERROR
                 end in
  let s := set_error (Some (lit (String.append (fst errInfo) (String.append " " (snd errInfo))))) s in
  if status_eqb (status s) RECORDING && (restartCount s <? 3)
  then send_after 500 (set_restartCount (restartCount s + 1) s)
  else s.

(** The callback of a timer set by [onerror]: it starts the recogniser
    whatever the status is by then. *)
Definition on_restart_timer (s : state) : state :=
  match pendingRestarts s with
  | O => s
  | S n => send CmdStart (set_pendingRestarts n s)
  end.

(** [recognition.onend] *)
Definition onend (s : state) : state :=
  if status_eqb (status s) RECORDING then send CmdStart s else s.

Definition startRecording (s : state) : state :=
  set_status RECORDING (send CmdStart (set_restartCount 0 (set_error None s))).

Definition pauseRecording (s : state) : state :=
  send CmdStop (set_status PAUSED s).

Definition stopRecording (s : state) : state :=
  set_interimText [] (send CmdStop (set_status STOPPED s)).

Definition clearTranscript (s : state) : state :=
  set_error None (set_interimText [] (set_text [] s)).

End Speech.

(** ** Refinement and translation: [src/App.tsx] *)

Module App.
Import JS.

(** A value thrown by the remote call, as far as [retryWithBackoff] looks at
    it: [error?.status] and [error?.message]. *)
Record js_error := mkError {
  err_status : option Z;
  err_message : option str
}.

(** How [ai.models.generateContent] settles: a response whose [text] getter
    gives a string or [undefined], or a rejection. *)
Inductive api_outcome :=
| Resolved (text : option str)
| Rejected (e : js_error).

Definition isQuota (e : js_error) : bool :=
  (match err_status e with Some n => n =? 429 | None => false end)
  || (match err_message e with Some m => includes m (lit "429") | None => false end).

(** What one run of [retryWithBackoff] did: how the promise it returns
    settles, the delays it slept (in order), and how often it called [fn]. *)
Record retry_run := mkRun {
  outcome : api_outcome;
  delays : list Z;
  calls : nat
}.

(** [retryWithBackoff(fn, retries, delay)].  The remote call is an oracle
    [fn]: its [k]-th invocation (from 0) settles as [fn k]; [k] is the number
    of invocations made before this one. *)
Fixpoint retryWithBackoff (fn : nat -> api_outcome) (k : nat)
    (retries : nat) (delay : Z) : retry_run :=
  match fn k with
  | Resolved r => {| outcome := Resolved r; delays := []; calls := 1 |}
  | Rejected error =>
      if isQuota error then
        match retries with
        | S retries' =>
            let r := retryWithBackoff fn (S k) retries' (delay * 2) in
            {| outcome := outcome r; delays := delay :: delays r;
               calls := S (calls r) |}
        | O => {| outcome := Rejected error; delays := []; calls := 1 |}
        end
      else {| outcome := Rejected error; delays := []; calls := 1 |}
  end.

Definition DEFAULT_RETRIES : nat := 3.
Definition DEFAULT_DELAY : Z := 1000.

(** What [performTranslation] keeps in its closure across the [await]. *)
Record request := mkRequest {
  isBatchRequest : bool;
  chunk : str;
  endIdx : Z
}.

(** State of the component: the hook's state and those of the component's
    own state variables and refs that the refinement and translation stages
    read or write (session storage, audio upload, context and scrolling are
    left out).  [API_KEY] is the truthiness of
    [process.env.API_KEY]; [minIntervalRef] is never assigned and stays 500.
    [outstanding] holds the closures of the calls of [performTranslation]
    whose awaited request has not settled yet, oldest first: a batch call
    passes the single-flight guard, so there can be several. *)
Record state := mkState {
  API_KEY : bool;
  speech : Speech.state;
  translatedText : str;
  aiError : option str;
  isTranslating : bool;
  isRefining : bool;
  refinedRef : Z;
  processedRef : Z;
  refiningInProgressRef : bool;
  translatingRef : bool;
  lastRequestTimeRef : Z;
  lastTextLengthRef : Z;
  velocityRef : Z;
  outstanding : list request
}.

Definition minIntervalRef : Z := 500.

Definition text (s : state) : str := Speech.text (speech s).

Definition initial (key : bool) : state :=
  {| API_KEY := key; speech := Speech.initial; translatedText := [];
     aiError := None; isTranslating := false; isRefining := false;
     refinedRef := 0; processedRef := 0;
     refiningInProgressRef := false; translatingRef := false;
     lastRequestTimeRef := 0; lastTextLengthRef := 0; velocityRef := 0;
     outstanding := [] |}.

Definition set_speech (h : Speech.state) (s : state) : state :=
  {| API_KEY := API_KEY s; speech := h; translatedText := translatedText s;
     aiError := aiError s; isTranslating := isTranslating s;
     isRefining := isRefining s; refinedRef := refinedRef s;
     processedRef := processedRef s;
     refiningInProgressRef := refiningInProgressRef s;
     translatingRef := translatingRef s;
     lastRequestTimeRef := lastRequestTimeRef s;
     lastTextLengthRef := lastTextLengthRef s; velocityRef := velocityRef s;
     outstanding := outstanding s |}.

Definition setText (t : str) (s : state) : state :=
  set_speech (Speech.set_text t (speech s)) s.

Definition setTranslatedText (t : str) (s : state) : state :=
  {| API_KEY := API_KEY s; speech := speech s; translatedText := t;
     aiError := aiError s; isTranslating := isTranslating s;
     isRefining := isRefining s; refinedRef := refinedRef s;
     processedRef := processedRef s;
     refiningInProgressRef := refiningInProgressRef s;
     translatingRef := translatingRef s;
     lastRequestTimeRef := lastRequestTimeRef s;
     lastTextLengthRef := lastTextLengthRef s; velocityRef := velocityRef s;
     outstanding := outstanding s |}.

Definition setAiError (e : option str) (s : state) : state :=
  {| API_KEY := API_KEY s; speech := speech s;
     translatedText := translatedText s;
     aiError := e; isTranslating := isTranslating s;
     isRefining := isRefining s; refinedRef := refinedRef s;
     processedRef := processedRef s;
     refiningInProgressRef := refiningInProgressRef s;
     translatingRef := translatingRef s;
     lastRequestTimeRef := lastRequestTimeRef s;
     lastTextLengthRef := lastTextLengthRef s; velocityRef := velocityRef s;
     outstanding := outstanding s |}.

Definition set_refinedRef (n : Z) (s : state) : state :=
  {| API_KEY := API_KEY s; speech := speech s;
     translatedText := translatedText s;
     aiError := aiError s; isTranslating := isTranslating s;
     isRefining := isRefining s; refinedRef := n;
     processedRef := processedRef s;
     refiningInProgressRef := refiningInProgressRef s;
     translatingRef := translatingRef s;
     lastRequestTimeRef := lastRequestTimeRef s;
     lastTextLengthRef := lastTextLengthRef s; velocityRef := velocityRef s;
     outstanding := outstanding s |}.

Definition set_processedRef (n : Z) (s : state) : state :=
  {| API_KEY := API_KEY s; speech := speech s;
     translatedText := translatedText s;
     aiError := aiError s; isTranslating := isTranslating s;
     isRefining := isRefining s; refinedRef := refinedRef s;
     processedRef := n;
     refiningInProgressRef := refiningInProgressRef s;
     translatingRef := translatingRef s;
     lastRequestTimeRef := lastRequestTimeRef s;
     lastTextLengthRef := lastTextLengthRef s; velocityRef := velocityRef s;
     outstanding := outstanding s |}.

(** [refiningInProgressRef.current = b; setIsRefining(b)] *)
Definition set_refining (b : bool) (s : state) : state :=
  {| API_KEY := API_KEY s; speech := speech s;
     translatedText := translatedText s;
     aiError := aiError s; isTranslating := isTranslating s;
     isRefining := b; refinedRef := refinedRef s;
     processedRef := processedRef s;
     refiningInProgressRef := b;
     translatingRef := translatingRef s;
     lastRequestTimeRef := lastRequestTimeRef s;
     lastTextLengthRef := lastTextLengthRef s; velocityRef := velocityRef s;
     outstanding := outstanding s |}.

(** [translatingRef.current = b; setIsTranslating(b)] *)
Definition set_translating (b : bool) (s : state) : state :=
  {| API_KEY := API_KEY s; speech := speech s;
     translatedText := translatedText s;
     aiError := aiError s; isTranslating := b;
     isRefining := isRefining s; refinedRef := refinedRef s;
     processedRef := processedRef s;
     refiningInProgressRef := refiningInProgressRef s;
     translatingRef := b;
     lastRequestTimeRef := lastRequestTimeRef s;
     lastTextLengthRef := lastTextLengthRef s; velocityRef := velocityRef s;
     outstanding := outstanding s |}.

Definition set_lastRequestTimeRef (t : Z) (s : state) : state :=
  {| API_KEY := API_KEY s; speech := speech s;
     translatedText := translatedText s;
     aiError := aiError s; isTranslating := isTranslating s;
     isRefining := isRefining s; refinedRef := refinedRef s;
     processedRef := processedRef s;
     refiningInProgressRef := refiningInProgressRef s;
     translatingRef := translatingRef s;
     lastRequestTimeRef := t;
     lastTextLengthRef := lastTextLengthRef s; velocityRef := velocityRef s;
     outstanding := outstanding s |}.

Definition set_velocity (last v : Z) (s : state) : state :=
  {| API_KEY := API_KEY s; speech := speech s;
     translatedText := translatedText s;
     aiError := aiError s; isTranslating := isTranslating s;
     isRefining := isRefining s; refinedRef := refinedRef s;
     processedRef := processedRef s;
     refiningInProgressRef := refiningInProgressRef s;
     translatingRef := translatingRef s;
     lastRequestTimeRef := lastRequestTimeRef s;
     lastTextLengthRef := last; velocityRef := v;
     outstanding := outstanding s |}.

Definition set_outstanding (l : list request) (s : state) : state :=
  {| API_KEY := API_KEY s; speech := speech s;
     translatedText := translatedText s;
     aiError := aiError s; isTranslating := isTranslating s;
     isRefining := isRefining s; refinedRef := refinedRef s;
     processedRef := processedRef s;
     refiningInProgressRef := refiningInProgressRef s;
     translatingRef := translatingRef s;
     lastRequestTimeRef := lastRequestTimeRef s;
     lastTextLengthRef := lastTextLengthRef s; velocityRef := velocityRef s;
     outstanding := l |}.

(** The velocity tracker: the body of the 1 s interval, which runs only
    while recording. *)
Definition velocity_tick (s : state) : state :=
  if Speech.status_eqb (Speech.status (speech s)) Speech.RECORDING then
    let currentLength := length (text s) in
    set_velocity currentLength (currentLength - lastTextLengthRef s) s
  else s.

(** *** Refinement stage *)

(** [refineEnglishTranscript] up to its [await]: [None] when it returns
    without calling the remote capability, otherwise the chunk it submits. *)
Definition refine_call (s : state) : option str * state :=
  if negb (API_KEY s) || refiningInProgressRef s then (None, s)
  else
    let raw := text s in
    let unrefinedChunk := trim (slice_from raw (refinedRef s)) in
    let minThreshold := if velocityRef s >? 30 then 120 else 40 in
    if length unrefinedChunk <? minThreshold then (None, s)
    else (Some unrefinedChunk, set_refining true s).

(** The updater given to [setText] on success; it reads [refinedRef.current]
    and the buffer as they are when it runs, and assigns the ref. *)
Definition splice (refined : str) (s : state) : state :=
  let prev := text s in
  let head := slice prev 0 (refinedRef s) in
  let separator :=
    if endsWith head [nl] || negb (truthy head) then [] else [space] in
  let newFullText := head ++ separator ++ refined in
  setText newFullText (set_refinedRef (length newFullText) s).

(** [refineEnglishTranscript] from the point where the awaited call settles:
    [try] body after the await, [catch], [finally]. *)
Definition refine_settle (res : api_outcome) (s : state) : state :=
  let s1 :=
    match res with
    | Resolved (Some t) => if truthy t then splice (trim t) s else s
    | Resolved None => s
    | Rejected _ => s
    end in
  set_refining false s1.

(** The awaited call of the refinement stage goes through the retry wrapper
    with its default arguments. *)
Definition refine_return (fn : nat -> api_outcome) (s : state) : state :=
  refine_settle (outcome (retryWithBackoff fn 0 DEFAULT_RETRIES DEFAULT_DELAY)) s.

(** *** Translation stage *)

Inductive call_result :=
| Skipped
| Rescheduled (ms : Z)
| Called (req : request).

(** [performTranslation(isBatchRequest)] up to its [await], as the callback
    of a render whose buffer was [closureText]: [text] is read through the
    closure, the refs as they are at the call.  [now] is what [Date.now()]
    returns during this synchronous part. *)
Definition performTranslation_of (closureText : str) (isBatchRequest : bool)
    (now : Z) (s : state) : call_result * state :=
  if negb (API_KEY s) || (translatingRef s && negb isBatchRequest)
  then (Skipped, s)
  else
    let elapsed := now - lastRequestTimeRef s in
    if negb isBatchRequest && (elapsed <? minIntervalRef)
    then (Rescheduled (minIntervalRef - elapsed + 10), s)
    else
      let sourceText := closureText in
      let chunk :=
        slice sourceText (processedRef s)
          (if isBatchRequest then length sourceText else refinedRef s) in
      if length (trim chunk) =? 0 then (Skipped, s)
      else
        let endIdx :=
          if isBatchRequest then length sourceText else refinedRef s in
        (Called {| isBatchRequest := isBatchRequest; chunk := chunk;
                   endIdx := endIdx |},
         set_lastRequestTimeRef now (set_translating true s)).

(** The call through the callback of the latest render, whose buffer is the
    current one: the effect that arms the timers is run again, with the new
    callback, whenever the buffer changes. *)
Definition performTranslation_call (isBatchRequest : bool) (now : Z)
    (s : state) : call_result * state :=
  performTranslation_of (text s) isBatchRequest now s.

Definition BATCH_SEPARATOR : str :=
  [nl; nl] ++ lit "--- BATCH PROCESSED ---" ++ [nl].

(** The updater given to [setTranslatedText]. *)
Definition append_translation (isBatchRequest : bool) (val prev : str) : str :=
  if isBatchRequest then
    let p := trimEnd prev in
    let sep :=
      if (length p >? 0) && negb (endsWith p [nl]) then BATCH_SEPARATOR else [] in
    p ++ sep ++ val
  else
    let p := trimEnd prev in
    let sep :=
      if (length p >? 0) && negb (endsWith p [nl]) then [nl] else [] in
    p ++ sep ++ val.

Definition BUSY_MESSAGE : str := lit "Interpreter Busy or Quota Reached.".

(** [performTranslation] from the point where the awaited call settles. *)
Definition performTranslation_return (req : request) (res : api_outcome)
    (s : state) : state :=
  let s1 :=
    match res with
    | Resolved (Some t) =>
        if truthy t then
          let val := trim t in
          if truthy val then
            setAiError None
              (set_processedRef (endIdx req)
                 (setTranslatedText
                    (append_translation (isBatchRequest req) val
                       (translatedText s)) s))
          else s
        else s
    | Resolved None => s
    | Rejected _ => setAiError (Some BUSY_MESSAGE) s
    end in
  set_translating false s1.

(** A translation whose remote call settles before anything else happens. *)
Definition performTranslation (isBatchRequest : bool) (now : Z)
    (res : api_outcome) (s : state) : state :=
  match performTranslation_call isBatchRequest now s with
  | (Called req, s1) => performTranslation_return req res s1
  | (_, s1) => s1
  end.

(** [onClear] of the controls. *)
Definition onClear (s : state) : state :=
  set_processedRef 0
    (set_refinedRef 0 (set_speech (Speech.clearTranscript (speech s)) s)).

(** The closure of a call goes to the outstanding ones, and leaves them
    when its request settles. *)
Definition await (req : request) (s : state) : state :=
  set_outstanding (outstanding s ++ [req]) s.

Definition settled (k : nat) (s : state) : state :=
  set_outstanding (firstn k (outstanding s) ++ skipn (S k) (outstanding s)) s.

(** *** The pipeline as a labelled transition system

    One event is one run of a handler between two points where the program
    yields.  A refinement and a translation are two events each, the call and
    the settling of the awaited request, so that any other handler can run in
    between; [TranslateReturn k] settles the [k]-th outstanding request.
    [RestartTimer] is the firing of a timer set by [recognition.onerror]. *)
Inductive event :=
| Start
| Pause
| Stop
| Result (results : list Speech.result)
| RecognitionError (code : string)
| RecognitionEnd
| RestartTimer
| SilenceTimeout
| VelocityTick
| RefineCall
| RefineReturn (fn : nat -> api_outcome)
| TranslateCall (isBatchRequest : bool) (now : Z)
| TranslateReturn (k : nat) (res : api_outcome)
| Clear.

Definition on_speech (f : Speech.state -> Speech.state) (s : state) : state :=
  set_speech (f (speech s)) s.

(** A settling is delivered only to a call that is outstanding. *)
Definition apply (e : event) (s : state) : state :=
  match e with
  | Start => on_speech Speech.startRecording s
  | Pause => on_speech Speech.pauseRecording s
  | Stop => on_speech Speech.stopRecording s
  | Result results => on_speech (Speech.onresult results) s
  | RecognitionError code => on_speech (Speech.onerror code) s
  | RecognitionEnd => on_speech Speech.onend s
  | RestartTimer => on_speech Speech.on_restart_timer s
  | SilenceTimeout => on_speech Speech.on_silence_timeout s
  | VelocityTick => velocity_tick s
  | RefineCall => snd (refine_call s)
  | RefineReturn fn =>
      if refiningInProgressRef s then refine_return fn s else s
  | TranslateCall isBatchRequest now =>
      match performTranslation_call isBatchRequest now s with
      | (Called req, s1) => await req s1
      | (_, s1) => s1
      end
  | TranslateReturn k res =>
      match nth_error (outstanding s) k with
      | Some req => performTranslation_return req res (settled k s)
      | None => s
      end
  | Clear => onClear s
  end.

Definition run (es : list event) (s : state) : state :=
  fold_left (fun s e => apply e s) es s.

Definition is_batch (e : event) : bool :=
  match e with
  | TranslateCall true _ => true
  | _ => false
  end.

End App.

(** ** Predicates of the statements *)

Import JS.

(** A string of white space only. *)
Definition blank (w : str) : Prop := forallb is_space w = true.

(** [p] is a prefix of [s]. *)
Definition prefix_of (p s : str) : Prop := exists r, s = p ++ r.

(** The number of white-space code units at the end of a string. *)
Definition trailing (s : str) : nat :=
  (List.length s - List.length (trimEnd s))%nat.

(** ** Scenarios of the specification *)

(** Stream ingest fed a list of final chunks, each in an event of its own,
    from a freshly started recording. *)
Definition feed_finals (chunks : list str) : Speech.state :=
  fold_left (fun s c => Speech.onresult [(true, c)] s) chunks
    (Speech.startRecording Speech.initial).

(** The finals "hello world" and "this is a test.", then the silence timer. *)
Definition hello_world_scenario : Speech.state :=
  Speech.on_silence_timeout
    (feed_finals [lit "hello world"; lit "this is a test."]).

(** Recognition errors arriving one after the other, nothing in between. *)
Definition consecutive_errors (codes : list string) (s : Speech.state)
  : Speech.state :=
  fold_left (fun s code => Speech.onerror code s) codes s.

(** [line] is the last line of [s]: what follows the last newline of [s],
    or all of [s] when it holds none. *)
Definition is_last_line (line s : str) : Prop :=
  ~ In nl line /\ (s = line \/ exists before, s = before ++ nl :: line).

(** A string that ends in a full stop, and one whose last code unit is none
    of the three terminators. *)
Definition ends_in_full_stop (l : str) : Prop :=
  exists body, l = body ++ ["."%char].

Definition no_terminal_punctuation (l : str) : Prop :=
  forall body c, l = body ++ [c] ->
    c <> "."%char /\ c <> "!"%char /\ c <> "?"%char.

(** A rejection of the rate-limit class: its status is 429, or its message
    holds the digits 429 somewhere. *)
Definition rate_limited (o : App.api_outcome) : Prop :=
  exists e, o = App.Rejected e /\
    (App.err_status e = Some 429 \/
     exists m a b, App.err_message e = Some m /\ m = a ++ lit "429" ++ b).

(** An outcome of the remote call that makes the retry wrapper try again. *)
Definition quota_rejected (o : App.api_outcome) : bool :=
  match o with
  | App.Rejected e => App.isQuota e
  | App.Resolved _ => false
  end.

(** The marker inside the separator of a batch translation. *)
Definition BATCH_MARKER : str := lit "--- BATCH PROCESSED ---".

(** The buffer "Hello. World." reached by stream ingest in a fresh session. *)
Definition hello_world_session : App.state :=
  App.run [App.Start; App.Result [(true, lit "Hello. World.")]] (App.initial true).


(** A string with a code unit that is not white space. *)
Definition nonblank (m : str) : Prop :=
  exists c, In c m /\ is_space c = false.

(** A string whose last code unit is not white space. *)
Definition ends_solid (l : str) : Prop :=
  exists y c, l = y ++ [c] /\ is_space c = false.

(** What a commit makes of a buffer whose trimmed form is [x]: a string with
    no white space at either end that is a first unit when [x] is empty, and
    otherwise [x], one white-space separator and a unit. *)
Definition grows_from (x r : str) : Prop :=
  trimEnd r = r /\
  match x with
  | [] => exists d rest, r = d :: rest /\ is_space d = false
  | _ :: _ =>
      exists c d rest,
        r = x ++ c :: d :: rest /\ is_space c = true /\ is_space d = false
  end.

(** The length of a buffer without its trailing white space. *)
Definition core (t : str) : nat := List.length (trimEnd t).

(** The invariant that ties the source buffer [t] to the refined watermark
    [n] and to the single-flight flag of the refinement stage: the watermark
    is inside the buffer; the buffer does not start with white space and
    ends in at most two white-space code units; the refined prefix, when it
    stops inside the trimmed buffer, ends in at most one; and while a
    refinement is outstanding the watermark is inside the trimmed buffer. *)
Definition buffer_ok (t : str) (n : nat) (refining : bool) : Prop :=
  (n <= List.length t)%nat /\
  trimStart t = t /\
  (trailing t <= 2)%nat /\
  ((n <= core t)%nat -> (trailing (firstn n t) <= 1)%nat) /\
  (refining = true -> (n <= core t)%nat).

Definition text_invariant (s : App.state) : Prop :=
  0 <= App.refinedRef s /\
  buffer_ok (App.text s) (Z.to_nat (App.refinedRef s)) (App.refiningInProgressRef s).

(** The order of the two watermarks and the end of the buffer. *)
Definition watermarks_ordered (s : App.state) : Prop :=
  0 <= App.processedRef s /\
  App.processedRef s <= App.refinedRef s /\
  App.refinedRef s <= length (App.text s).

(** A trace, run from [s], in which every batch translation starts when
    nothing unrefined is pending: the refined watermark is at the end of the
    buffer. *)
Fixpoint batch_only_when_refined (es : list App.event) (s : App.state) : bool :=
  match es with
  | [] => true
  | e :: es' =>
      (negb (App.is_batch e) || (App.refinedRef s =? length (App.text s)))
      && batch_only_when_refined es' (App.apply e s)
  end.

(** A trace, run from [s], in which the explicit clear is used only when no
    translation request is outstanding. *)
Definition no_outstanding (s : App.state) : bool :=
  match App.outstanding s with [] => true | _ :: _ => false end.

Fixpoint clear_only_when_settled (es : list App.event) (s : App.state) : bool :=
  match es with
  | [] => true
  | e :: es' =>
      (match e with App.Clear => no_outstanding s | _ => true end)
      && clear_only_when_settled es' (App.apply e s)
  end.

(** Every outstanding translation request ends inside the refined part of
    the buffer. *)
Definition requests_bounded (s : App.state) : Prop :=
  Forall (fun r => 0 <= App.endIdx r <= App.refinedRef s) (App.outstanding s).

(** At most one translation request is outstanding, the single-flight flag
    is set while it is, and it ends at or beyond the translated watermark. *)
Definition incremental_flight (s : App.state) : Prop :=
  App.outstanding s = [] \/
  exists r, App.outstanding s = [r] /\ App.translatingRef s = true /\
            0 <= App.endIdx r /\ App.processedRef s <= App.endIdx r.

(** A batch translation of "Hello. World." in a fresh session, where nothing
    has been refined yet. *)
Definition batch_session : App.state :=
  App.run [App.Start;
           App.Result [(true, lit "Hello. World.")];
           App.TranslateCall true 1000;
           App.TranslateReturn 0 (App.Resolved (Some (lit "Xin chao. The gioi.")))]
    (App.initial true).

(** A refinement with a commit while its request is outstanding: the chunk
    submitted is the first unit; the second unit arrives before the
    corrected text does. *)
Definition first_unit : str :=
  lit "the quick brown fox jumps over the lazy dog today".

Definition refinement_called : App.state :=
  App.run [App.Start; App.Result [(true, first_unit)]; App.RefineCall]
    (App.initial true).

Definition in_flight_session : App.state :=
  App.apply (App.Result [(true, lit "and more words")]) refinement_called.

Definition corrected_unit : str :=
  lit "The quick brown fox jumps over the lazy dog today.".

Definition corrected_once (_ : nat) : App.api_outcome :=
  App.Resolved (Some corrected_unit).

(** A session with one refined unit in which the user has typed a note,
    ending in a space, into the translation pane ([onChange] of the pane is
    [setTranslatedText]). *)
Definition edited_translation : App.state :=
  App.setTranslatedText (lit "Ghi chu: ")
    (App.run [App.Start; App.Result [(true, first_unit)];
              App.RefineCall; App.RefineReturn corrected_once]
       (App.initial true)).

(** Ingest, a refinement with a commit in between, a batch translation of
    the refined buffer with a silence commit and more ingest before its
    response, a second refinement, an incremental translation, and a clear
    once every request has settled. *)
Definition refine_then_translate : list App.event :=
  [App.Start;
   App.Result [(true, first_unit)];
   App.RefineCall;
   App.Result [(true, lit "and more words")];
   App.RefineReturn corrected_once;
   App.TranslateCall true 1000;
   App.SilenceTimeout;
   App.Result [(true, lit "the next unit of the talk goes on for a while longer")];
   App.TranslateReturn 0 (App.Resolved (Some (lit "Con cao nau nhanh nhen.")));
   App.RefineCall;
   App.RefineReturn (fun _ => App.Resolved (Some (lit "The next unit of the talk goes on for a while longer.")));
   App.TranslateCall false 2000;
   App.TranslateReturn 0 (App.Resolved (Some (lit "Phan tiep theo.")));
   App.Clear].

(** An explicit clear while the request of an incremental translation is
    outstanding, and the response after it. *)
Definition stale_response_session : App.state :=
  App.run [App.Start;
           App.Result [(true, first_unit)];
           App.RefineCall;
           App.RefineReturn corrected_once;
           App.TranslateCall false 1000;
           App.Clear;
           App.TranslateReturn 0 (App.Resolved (Some (lit "Con cao nau.")))]
    (App.initial true).

(** ** Classes of events and outcomes *)

Definition is_start (e : App.event) : bool :=
  match e with App.Start => true | _ => false end.

Definition is_refine_return (e : App.event) : bool :=
  match e with App.RefineReturn _ => true | _ => false end.

Definition is_tick (e : App.event) : bool :=
  match e with App.VelocityTick => true | _ => false end.

Definition is_clear (e : App.event) : bool :=
  match e with App.Clear => true | _ => false end.

(** A trace with no event of the class [p]. *)
Definition without (p : App.event -> bool) (es : list App.event) : bool :=
  forallb (fun e => negb (p e)) es.

(** An outcome of the remote call after which neither stage commits
    anything: a rejection, a response without text, or an empty text. *)
Definition unsuccessful (o : App.api_outcome) : bool :=
  match o with
  | App.Resolved (Some t) => negb (truthy t)
  | App.Resolved None => true
  | App.Rejected _ => true
  end.

(** A remote capability that is rate limited on its first two calls, by
    status and then by message, and answers the third; and one that fails
    with a server error. *)
Definition limited_twice (k : nat) : App.api_outcome :=
  match k with
  | O => App.Rejected {| App.err_status := Some 429; App.err_message := None |}
  | S O => App.Rejected {| App.err_status := None;
                           App.err_message := Some (lit "HTTP 429 Too Many Requests") |}
  | _ => App.Resolved (Some corrected_unit)
  end.

Definition server_error (_ : nat) : App.api_outcome :=
  App.Rejected {| App.err_status := Some 500;
                  App.err_message := Some (lit "Internal error") |}.

(** A remote capability that is rate limited on every call. *)
Definition always_limited (_ : nat) : App.api_outcome :=
  App.Rejected {| App.err_status := Some 429; App.err_message := None |}.

(** ** Sessions, triggers, upload and export: the rest of [src/App.tsx]

    The component around the two stages.  A handler of this part reads the
    state variables through the closure of the render it was created in
    ([cl], the state when the event starts) and the refs, the local storage
    and the pending state updates as they are when the statement runs (the
    state that is threaded through).  [Date.now()], the stopwatch's
    [elapsedTime] and the identifier drawn by [generateId] are inputs.
    [JSON.stringify] followed by [JSON.parse] is the identity on the records
    stored, so the local storage holds the records themselves. *)

Module Shell.
Import JS.

(** [SessionMetadata] and [SessionData] of [types.ts], as the component
    builds and reads them. *)
Record SessionMetadata := mkMeta {
  id : string;
  name : str;
  createdAt : Z;
  updatedAt : Z;
  durationSeconds : Z;
  wordCount : Z
}.

Record SessionData := mkData {
  d_text : str;
  d_translatedText : str;
  d_contextDesc : str;
  d_fileContent : str;
  d_fileName : str;
  d_processedIndex : Z
}.

(** The two families of keys of the local storage: [SESSIONS_META_KEY], and
    [SESSION_DATA_PREFIX + id] for every identifier. *)
Record storage := mkStorage {
  meta : option (list SessionMetadata);
  data : string -> option SessionData
}.

Definition empty_storage : storage :=
  {| meta := None; data := fun _ => None |}.

Definition setItem_meta (l : list SessionMetadata) (st : storage) : storage :=
  {| meta := Some l; data := data st |}.

Definition setItem_data (k : string) (d : SessionData) (st : storage) : storage :=
  {| meta := meta st;
     data := fun k' => if String.eqb k' k then Some d else data st k' |}.

Definition removeItem_data (k : string) (st : storage) : storage :=
  {| meta := meta st;
     data := fun k' => if String.eqb k' k then None else data st k' |}.

Record state := mkState {
  app : App.state;
  isAuthenticated : bool;
  sessions : list SessionMetadata;
  activeSessionId : option string;
  isVaultOpen : bool;
  lastSaved : Z;
  contextDesc : str;
  contextFileName : str;
  fileContent : str;
  isBatchMode : bool;
  isLiveMode : bool;
  batchFileProcessing : bool;
  localStorage : storage
}.

(** The component as it is first rendered over a local storage. *)
Definition fresh (key authenticated : bool) (st : storage) : state :=
  {| app := App.initial key; isAuthenticated := authenticated;
     sessions := []; activeSessionId := None; isVaultOpen := false;
     lastSaved := 0; contextDesc := []; contextFileName := [];
     fileContent := []; isBatchMode := false; isLiveMode := false;
     batchFileProcessing := false; localStorage := st |}.

Definition set_app (a : App.state) (s : state) : state :=
  {| app := a; isAuthenticated := isAuthenticated s; sessions := sessions s;
     activeSessionId := activeSessionId s; isVaultOpen := isVaultOpen s;
     lastSaved := lastSaved s; contextDesc := contextDesc s;
     contextFileName := contextFileName s; fileContent := fileContent s;
     isBatchMode := isBatchMode s; isLiveMode := isLiveMode s;
     batchFileProcessing := batchFileProcessing s;
     localStorage := localStorage s |}.

Definition setSessions (l : list SessionMetadata) (s : state) : state :=
  {| app := app s; isAuthenticated := isAuthenticated s; sessions := l;
     activeSessionId := activeSessionId s; isVaultOpen := isVaultOpen s;
     lastSaved := lastSaved s; contextDesc := contextDesc s;
     contextFileName := contextFileName s; fileContent := fileContent s;
     isBatchMode := isBatchMode s; isLiveMode := isLiveMode s;
     batchFileProcessing := batchFileProcessing s;
     localStorage := localStorage s |}.

Definition setActiveSessionId (i : option string) (s : state) : state :=
  {| app := app s; isAuthenticated := isAuthenticated s; sessions := sessions s;
     activeSessionId := i; isVaultOpen := isVaultOpen s;
     lastSaved := lastSaved s; contextDesc := contextDesc s;
     contextFileName := contextFileName s; fileContent := fileContent s;
     isBatchMode := isBatchMode s; isLiveMode := isLiveMode s;
     batchFileProcessing := batchFileProcessing s;
     localStorage := localStorage s |}.

Definition setIsVaultOpen (b : bool) (s : state) : state :=
  {| app := app s; isAuthenticated := isAuthenticated s; sessions := sessions s;
     activeSessionId := activeSessionId s; isVaultOpen := b;
     lastSaved := lastSaved s; contextDesc := contextDesc s;
     contextFileName := contextFileName s; fileContent := fileContent s;
     isBatchMode := isBatchMode s; isLiveMode := isLiveMode s;
     batchFileProcessing := batchFileProcessing s;
     localStorage := localStorage s |}.

Definition setLastSaved (t : Z) (s : state) : state :=
  {| app := app s; isAuthenticated := isAuthenticated s; sessions := sessions s;
     activeSessionId := activeSessionId s; isVaultOpen := isVaultOpen s;
     lastSaved := t; contextDesc := contextDesc s;
     contextFileName := contextFileName s; fileContent := fileContent s;
     isBatchMode := isBatchMode s; isLiveMode := isLiveMode s;
     batchFileProcessing := batchFileProcessing s;
     localStorage := localStorage s |}.

(** [setContextDesc], [setContextFileName] and [setFileContent] *)
Definition setContext (desc fileName content : str) (s : state) : state :=
  {| app := app s; isAuthenticated := isAuthenticated s; sessions := sessions s;
     activeSessionId := activeSessionId s; isVaultOpen := isVaultOpen s;
     lastSaved := lastSaved s; contextDesc := desc;
     contextFileName := fileName; fileContent := content;
     isBatchMode := isBatchMode s; isLiveMode := isLiveMode s;
     batchFileProcessing := batchFileProcessing s;
     localStorage := localStorage s |}.

Definition setBatchFileProcessing (b : bool) (s : state) : state :=
  {| app := app s; isAuthenticated := isAuthenticated s; sessions := sessions s;
     activeSessionId := activeSessionId s; isVaultOpen := isVaultOpen s;
     lastSaved := lastSaved s; contextDesc := contextDesc s;
     contextFileName := contextFileName s; fileContent := fileContent s;
     isBatchMode := isBatchMode s; isLiveMode := isLiveMode s;
     batchFileProcessing := b;
     localStorage := localStorage s |}.

Definition set_localStorage (st : storage) (s : state) : state :=
  {| app := app s; isAuthenticated := isAuthenticated s; sessions := sessions s;
     activeSessionId := activeSessionId s; isVaultOpen := isVaultOpen s;
     lastSaved := lastSaved s; contextDesc := contextDesc s;
     contextFileName := contextFileName s; fileContent := fileContent s;
     isBatchMode := isBatchMode s; isLiveMode := isLiveMode s;
     batchFileProcessing := batchFileProcessing s;
     localStorage := st |}.

(** [setIsTranslating(b)] alone, without the ref. *)
Definition setIsTranslating (b : bool) (a : App.state) : App.state :=
  {| App.API_KEY := App.API_KEY a; App.speech := App.speech a;
     App.translatedText := App.translatedText a;
     App.aiError := App.aiError a; App.isTranslating := b;
     App.isRefining := App.isRefining a; App.refinedRef := App.refinedRef a;
     App.processedRef := App.processedRef a;
     App.refiningInProgressRef := App.refiningInProgressRef a;
     App.translatingRef := App.translatingRef a;
     App.lastRequestTimeRef := App.lastRequestTimeRef a;
     App.lastTextLengthRef := App.lastTextLengthRef a;
     App.velocityRef := App.velocityRef a;
     App.outstanding := App.outstanding a |}.

(** [text.split(/\s+/).filter(Boolean).length]: the pieces between the runs
    of white space, the empty ones at the ends dropped, that is the number
    of maximal runs of code units that are not white space. *)
Fixpoint count_words_from (inside : bool) (s : str) : nat :=
  match s with
  | [] => 0%nat
  | c :: s' =>
      if is_space c then count_words_from false s'
      else ((if inside then 0 else 1) + count_words_from true s')%nat
  end.

Definition count_words (s : str) : Z := Z.of_nat (count_words_from false s).

(** [v || ''] on a string and [v || 0] on a number *)
Definition or_empty (v : str) : str := if truthy v then v else [].
Definition or_zero (v : Z) : Z := if v =? 0 then 0 else v.

(** Truthiness of [activeSessionId]: [null] and the empty string are
    falsy. *)
Definition truthy_id (i : option string) : option string :=
  match i with
  | Some EmptyString => None
  | Some i => Some i
  | None => None
  end.

(** [saveCurrentToStorage] *)
Definition saveCurrentToStorage (cl : state) (now elapsedTime : Z) (s : state)
  : state :=
  match truthy_id (activeSessionId cl) with
  | None => s
  | Some active =>
      let d := {| d_text := App.text (app cl);
                  d_translatedText := App.translatedText (app cl);
                  d_contextDesc := contextDesc cl;
                  d_fileContent := fileContent cl;
                  d_fileName := contextFileName cl;
                  d_processedIndex := App.processedRef (app s) |} in
      let s := set_localStorage (setItem_data active d (localStorage s)) s in
      let updated :=
        map (fun m =>
               if String.eqb (id m) active
               then {| id := id m; name := name m; createdAt := createdAt m;
                       updatedAt := now; durationSeconds := elapsedTime;
                       wordCount := count_words (App.text (app cl)) |}
               else m)
            (sessions s) in
      let s := set_localStorage (setItem_meta updated (localStorage s))
                 (setSessions updated s) in
      setLastSaved now s
  end.

(** The part of [handleSelectSession] that loads a stored record, or
    resets when there is none. *)
Definition load (d : option SessionData) (s : state) : state :=
  match d with
  | Some d =>
      let t := or_empty (d_text d) in
      let a := App.setText t (app s) in
      let a := App.setTranslatedText (or_empty (d_translatedText d)) a in
      let s := setContext (or_empty (d_contextDesc d)) (or_empty (d_fileName d))
                 (or_empty (d_fileContent d)) (set_app a s) in
      let a := App.set_processedRef (or_zero (d_processedIndex d)) (app s) in
      let a := App.set_refinedRef (length (or_empty (d_text d))) a in
      set_app a s
  | None =>
      let a := App.setTranslatedText [] (App.setText [] (app s)) in
      let s := setContext [] [] [] (set_app a s) in
      set_app (App.set_refinedRef 0 (App.set_processedRef 0 (app s))) s
  end.

(** [handleSelectSession(id)]; the stopwatch that [resetTimer()] resets is
    not part of this state. *)
Definition handleSelectSession (cl : state) (now elapsedTime : Z)
    (i : string) (s : state) : state :=
  let s := match truthy_id (activeSessionId cl) with
           | Some _ => saveCurrentToStorage cl now elapsedTime s
           | None => s
           end in
  let s := load (data (localStorage s) i) s in
  setIsVaultOpen false (setActiveSessionId (Some i) s).

(** [createNewSession(name)]; [newId] is what [generateId()] returns. *)
Definition createNewSession (cl : state) (now elapsedTime : Z)
    (newId : string) (nm : str) (s : state) : state :=
  let newMeta := {| id := newId; name := nm; createdAt := now;
                    updatedAt := now; durationSeconds := 0; wordCount := 0 |} in
  let updatedMeta := newMeta :: sessions cl in
  let s := set_localStorage (setItem_meta updatedMeta (localStorage s))
             (setSessions updatedMeta s) in
  setIsVaultOpen false (handleSelectSession cl now elapsedTime newId s).

(** [handleDeleteSession(id)] *)
Definition handleDeleteSession (cl : state) (now elapsedTime : Z)
    (newId : string) (i : string) (s : state) : state :=
  let updated := filter (fun m => negb (String.eqb (id m) i)) (sessions cl) in
  let s := setSessions updated s in
  let s := set_localStorage
             (removeItem_data i (setItem_meta updated (localStorage s))) s in
  match activeSessionId cl with
  | Some active =>
      if String.eqb active i then
        match updated with
        | m :: _ => handleSelectSession cl now elapsedTime (id m) s
        | [] => createNewSession cl now elapsedTime newId
                  (lit "Untitled Meeting") s
        end
      else s
  | None => s
  end.

(** The effect that runs once after the first render. *)
Definition mount (now elapsedTime : Z) (newId : string) (s : state) : state :=
  match meta (localStorage s) with
  | Some parsed =>
      let s1 := setSessions parsed s in
      match parsed with
      | m :: _ => handleSelectSession s now elapsedTime (id m) s1
      | [] => createNewSession s now elapsedTime newId (lit "Initial Session") s1
      end
  | None => createNewSession s now elapsedTime newId (lit "Untitled Meeting") s
  end.

(** The handlers as events: the closure is the state when the event starts. *)
Definition save (now elapsedTime : Z) (s : state) : state :=
  saveCurrentToStorage s now elapsedTime s.

Definition select (now elapsedTime : Z) (i : string) (s : state) : state :=
  handleSelectSession s now elapsedTime i s.

Definition create (now elapsedTime : Z) (newId : string) (nm : str) (s : state)
  : state :=
  createNewSession s now elapsedTime newId nm s.

Definition delete (now elapsedTime : Z) (newId i : string) (s : state) : state :=
  handleDeleteSession s now elapsedTime newId i s.

(** The auto-save effect: 5 s after the last change of what it depends on. *)
Definition autosave (now elapsedTime : Z) (s : state) : state :=
  match truthy_id (activeSessionId s) with
  | Some _ => if isAuthenticated s then save now elapsedTime s else s
  | None => s
  end.

(** The effect that arms the timers of the two stages, on the renders after
    the first.  It runs after a render when one of its dependencies differs
    from the render before:
    [text], the two callbacks (which change exactly when [text] or
    [contextDesc] do, their other dependencies being a state setter and a
    ref) and the three flags.  The refs it reads are no dependencies. *)
Definition trigger_deps_changed (prev s : state) : bool :=
  negb (JS.eqb (App.text (app prev)) (App.text (app s))
        && JS.eqb (contextDesc prev) (contextDesc s)
        && Bool.eqb (isAuthenticated prev) (isAuthenticated s)
        && Bool.eqb (isLiveMode prev) (isLiveMode s)
        && Bool.eqb (isBatchMode prev) (isBatchMode s)).

Record timers := mkTimers {
  refineTimeout : option Z;
  retryTimeout : option Z
}.

(** The body of the effect: what is pending after it has run (the clean-up
    of its run before has cleared both timers). *)
Definition trigger_body (s : state) : timers :=
  let a := app s in
  if negb (isAuthenticated s) || isLiveMode s || isBatchMode s
  then {| refineTimeout := None; retryTimeout := None |}
  else
    {| refineTimeout :=
         if negb (App.refiningInProgressRef a)
            && (length (App.text a) >? App.refinedRef a + 20)
         then Some 1500 else None;
       retryTimeout :=
         if negb (App.translatingRef a)
            && (App.refinedRef a >? App.processedRef a)
         then Some (if App.velocityRef a >? 40 then 400 else 800) else None |}.

(** The effect after the render [s] that follows the render [prev]: [None]
    when it does not run, and then it arms nothing. *)
Definition auto_trigger (prev s : state) : option timers :=
  if trigger_deps_changed prev s then Some (trigger_body s) else None.

(** [handleAudioBatchUpload] up to its first [await]: whether it goes on. *)
Definition audio_upload_call (hasFile : bool) (s : state) : bool * state :=
  if negb hasFile || negb (App.API_KEY (app s)) then (false, s)
  else
    (true,
     set_app (App.setAiError None (setIsTranslating true (app s)))
       (setBatchFileProcessing true s)).

Definition AUDIO_TAG : str := nl :: lit "[AUDIO FILE]: ".
Definition AUDIO_FAILED : str := lit "Audio file processing failed.".

(** [handleAudioBatchUpload] from the point where the transcription (or the
    reading of the file) settles; the second component is the delay of the
    batch translation it schedules, if any. *)
Definition audio_upload_settle (cl : state) (res : App.api_outcome) (s : state)
  : state * option Z :=
  let '(s1, timer) :=
    match res with
    | App.Resolved (Some t) =>
        if truthy t then
          (set_app (App.setText (App.text (app s) ++ AUDIO_TAG ++ t) (app s)) s,
           if isBatchMode cl then Some 1000 else None)
        else (s, None)
    | App.Resolved None => (s, None)
    | App.Rejected _ =>
        (set_app (App.setAiError (Some AUDIO_FAILED) (app s)) s, None)
    end in
  (set_app (setIsTranslating false (app s1)) (setBatchFileProcessing false s1),
   timer).

(** The callback of the timer that the upload sets in batch mode:
    [performTranslation(true)] of the render in which the upload started,
    whose [text] is the buffer of that render. *)
Definition audio_batch_translation (cl : state) (now : Z) (s : state)
  : App.call_result * App.state :=
  App.performTranslation_of (App.text (app cl)) true now (app s).

(** [name.replace(/\s+/g, '_')]: every maximal run of white space becomes
    one underscore. *)
Fixpoint replace_spaces_from (inside : bool) (s : str) : str :=
  match s with
  | [] => []
  | c :: s' =>
      if is_space c
      then (if inside then [] else ["_"%char]) ++ replace_spaces_from true s'
      else c :: replace_spaces_from false s'
  end.

Definition replace_spaces (s : str) : str := replace_spaces_from false s.

(** The name under which [exportSession] looks up the active session. *)
Definition export_name (s : state) : str :=
  match activeSessionId s with
  | None => lit "session"
  | Some active =>
      match find (fun m => String.eqb (id m) active) (sessions s) with
      | Some m => if truthy (name m) then name m else lit "session"
      | None => lit "session"
      end
  end.

(** [exportSession]: the name of the download and the document.  [date] is
    [new Date().toLocaleString()] and [duration] is
    [formatTime(elapsedTime)]. *)
Definition exportSession (date duration : str) (s : state) : str * str :=
  let nm := export_name s in
  let content :=
    lit "# HIEUAI TRANSLATE - SESSION ARCHIVE" ++ [nl] ++
    lit "Title: " ++ nm ++ [nl] ++
    lit "Date: " ++ date ++ [nl] ++
    lit "Duration: " ++ duration ++ [nl] ++
    [nl] ++
    lit "## Context & Objectives" ++ [nl] ++
    (if truthy (contextDesc s) then contextDesc s
     else lit "No context provided.") ++ [nl] ++
    lit "Reference File: " ++
    (if truthy (contextFileName s) then contextFileName s else lit "None") ++ [nl] ++
    [nl] ++
    lit "## Original Transcript (EN)" ++ [nl] ++
    App.text (app s) ++ [nl] ++
    [nl] ++
    lit "## Interpretation (VI)" ++ [nl] ++
    App.translatedText (app s) ++ [nl] in
  (replace_spaces nm ++ lit "_archive.md", content).

End Shell.

(** ** The transcript pane: [src/components/TranscriptArea.tsx] *)

Module Pane.
Import JS.

(** [text.split('\n')] *)
Definition lines (s : str) : list str :=
  let '(l, ls) := split_lines s in l :: ls.

(** [paragraphs]: [text.split('\n').filter(p => p.trim() !== '')] *)
Definition paragraphs (text : str) : list str :=
  filter (fun p => truthy (trim p)) (lines text).

(** The placeholder is shown when there is no paragraph and no interim
    text. *)
Definition shows_placeholder (text interimText : str) : bool :=
  (List.length (paragraphs text) =? 0)%nat && negb (truthy interimText).

End Pane.

(** The record that a save writes for the state [s]. *)
Definition saved_data (s : Shell.state) : Shell.SessionData :=
  {| Shell.d_text := App.text (Shell.app s);
     Shell.d_translatedText := App.translatedText (Shell.app s);
     Shell.d_contextDesc := Shell.contextDesc s;
     Shell.d_fileContent := Shell.fileContent s;
     Shell.d_fileName := Shell.contextFileName s;
     Shell.d_processedIndex := App.processedRef (Shell.app s) |}.

(** What a session shows of a stored record once it is loaded. *)
Definition shows (s : Shell.state) (d : Shell.SessionData) : Prop :=
  App.text (Shell.app s) = Shell.d_text d /\
  App.translatedText (Shell.app s) = Shell.d_translatedText d /\
  Shell.contextDesc s = Shell.d_contextDesc d /\
  Shell.fileContent s = Shell.d_fileContent d /\
  Shell.contextFileName s = Shell.d_fileName d /\
  App.processedRef (Shell.app s) = Shell.d_processedIndex d /\
  App.refinedRef (Shell.app s) = length (Shell.d_text d).

(** A session with two stored sessions, the first one active and a
    refinement outstanding. *)
Definition two_sessions : Shell.state :=
  let meta1 := {| Shell.id := "s1"; Shell.name := lit "Monday";
                  Shell.createdAt := 1; Shell.updatedAt := 1;
                  Shell.durationSeconds := 0; Shell.wordCount := 0 |} in
  let meta2 := {| Shell.id := "s2"; Shell.name := lit "Tuesday notes";
                  Shell.createdAt := 2; Shell.updatedAt := 2;
                  Shell.durationSeconds := 0; Shell.wordCount := 0 |} in
  let d2 := {| Shell.d_text := lit "Older text.";
               Shell.d_translatedText := lit "Van ban cu.";
               Shell.d_contextDesc := []; Shell.d_fileContent := [];
               Shell.d_fileName := []; Shell.d_processedIndex := 11 |} in
  Shell.setActiveSessionId (Some "s1"%string)
    (Shell.setSessions [meta1; meta2]
       (Shell.set_app in_flight_session
          (Shell.fresh true true
             (Shell.setItem_data "s2" d2
                (Shell.setItem_meta [meta1; meta2] Shell.empty_storage))))).

(** * Properties *)

(** ** Strings *)

Section StringFacts.

Lemma trimEnd_cons c s :
  trimEnd (c :: s) =
  match trimEnd s with
  | [] => if is_space c then [] else [c]
  | r => c :: r
  end.
Proof. reflexivity. Qed.

Lemma trimEnd_snoc s c : is_space c = false -> trimEnd (s ++ [c]) = s ++ [c].
Proof.
  intros Hc. induction s as [|a s IH]; simpl.
  - now rewrite Hc.
  - rewrite IH. destruct s; reflexivity.
Qed.

Lemma trimEnd_blank w : blank w -> trimEnd w = [].
Proof.
  unfold blank. induction w as [|a w IH]; simpl; [reflexivity|].
  intros H. apply andb_true_iff in H as [Ha Hw].
  now rewrite (IH Hw), Ha.
Qed.

Lemma trimEnd_nil_blank s : trimEnd s = [] -> blank s.
Proof.
  unfold blank. induction s as [|a s IH]; simpl; [reflexivity|].
  destruct (trimEnd s) eqn:E.
  - destruct (is_space a); [intros _; now rewrite IH | discriminate].
  - discriminate.
Qed.

Lemma trimEnd_app_blank s w : blank w -> trimEnd (s ++ w) = trimEnd s.
Proof.
  intros Hw. induction s as [|a s IH]; simpl.
  - now apply trimEnd_blank.
  - now rewrite IH.
Qed.

Lemma trimEnd_decomp s : exists w, s = trimEnd s ++ w /\ blank w.
Proof.
  induction s as [|a s (w & E & Hw)].
  - exists []. now split.
  - simpl. destruct (trimEnd s) as [|b r] eqn:Et.
    + destruct (is_space a) eqn:Ha.
      * exists (a :: s). split; [reflexivity|].
        unfold blank; simpl. rewrite Ha. simpl.
        now apply trimEnd_nil_blank.
      * exists w. simpl in E. split; [now rewrite E at 1 | assumption].
    + exists w. split; [|assumption]. simpl. now rewrite E at 1.
Qed.

Lemma trimEnd_idem s : trimEnd (trimEnd s) = trimEnd s.
Proof.
  destruct (trimEnd_decomp s) as (w & E & Hw).
  rewrite E at 2. now rewrite trimEnd_app_blank.
Qed.

Lemma trimEnd_length s : (List.length (trimEnd s) <= List.length s)%nat.
Proof.
  destruct (trimEnd_decomp s) as (w & E & _).
  rewrite E at 2. rewrite length_app. lia.
Qed.

(** A string that [trimEnd] leaves alone is empty or ends in a code unit
    that is not white space. *)
Lemma trimEnd_fixed_last s c : trimEnd (s ++ [c]) = s ++ [c] -> is_space c = false.
Proof.
  intros H. destruct (is_space c) eqn:Hc; [|reflexivity].
  rewrite trimEnd_app_blank in H by (unfold blank; simpl; now rewrite Hc).
  pose proof (trimEnd_length s) as L. rewrite H, length_app in L. simpl in L. lia.
Qed.

Lemma trimEnd_app_fixed s t : t <> [] -> trimEnd t = t -> trimEnd (s ++ t) = s ++ t.
Proof.
  intros Hne Ht. destruct (exists_last Hne) as (y & c & ->).
  rewrite app_assoc. apply trimEnd_snoc. now apply trimEnd_fixed_last with y.
Qed.

Lemma trimStart_decomp s : exists w, s = w ++ trimStart s /\ blank w.
Proof.
  induction s as [|a s (w & E & Hw)].
  - exists []. now split.
  - simpl. destruct (is_space a) eqn:Ha.
    + exists (a :: w). split; [simpl; now rewrite <- E|].
      unfold blank; simpl. now rewrite Ha.
    + exists []. now split.
Qed.

Lemma trimStart_head s c r : trimStart s = c :: r -> is_space c = false.
Proof.
  induction s as [|a s IH]; simpl; [discriminate|].
  destruct (is_space a) eqn:Ha; [assumption|].
  intros E. now inversion E; subst.
Qed.

Lemma startsWith_app s r : startsWith (s ++ r) s = true.
Proof.
  induction s as [|a s IH]; simpl; [reflexivity|].
  now rewrite Ascii.eqb_refl.
Qed.

Lemma includes_app a p b : includes (a ++ p ++ b) p = true.
Proof.
  induction a as [|x a IH]; simpl.
  - destruct (p ++ b) eqn:E; simpl.
    + destruct p; [reflexivity|discriminate].
    + rewrite <- E, startsWith_app. reflexivity.
  - rewrite IH. apply orb_true_r.
Qed.

Lemma startsWith_prefix p : forall s,
  startsWith s p = true -> exists b, s = p ++ b.
Proof.
  induction p as [|a p IH]; intros s H; [now exists s|].
  destruct s as [|b s]; [discriminate H|]. cbn [startsWith] in H.
  apply andb_true_iff in H as [Hab Hs]. apply Ascii.eqb_eq in Hab. subst b.
  destruct (IH s Hs) as (r & ->). now exists r.
Qed.

Lemma includes_inv p : forall s,
  includes s p = true -> exists a b, s = a ++ p ++ b.
Proof.
  induction s as [|c s IH]; intros H.
  - cbn [includes] in H. rewrite orb_false_r in H.
    destruct (startsWith_prefix p [] H) as (b & E). now exists [], b.
  - cbn [includes] in H. apply orb_true_iff in H as [H|H].
    + destruct (startsWith_prefix p _ H) as (b & E). now exists [], b.
    + destruct (IH H) as (a & b & ->). now exists (c :: a), b.
Qed.

Lemma last_default {A} (l : list A) d d' : l <> [] -> last l d = last l d'.
Proof.
  induction l as [|x l IH]; [now intros [] | intros _].
  destruct l as [|y l]; [reflexivity|].
  change (last (y :: l) d = last (y :: l) d'). apply IH. discriminate.
Qed.

Lemma split_lines_no_newline line :
  ~ In nl line -> split_lines line = (line, []).
Proof.
  induction line as [|c line IH]; intros H; [reflexivity|].
  cbn [split_lines]. rewrite IH by (intros Hin; apply H; now right).
  destruct (Ascii.eqb c nl) eqn:E; [|reflexivity].
  apply Ascii.eqb_eq in E. destruct H. now left.
Qed.

Lemma split_lines_after_newline before line :
  ~ In nl line ->
  snd (split_lines (before ++ nl :: line)) <> [] /\
  forall d, last (snd (split_lines (before ++ nl :: line))) d = line.
Proof.
  intros H. induction before as [|c before IH].
  - cbn [app split_lines]. rewrite (split_lines_no_newline line H).
    rewrite Ascii.eqb_refl. cbn. split; [discriminate | reflexivity].
  - cbn [app split_lines].
    destruct (split_lines (before ++ nl :: line)) as [l ls].
    cbn [snd] in IH. destruct IH as [Hne Hlast].
    destruct (Ascii.eqb c nl); cbn [snd].
    + split; [discriminate|]. intros d.
      destruct ls as [|x ls]; [now destruct Hne|].
      change (last (x :: ls) d = line). apply Hlast.
    + split; [exact Hne | exact Hlast].
Qed.

(** The last element of [s.split('\n')] is what follows the last newline. *)
Lemma last_line_is line s : is_last_line line s -> last_line s = line.
Proof.
  intros [Hno [-> | (before & ->)]]; unfold last_line.
  - now rewrite split_lines_no_newline.
  - pose proof (split_lines_after_newline before line Hno) as [_ Hlast].
    destruct (split_lines (before ++ nl :: line)) as [l ls]. apply Hlast.
Qed.

Lemma endsWith_nl_iff head :
  endsWith head [nl] = true <-> exists h, head = h ++ [nl].
Proof.
  unfold endsWith. cbn [rev app].
  destruct (rev head) as [|b r] eqn:E.
  - split; [discriminate|]. intros (h & ->).
    rewrite rev_app_distr in E. discriminate E.
  - cbn [startsWith]. rewrite andb_true_r. split.
    + intros H. apply Ascii.eqb_eq in H. subst b. exists (rev r).
      now rewrite <- (rev_involutive head), E.
    + intros (h & ->). rewrite rev_app_distr in E. inversion E.
      apply Ascii.eqb_refl.
Qed.

(** The separator of the splice: none at the start of the buffer or after a
    newline, else one space. *)
Lemma splice_separator head :
  (head = [] \/ (exists h, head = h ++ [nl]) ->
     (if endsWith head [nl] || negb (truthy head) then [] else [space]) = []) /\
  (head <> [] -> (forall h, head <> h ++ [nl]) ->
     (if endsWith head [nl] || negb (truthy head) then [] else [space]) = [space]).
Proof.
  split.
  - intros [-> | H]; [reflexivity|].
    apply endsWith_nl_iff in H. now rewrite H.
  - intros Hne Hnl.
    destruct (endsWith head [nl]) eqn:E.
    + apply endsWith_nl_iff in E as (h & E). now destruct (Hnl h).
    + destruct head; [now destruct Hne | reflexivity].
Qed.

Lemma no_newline_check line :
  forallb (fun c => negb (Ascii.eqb c nl)) line = true -> ~ In nl line.
Proof.
  rewrite forallb_forall. intros H Hin. specialize (H nl Hin).
  now rewrite Ascii.eqb_refl in H.
Qed.

End StringFacts.

(** ** Stream ingest *)

Section Ingest.
Import Speech.

Lemma capitalize_nonempty s : s <> [] -> capitalize s <> [].
Proof. destruct s; [congruence | discriminate]. Qed.

Lemma append_sentence_nonempty newText s :
  trim s <> [] ->
  append_sentence newText s = newText ++ separator newText ++ capitalize (trim s).
Proof.
  intros H. unfold append_sentence.
  destruct (capitalize (trim s)) eqn:E; [|reflexivity].
  now apply capitalize_nonempty in H.
Qed.

Lemma separator_nonempty newText :
  last_line newText <> [] ->
  separator newText = if shouldBreak newText then [nl] else [space].
Proof.
  destruct newText as [|c r]; [now intros [] | intros _].
  unfold separator.
  now destruct (shouldBreak (c :: r)), (ends_in_punctuation (last_line (c :: r))).
Qed.

Lemma length_positive l : 0 < length l -> l <> [].
Proof. intros H ->. unfold length in H. simpl in H. lia. Qed.

End Ingest.

Section IngestScenarios.
Import Speech.

(** C3, as the specification words it, fails: the buffer after the scenario
    is not "Hello world this is a test." followed by a blank line. *)
Lemma hello_world_scenario_not_lowercase :
  text hello_world_scenario <> lit "Hello world this is a test." ++ [nl; nl].
Proof. vm_compute. discriminate. Qed.

(** C3 (amended): starting from an empty buffer, the finals "hello world"
    and "this is a test." followed by the silence commit leave the buffer
    equal to "Hello world This is a test." and a blank line: every unit is
    capitalised, the second one too. *)
Theorem hello_world_scenario_buffer :
  text (startRecording initial) = [] /\
  silence_timer_armed (feed_finals [lit "hello world"; lit "this is a test."]) = true /\
  text hello_world_scenario = lit "Hello world This is a test." ++ [nl; nl].
Proof. vm_compute. repeat split. Qed.

(** The sentence expression on small chunks: two terminated units with the
    white space after them and an unterminated rest; terminators with no
    run before them are passed over; a chunk without any match stands for
    itself. *)
Example sentence_matches_units :
  sentence_matches (lit "hello world. foo bar!  baz") =
  [lit "hello world. "; lit "foo bar!  "; lit "baz"].
Proof. reflexivity. Qed.

Example sentence_matches_leading_terminators :
  sentence_matches (lit "..a") = [lit "a"] /\
  sentence_matches (lit ".") = [lit "."].
Proof. split; reflexivity. Qed.

(** A commit after the silence commit takes the place of the two newlines:
    with a unit of one code unit the length stays at 29. *)
Example commit_after_silence :
  let s := onresult [(true, lit "a")] hello_world_scenario in
  text s = lit "Hello world This is a test. A" /\
  length (text hello_world_scenario) = 29 /\ length (text s) = 29.
Proof. vm_compute. repeat split. Qed.

End IngestScenarios.

(** ** Recogniser restarts *)

Section Restarts.
Import Speech.

Lemma onerror_status code s : status (onerror code s) = status s.
Proof.
  unfold onerror. cbn [status set_error].
  destruct (status_eqb (status s) RECORDING && _); reflexivity.
Qed.

Lemma onerror_error code s : error (onerror code s) <> None.
Proof.
  unfold onerror. cbn [status set_error].
  destruct (status_eqb (status s) RECORDING && _); discriminate.
Qed.

Lemma onerror_recording code s :
  status s = RECORDING ->
  onerror code s =
  let s1 := set_error (error (onerror code s)) s in
  if restartCount s <? 3
  then send_after 500 (set_restartCount (restartCount s + 1) s1)
  else s1.
Proof.
  intros H. unfold onerror. cbn [status set_error restartCount].
  rewrite H. cbn [status_eqb andb].
  destruct (restartCount s <? 3); reflexivity.
Qed.

Lemma consecutive_errors_from codes : forall s,
  status s = RECORDING -> 0 <= restartCount s <= 3 ->
  let n := Nat.min (Z.to_nat (3 - restartCount s)) (List.length codes) in
  let s' := consecutive_errors codes s in
  status s' = RECORDING /\
  restartCount s' = restartCount s + Z.of_nat n /\
  commands s' = commands s ++ repeat (CmdStartAfter 500) n.
Proof.
  induction codes as [|code codes IH]; intros s Hrec Hcount.
  - cbn [List.length consecutive_errors fold_left]. rewrite Nat.min_0_r.
    cbn [repeat Z.of_nat]. rewrite app_nil_r, Z.add_0_r. auto.
  - cbn [consecutive_errors fold_left List.length].
    fold (consecutive_errors codes (onerror code s)).
    assert (Hst := onerror_status code s).
    rewrite (onerror_recording code s Hrec) in *. cbn zeta in *.
    destruct (restartCount s <? 3) eqn:Hlt.
    + apply Z.ltb_lt in Hlt.
      match goal with |- context [consecutive_errors codes ?t] => set (s1 := t) in * end.
      destruct (IH s1) as (H1 & H2 & H3).
      { now rewrite Hst. } { cbn. lia. }
      cbn [restartCount send send_after set_pendingRestarts set_restartCount s1] in H2.
      cbn [commands send send_after set_pendingRestarts set_restartCount set_error s1] in H3.
      replace (Z.to_nat (3 - restartCount s))
        with (S (Z.to_nat (3 - (restartCount s + 1)))) by lia.
      cbn [Nat.min repeat]. rewrite H2, H3, <- app_assoc. cbn [app].
      repeat split; [assumption | lia].
    + apply Z.ltb_ge in Hlt.
      match goal with |- context [consecutive_errors codes ?t] => set (s1 := t) in * end.
      destruct (IH s1) as (H1 & H2 & H3).
      { now rewrite Hst. } { cbn. lia. }
      cbn [restartCount commands set_error s1] in H2, H3.
      replace (Z.to_nat (3 - restartCount s)) with 0%nat in * by lia.
      cbn [Nat.min] in *. repeat split; assumption.
Qed.

(** C10, as the specification words it, fails: while recording, the error
    [not-allowed] (permission denied by the user) schedules a restart of the
    recogniser like any other error. *)
Lemma permission_denied_restarts :
  let s := startRecording initial in
  status s = RECORDING /\
  commands (onerror "not-allowed" s) = commands s ++ [CmdStartAfter 500].
Proof. vm_compute. split; reflexivity. Qed.

(** C10 (amended): while recording, every recognition error, whatever its
    category, sets the error message, and the error handler schedules a
    restart of the recogniser 500 ms later for the first three errors in a
    row and for none after them; a recognition result or a new start puts
    the count of consecutive errors back to zero. *)
Theorem restart_at_most_three (codes : list string) (s : state) :
  status s = RECORDING ->
  restartCount s = 0 ->
  let s' := consecutive_errors codes s in
  commands s' =
    commands s ++ repeat (CmdStartAfter 500) (Nat.min 3 (List.length codes)) /\
  (codes <> [] -> error s' <> None) /\
  (forall code, commands (onerror code s') =
     commands s' ++ (if (List.length codes <? 3)%nat then [CmdStartAfter 500] else [])) /\
  (forall results, restartCount (onresult results s') = 0) /\
  restartCount (startRecording s') = 0.
Proof.
  intros Hrec Hzero s'.
  destruct (consecutive_errors_from codes s Hrec) as (H1 & H2 & H3); [lia|].
  fold s' in H1, H2, H3. rewrite Hzero in H2, H3.
  change (Z.to_nat (3 - 0)) with 3%nat in H2, H3. rewrite Z.add_0_l in H2.
  split; [exact H3|]. split; [|split; [|split]].
  - intros Hne. destruct (exists_last Hne) as (cs & c & ->).
    unfold s', consecutive_errors. rewrite fold_left_app. cbn.
    apply onerror_error.
  - intros code. rewrite (onerror_recording code s' H1). cbn zeta.
    rewrite H2. destruct (List.length codes <? 3)%nat eqn:E.
    + apply Nat.ltb_lt in E.
      replace (Z.of_nat (Nat.min 3 (List.length codes)) <? 3) with true
        by (symmetry; apply Z.ltb_lt; lia).
      reflexivity.
    + apply Nat.ltb_ge in E.
      replace (Z.of_nat (Nat.min 3 (List.length codes)) <? 3) with false
        by (symmetry; apply Z.ltb_ge; lia).
      cbn. now rewrite app_nil_r.
  - intros results. unfold onresult.
    destruct (truthy (finalChunk_of results)); reflexivity.
  - reflexivity.
Qed.

(** Witness of [restart_at_most_three]: five errors in a row, the user's
    refusal among them, after a start. *)
Lemma restart_at_most_three_witness :
  commands (consecutive_errors
              ["network"; "not-allowed"; "aborted"; "no-speech"; "network"]%string
              (startRecording initial)) =
  [CmdStart; CmdStartAfter 500; CmdStartAfter 500; CmdStartAfter 500].
Proof.
  exact (proj1 (restart_at_most_three
                  ["network"; "not-allowed"; "aborted"; "no-speech"; "network"]%string
                  (startRecording initial) eq_refl eq_refl)).
Defined.

End Restarts.

(** ** The retry wrapper *)

Section Retry.
Import App.

Lemma retry_from fn : forall retries k delay,
  let r := retryWithBackoff fn k retries delay in
  exists n,
    (n <= retries)%nat /\
    calls r = S n /\
    delays r = map (fun i => delay * 2 ^ Z.of_nat i) (seq 0 n) /\
    outcome r = fn (k + n)%nat /\
    (forall j, (j < n)%nat -> quota_rejected (fn (k + j)%nat) = true) /\
    ((n < retries)%nat -> quota_rejected (fn (k + n)%nat) = false).
Proof.
  assert (Stop : forall k retries delay r,
    r = {| outcome := fn k; delays := []; calls := 1 |} ->
    (retries <> 0%nat -> quota_rejected (fn k) = false) ->
    exists n, (n <= retries)%nat /\ calls r = S n /\
      delays r = map (fun i => delay * 2 ^ Z.of_nat i) (seq 0 n) /\
      outcome r = fn (k + n)%nat /\
      (forall j, (j < n)%nat -> quota_rejected (fn (k + j)%nat) = true) /\
      ((n < retries)%nat -> quota_rejected (fn (k + n)%nat) = false)).
  { intros k retries delay r -> Hq. exists 0%nat. rewrite Nat.add_0_r. cbn.
    repeat split; try lia. intros H. apply Hq. lia. }
  induction retries as [|retries IH]; intros k delay; cbn zeta.
  - apply Stop; [|congruence]. cbn. destruct (fn k) as [t|e]; [reflexivity|].
    now destruct (isQuota e).
  - cbn [retryWithBackoff]. destruct (fn k) as [t|e] eqn:Ek.
    + apply Stop; now rewrite Ek.
    + destruct (isQuota e) eqn:Eq.
      * destruct (IH (S k) (delay * 2)) as (n & Hn & Hc & Hd & Ho & Hq & Hs).
        exists (S n). cbn [outcome delays calls]. rewrite Hc, Hd, Ho.
        replace (k + S n)%nat with (S k + n)%nat by lia.
        repeat split; try lia.
        -- cbn [seq map]. f_equal; [cbn; lia|].
           rewrite <- seq_shift, map_map. apply map_ext. intros i.
           rewrite Nat2Z.inj_succ, Z.pow_succ_r by lia. lia.
        -- intros [|j] Hj.
           ++ rewrite Nat.add_0_r, Ek. exact Eq.
           ++ replace (k + S j)%nat with (S k + j)%nat by lia. apply Hq. lia.
        -- intros H. apply Hs. lia.
      * apply Stop; rewrite Ek; [reflexivity | intros _; exact Eq].
Qed.

Lemma quota_rejected_rate_limited o :
  quota_rejected o = true <-> rate_limited o.
Proof.
  split.
  - destruct o as [t|e]; [discriminate|]. cbn [quota_rejected]. unfold isQuota.
    intros H. exists e. split; [reflexivity|].
    apply orb_true_iff in H as [H|H].
    + left. destruct (err_status e) as [n|]; [|discriminate].
      apply Z.eqb_eq in H. now subst n.
    + right. destruct (err_message e) as [m|]; [|discriminate].
      destruct (includes_inv _ _ H) as (a & b & E). now exists m, a, b.
  - intros (e & -> & [H | (m & a & b & Hm & E)]); cbn [quota_rejected];
      unfold isQuota.
    + now rewrite H.
    + rewrite Hm, E, includes_app. apply orb_true_r.
Qed.

Lemma quota_rejected_not_rate_limited o :
  quota_rejected o = false <-> ~ rate_limited o.
Proof.
  rewrite <- quota_rejected_rate_limited.
  destruct (quota_rejected o); split; congruence.
Qed.

(** C9: the retry wrapper of the refinement stage.  Whatever the remote call
    does, the wrapper calls it again only after a rejection of the rate-limit
    class (status 429, or a message that contains "429"), at most 3 times
    after the first call, sleeping 1000, 2000 and 4000 ms before the first,
    second and third retry; it settles as the last call did.  A rejection of
    another kind is passed on at once: one call, no sleep.  The refinement
    stage sees only that final outcome. *)
Theorem retry_policy (fn : nat -> api_outcome) :
  let r := retryWithBackoff fn 0 DEFAULT_RETRIES DEFAULT_DELAY in
  (exists n,
     (n <= 3)%nat /\
     calls r = S n /\
     delays r = firstn n [1000; 2000; 4000] /\
     outcome r = fn n /\
     (forall j, (j < n)%nat -> rate_limited (fn j)) /\
     ((n < 3)%nat -> ~ rate_limited (fn n)) /\
     (forall s, refine_return fn s = refine_settle (fn n) s)) /\
  (forall e, fn 0%nat = Rejected e -> ~ rate_limited (Rejected e) ->
     outcome r = Rejected e /\ delays r = [] /\ calls r = 1%nat).
Proof.
  intros r.
  destruct (retry_from fn DEFAULT_RETRIES 0 DEFAULT_DELAY)
    as (n & Hn & Hc & Hd & Ho & Hq & Hs).
  fold r in Hc, Hd, Ho. cbn [Nat.add] in Ho, Hq, Hs.
  unfold DEFAULT_RETRIES in Hn, Hs.
  split.
  - exists n. repeat split; try assumption.
    + rewrite Hd. unfold DEFAULT_DELAY.
      destruct n as [|[|[|[|n]]]]; try reflexivity; lia.
    + intros j Hj. apply quota_rejected_rate_limited. now apply Hq.
    + intros Hlt. apply quota_rejected_not_rate_limited. now apply Hs.
    + intros s. unfold refine_return. fold r. now rewrite Ho.
  - intros e E0 Eq.
    assert (n = 0%nat) as ->.
    { destruct n as [|n]; [reflexivity|].
      specialize (Hq 0%nat ltac:(lia)). rewrite E0 in Hq.
      apply quota_rejected_rate_limited in Hq. contradiction. }
    rewrite Ho, Hd, Hc, E0. repeat split.
Qed.

(** Witness of [retry_policy]: a call rejected with status 429, then with a
    message that holds "429", then answered; and a call rejected once with
    status 500. *)
Lemma retry_policy_witness :
  let r := retryWithBackoff limited_twice 0 DEFAULT_RETRIES DEFAULT_DELAY in
  let r' := retryWithBackoff server_error 0 DEFAULT_RETRIES DEFAULT_DELAY in
  (calls r = 3%nat /\ delays r = [1000; 2000] /\
   outcome r = Resolved (Some corrected_unit)) /\
  (calls r' = 1%nat /\ delays r' = [] /\ outcome r' = server_error 0%nat).
Proof.
  intros r r'. split.
  - destruct (proj1 (retry_policy limited_twice))
      as (n & Hn & Hc & Hd & Ho & Hq & Hs & _).
    fold r in Hc, Hd, Ho.
    assert (Hres : ~ rate_limited (limited_twice 2%nat))
      by (intros (e & E & _); discriminate E).
    assert (H0 : rate_limited (limited_twice 0%nat))
      by (eexists; split; [reflexivity | now left]).
    assert (H1 : rate_limited (limited_twice 1%nat)).
    { eexists. split; [reflexivity | right].
      exists (lit "HTTP 429 Too Many Requests"), (lit "HTTP "),
             (lit " Too Many Requests"). now split. }
    destruct n as [|[|[|n]]].
    + now destruct (Hs ltac:(lia)).
    + now destruct (Hs ltac:(lia)).
    + rewrite Hc, Hd, Ho. repeat split.
    + destruct Hres. apply Hq. lia.
  - destruct (proj2 (retry_policy server_error)
                {| err_status := Some 500; err_message := Some (lit "Internal error") |}
                eq_refl) as (Ho & Hd & Hc).
    + intros (e & E & Hcase). inversion E; subst e.
      cbn [err_status err_message] in Hcase.
      destruct Hcase as [H | (m & a & b & Hm & Em)]; [discriminate H|].
      assert (Hlit : lit "Internal error" = a ++ lit "429" ++ b) by congruence.
      pose proof (includes_app a (lit "429") b) as Hinc.
      rewrite <- Hlit in Hinc. discriminate Hinc.
    + fold r' in Ho, Hd, Hc. now rewrite Ho, Hd, Hc.
Defined.

End Retry.

(** ** Translation stage *)

Section Translation.
Import App.

Lemma truthy_nonempty s : truthy s = true <-> s <> [].
Proof. destruct s; cbn; split; congruence. Qed.

Lemma trim_truthy t : trim t <> [] -> truthy t = true.
Proof. destruct t; [intros H; now destruct H | reflexivity]. Qed.

Lemma length_gtb_0 s : (length s >? 0) = truthy s.
Proof.
  destruct s; [reflexivity|]. unfold length. cbn [List.length truthy].
  apply Z.gtb_lt. lia.
Qed.

Lemma length_eqb_0 s : (length s =? 0) = negb (truthy s).
Proof.
  destruct s; [reflexivity|]. unfold length. cbn [List.length truthy negb].
  apply Z.eqb_neq. lia.
Qed.

Lemma endsWith_trimEnd_nl s : endsWith (trimEnd s) [nl] = false.
Proof.
  destruct (trimEnd s) as [|a r] eqn:E; [reflexivity|].
  assert (Hne : a :: r <> []) by discriminate.
  destruct (exists_last Hne) as (y & c & Ey). rewrite Ey.
  assert (Hc : is_space c = false).
  { apply trimEnd_fixed_last with y. rewrite <- Ey, <- E. apply trimEnd_idem. }
  unfold endsWith. rewrite rev_app_distr. cbn [rev app startsWith].
  destruct (Ascii.eqb nl c) eqn:Enl; [|reflexivity].
  apply Ascii.eqb_eq in Enl. subst c. discriminate.
Qed.

Lemma append_translation_eq b val prev :
  append_translation b val prev =
  trimEnd prev ++
  (if truthy (trimEnd prev) then if b then BATCH_SEPARATOR else [nl] else []) ++
  val.
Proof.
  unfold append_translation.
  rewrite length_gtb_0, endsWith_trimEnd_nl, andb_true_r.
  now destruct b.
Qed.

Lemma append_translation_fixed b val prev :
  val <> [] -> trimEnd val = val ->
  trimEnd (append_translation b val prev) = append_translation b val prev.
Proof.
  intros Hne Hval. rewrite append_translation_eq, app_assoc.
  now apply trimEnd_app_fixed.
Qed.

Lemma trim_fixed t : trimEnd (trim t) = trim t.
Proof. apply trimEnd_idem. Qed.

Lemma performTranslation_return_success req t s :
  trim t <> [] ->
  performTranslation_return req (Resolved (Some t)) s =
  set_translating false
    (setAiError None
       (set_processedRef (endIdx req)
          (setTranslatedText
             (append_translation (isBatchRequest req) (trim t) (translatedText s)) s))).
Proof.
  intros H. unfold performTranslation_return.
  rewrite (trim_truthy _ H). apply truthy_nonempty in H. now rewrite H.
Qed.

(** C6: the translated watermark moves only on output.  When the awaited
    call settles, [processedRef] changes only if the response text is
    non-empty after trimming, and then to the end of the consumed slice; an
    empty response leaves both the watermark and the translated buffer as
    they were.  A slice that is empty or white space only makes the handler
    return before the remote call, with the state untouched. *)
Theorem watermark_moves_only_on_output :
  (forall req res s,
     let s' := performTranslation_return req res s in
     (processedRef s' <> processedRef s ->
        exists t, res = Resolved (Some t) /\ trim t <> [] /\
                  processedRef s' = endIdx req) /\
     (forall t, res = Resolved (Some t) -> trim t <> [] ->
        processedRef s' = endIdx req /\
        translatedText s' =
          append_translation (isBatchRequest req) (trim t) (translatedText s)) /\
     (res = Resolved (Some []) ->
        processedRef s' = processedRef s /\
        translatedText s' = translatedText s)) /\
  (forall (isBatch : bool) (now : Z) (s : state),
     let stop := if isBatch then length (text s) else refinedRef s in
     (trim (slice (text s) (processedRef s) stop) = [] ->
        snd (performTranslation_call isBatch now s) = s /\
        (forall req, fst (performTranslation_call isBatch now s) <> Called req) /\
        forall res, performTranslation isBatch now res s = s) /\
     (forall req,
        fst (performTranslation_call isBatch now s) = Called req ->
        chunk req = slice (text s) (processedRef s) (endIdx req) /\
        endIdx req = stop /\ isBatchRequest req = isBatch)).
Proof.
  split.
  - intros req res s s'. split; [|split].
    + intros Hmove. destruct res as [[t|]|e]; try (now destruct Hmove).
      destruct (truthy (trim t)) eqn:Ht.
      * apply truthy_nonempty in Ht. exists t. repeat split; [assumption|].
        unfold s'. now rewrite performTranslation_return_success.
      * destruct Hmove. unfold s', performTranslation_return.
        rewrite Ht. now destruct (truthy t).
    + intros t -> Ht. unfold s'.
      now rewrite performTranslation_return_success.
    + intros ->. now unfold s'.
  - intros isBatch now s stop. split.
    + intros Hblank.
      assert (Hcall : performTranslation_call isBatch now s = (Skipped, s) \/
                      exists ms, performTranslation_call isBatch now s = (Rescheduled ms, s)).
      { unfold performTranslation_call, performTranslation_of.
        destruct (negb (API_KEY s) || translatingRef s && negb isBatch); [now left|].
        destruct (negb isBatch && _); [right; eauto|].
        fold stop. rewrite Hblank. now left. }
      unfold performTranslation.
      destruct Hcall as [E|(ms & E)]; rewrite E; cbn; repeat split; discriminate.
    + intros req. unfold performTranslation_call, performTranslation_of.
      destruct (negb (API_KEY s) || translatingRef s && negb isBatch); [discriminate|].
      destruct (negb isBatch && _); [discriminate|].
      fold stop. destruct (length (trim _) =? 0); [discriminate|].
      cbn [fst]. intros E. inversion E. cbn. auto.
Qed.

(** C7, as the specification words it, fails: with an empty translated
    buffer the batch translation of "Hello. World." moves the watermark to
    13 and the translated buffer is the response alone, without the marker. *)
Lemma batch_marker_absent_on_empty_buffer :
  let s := hello_world_session in
  let s' := performTranslation true 1000 (Resolved (Some (lit "Xin chao. The gioi."))) s in
  text s = lit "Hello. World." /\ processedRef s = 0 /\
  processedRef s' = 13 /\
  translatedText s' = lit "Xin chao. The gioi." /\
  includes (translatedText s') BATCH_MARKER = false.
Proof. vm_compute. repeat split. Qed.

(** C7 (amended): with the source buffer "Hello. World." and the translated
    watermark at 0, a batch translation whose response is non-empty after
    trimming moves the watermark to 13.  The translated buffer contains the
    batch separator, between the old content and the output, exactly when the
    old content is non-empty once its trailing white space is removed;
    otherwise the buffer is the output alone. *)
Theorem batch_hello_world (s : state) (now : Z) (t : str) :
  API_KEY s = true ->
  text s = lit "Hello. World." ->
  processedRef s = 0 ->
  trim t <> [] ->
  let s' := performTranslation true now (Resolved (Some t)) s in
  processedRef s' = 13 /\
  (trimEnd (translatedText s) <> [] ->
     translatedText s' = trimEnd (translatedText s) ++ BATCH_SEPARATOR ++ trim t /\
     includes (translatedText s') BATCH_MARKER = true) /\
  (trimEnd (translatedText s) = [] -> translatedText s' = trim t).
Proof.
  intros Hkey Htext Hp Ht s'.
  assert (E : s' = performTranslation_return
                     {| isBatchRequest := true; chunk := lit "Hello. World."; endIdx := 13 |}
                     (Resolved (Some t))
                     (set_lastRequestTimeRef now (set_translating true s))).
  { unfold s', performTranslation, performTranslation_call, performTranslation_of.
    rewrite Hkey, Htext, Hp. cbn [negb orb andb].
    rewrite andb_false_r. cbn [orb]. reflexivity. }
  rewrite E, performTranslation_return_success by assumption.
  cbn [processedRef translatedText set_translating setAiError set_processedRef
       setTranslatedText set_lastRequestTimeRef isBatchRequest endIdx].
  rewrite append_translation_eq. split; [reflexivity|]. split.
  - intros Hne. apply truthy_nonempty in Hne. rewrite Hne. split; [reflexivity|].
    change BATCH_SEPARATOR with ([nl; nl] ++ BATCH_MARKER ++ [nl]).
    rewrite <- !app_assoc, (app_assoc (trimEnd _) [nl; nl]).
    apply includes_app.
  - intros ->. reflexivity.
Qed.

(** Witness of [batch_hello_world]: a translated buffer that already holds a
    line. *)
Lemma batch_hello_world_witness :
  let s := setTranslatedText (lit "Xin chao.") hello_world_session in
  let s' := performTranslation true 1000 (Resolved (Some (lit " The gioi. "))) s in
  processedRef s' = 13 /\
  translatedText s' = lit "Xin chao." ++ BATCH_SEPARATOR ++ lit "The gioi.".
Proof.
  intros s s'.
  destruct (batch_hello_world s 1000 (lit " The gioi. ")) as (H1 & H2 & _);
    try reflexivity; [vm_compute; discriminate|].
  split; [exact H1|]. apply H2. vm_compute. discriminate.
Defined.

End Translation.

Section TranslatedBuffer.
Import App.

Lemma translatedText_return req res s :
  translatedText (performTranslation_return req res s) = translatedText s \/
  exists val, val <> [] /\ trimEnd val = val /\
    translatedText (performTranslation_return req res s) =
    append_translation (isBatchRequest req) val (translatedText s).
Proof.
  destruct res as [[t|]|e]; try (now left).
  destruct (truthy (trim t)) eqn:Ht.
  - apply truthy_nonempty in Ht. right. exists (trim t).
    rewrite performTranslation_return_success by assumption.
    repeat split; [assumption | apply trim_fixed].
  - left. unfold performTranslation_return. rewrite Ht. now destruct (truthy t).
Qed.

Lemma translatedText_call isBatch now s :
  translatedText (snd (performTranslation_call isBatch now s)) = translatedText s.
Proof.
  unfold performTranslation_call, performTranslation_of.
  destruct (negb (API_KEY s) || translatingRef s && negb isBatch); [reflexivity|].
  destruct (negb isBatch && _); [reflexivity|].
  now destruct (length (trim _) =? 0).
Qed.

Lemma translatedText_refine_settle res s :
  translatedText (refine_settle res s) = translatedText s.
Proof.
  destruct res as [[t|]|e]; try reflexivity.
  unfold refine_settle. now destruct (truthy t).
Qed.

Lemma translatedText_apply e s :
  translatedText (apply e s) = translatedText s \/
  exists b val, val <> [] /\ trimEnd val = val /\
    translatedText (apply e s) = append_translation b val (translatedText s).
Proof.
  destruct e as [ | | | results | code | | | | | | fn | b now | k res | ];
    cbn [apply]; try (now left).
  - left. unfold velocity_tick. now destruct (Speech.status_eqb _ _).
  - left. unfold refine_call.
    destruct (negb (API_KEY s) || refiningInProgressRef s); [reflexivity|].
    now destruct (length _ <? _).
  - left. destruct (refiningInProgressRef s); [|reflexivity].
    apply translatedText_refine_settle.
  - left. pose proof (translatedText_call b now s) as Hc.
    destruct (performTranslation_call b now s) as [[| ms | req] s1];
      cbn [snd] in Hc; exact Hc.
  - destruct (nth_error (outstanding s) k) as [req|]; [|now left].
    destruct (translatedText_return req res (settled k s))
      as [E | (val & H1 & H2 & E)].
    + left. exact E.
    + right. exists (isBatchRequest req), val. now rewrite E.
Qed.

Lemma translatedText_run_fixed es : forall s,
  trimEnd (translatedText s) = translatedText s ->
  trimEnd (translatedText (run es s)) = translatedText (run es s).
Proof.
  induction es as [|e es IH]; intros s H; [exact H|].
  cbn [run fold_left]. apply IH.
  destruct (translatedText_apply e s) as [E | (b & val & H1 & H2 & E)]; rewrite E.
  - exact H.
  - now apply append_translation_fixed.
Qed.

(** C5, as the specification words it, fails: a translated buffer that ends
    in a space (after an edit by hand) is not a prefix of the buffer that the
    next incremental commit leaves; the space is gone. *)
Lemma commit_drops_trailing_space :
  let s := edited_translation in
  let s' := performTranslation false 1000 (Resolved (Some (lit "Con cao nau."))) s in
  translatedText s = lit "Ghi chu: " /\
  translatedText s' = lit "Ghi chu:" ++ [nl] ++ lit "Con cao nau." /\
  startsWith (translatedText s') (translatedText s) = false /\
  ~ prefix_of (translatedText s) (translatedText s').
Proof.
  cbv zeta. split; [reflexivity|]. split; [reflexivity|]. split; [reflexivity|].
  intros (r & E). vm_compute in E. discriminate E.
Qed.

(** C5 (amended): on every successful translation commit, incremental or
    batch, the old translated buffer without its trailing white space is a
    prefix of the new one, which is that prefix, a separator and the output;
    an old buffer with no trailing white space is therefore left whole.
    Every translated buffer that the pipeline has built from the empty one
    is of that kind. *)
Theorem translation_commit_prefix :
  (forall req t s,
     trim t <> [] ->
     let s' := performTranslation_return req (Resolved (Some t)) s in
     (exists sep, translatedText s' = trimEnd (translatedText s) ++ sep ++ trim t) /\
     prefix_of (trimEnd (translatedText s)) (translatedText s') /\
     (trimEnd (translatedText s) = translatedText s ->
        prefix_of (translatedText s) (translatedText s'))) /\
  (forall es key,
     trimEnd (translatedText (run es (initial key))) =
     translatedText (run es (initial key))).
Proof.
  split.
  - intros req t s Ht s'.
    assert (E : exists sep,
               translatedText s' = trimEnd (translatedText s) ++ sep ++ trim t).
    { unfold s'. rewrite performTranslation_return_success by assumption.
      cbn [translatedText set_translating setAiError set_processedRef setTranslatedText].
      rewrite append_translation_eq. eauto. }
    split; [exact E|]. destruct E as (sep & E).
    split; [now exists (sep ++ trim t)|].
    intros <-. now exists (sep ++ trim t).
  - intros es key. now apply translatedText_run_fixed.
Qed.

End TranslatedBuffer.

(** ** The shape of a committed buffer *)

Section CommitShape.
Import Speech.

Lemma toUpperCase_not_space c : is_space c = false -> is_space (toUpperCase c) = false.
Proof.
  destruct c as [[] [] [] [] [] [] [] []]; intros H; try discriminate H; reflexivity.
Qed.

Lemma is_terminator_not_space c : is_terminator c = true -> is_space c = false.
Proof.
  unfold is_terminator. intros H.
  apply orb_true_iff in H as [H|H]; [apply orb_true_iff in H as [H|H]|];
    apply Ascii.eqb_eq in H; subst c; reflexivity.
Qed.

Lemma nonblank_app_l a b : nonblank a -> nonblank (a ++ b).
Proof. intros (c & Hin & Hc). exists c. split; [apply in_or_app; now left | assumption]. Qed.

Lemma nonblank_snoc a c : is_space c = false -> nonblank (a ++ [c]).
Proof. intros Hc. exists c. split; [apply in_or_app; right; now left | assumption]. Qed.

Lemma ends_solid_nonblank l : ends_solid l -> nonblank l.
Proof. intros (y & c & -> & Hc). now apply nonblank_snoc. Qed.

Lemma ends_solid_app a b : ends_solid (a ++ b) -> b <> [] -> ends_solid b.
Proof.
  intros (y & c & E & Hc) Hb. destruct (exists_last Hb) as (b' & d & ->).
  rewrite app_assoc in E. apply app_inj_tail in E as [_ ->]. now exists b', c.
Qed.

Lemma ends_solid_app_r a b : ends_solid b -> ends_solid (a ++ b).
Proof. intros (y & c & -> & Hc). exists (a ++ y), c. now rewrite app_assoc. Qed.

Lemma ends_solid_fixed l : ends_solid l <-> l <> [] /\ trimEnd l = l.
Proof.
  split.
  - intros (y & c & -> & Hc). split; [now destruct y | now apply trimEnd_snoc].
  - intros [Hne Hfix]. destruct (exists_last Hne) as (y & c & ->).
    exists y, c. split; [reflexivity | now apply trimEnd_fixed_last with y].
Qed.

Lemma blank_not_nonblank m : blank m -> ~ nonblank m.
Proof.
  unfold blank. intros Hb (c & Hin & Hc).
  rewrite forallb_forall in Hb. specialize (Hb c Hin). congruence.
Qed.

Lemma blank_app a b : blank a -> blank b -> blank (a ++ b).
Proof. unfold blank. intros Ha Hb. now rewrite forallb_app, Ha, Hb. Qed.

Lemma nonblank_trim m : nonblank m -> trim m <> [].
Proof.
  intros Hm E. apply (blank_not_nonblank m); [|assumption].
  destruct (trimStart_decomp m) as (w & Em & Hw).
  rewrite Em. apply blank_app; [assumption|]. now apply trimEnd_nil_blank.
Qed.

Lemma trim_head t c r : trim t = c :: r -> is_space c = false.
Proof.
  unfold trim. intros E.
  destruct (trimEnd_decomp (trimStart t)) as (w & Et & _).
  rewrite E in Et. now apply trimStart_head with t (r ++ w).
Qed.

Lemma trim_ends_solid t : trim t <> [] -> ends_solid (trim t).
Proof. intros H. apply ends_solid_fixed. split; [assumption | apply trimEnd_idem]. Qed.

(** A capitalised, trimmed unit has no white space at either end. *)
Lemma sentence_shape m :
  nonblank m ->
  exists d rest, capitalize (trim m) = d :: rest /\ is_space d = false /\
                 ends_solid (d :: rest).
Proof.
  intros Hm. apply nonblank_trim in Hm.
  destruct (trim m) as [|c r] eqn:E; [now destruct Hm|].
  pose proof (trim_head _ _ _ E) as Hc.
  exists (toUpperCase c), r. cbn [capitalize].
  split; [reflexivity|]. split; [now apply toUpperCase_not_space|].
  assert (Hs : ends_solid (c :: r)) by (rewrite <- E; apply trim_ends_solid; congruence).
  destruct r as [|b r'].
  - exists [], (toUpperCase c). split; [reflexivity | now apply toUpperCase_not_space].
  - change (ends_solid ([toUpperCase c] ++ b :: r')).
    apply ends_solid_app_r. apply (ends_solid_app [c]); [exact Hs | discriminate].
Qed.

(** Every match of the sentence expression in a chunk that ends in a code
    unit other than white space holds such a code unit itself. *)
Lemma sentence_scan_nonblank s : forall st,
  match st with
  | Seek => s = [] \/ ends_solid s
  | Run acc => ends_solid (acc ++ s)
  | Trail acc => nonblank acc /\ (s = [] \/ ends_solid s)
  end ->
  Forall nonblank (sentence_scan st s).
Proof.
  assert (Tail : forall a c (s' : str), ends_solid (a ++ c :: s') -> s' = [] \/ ends_solid s').
  { intros a c s' H. destruct s' as [|b s'']; [now left | right].
    apply (ends_solid_app (a ++ [c])); [now rewrite <- app_assoc | discriminate]. }
  induction s as [|c s' IH]; intros st Hst.
  - destruct st as [|acc|acc]; cbn.
    + constructor.
    + rewrite app_nil_r in Hst. constructor; [now apply ends_solid_nonblank | constructor].
    + constructor; [apply Hst | constructor].
  - destruct st as [|acc|acc]; cbn [sentence_scan].
    + destruct Hst as [Hst|Hst]; [discriminate|].
      destruct (is_terminator c).
      * apply IH. now apply (Tail [] c).
      * apply IH. exact Hst.
    + destruct (is_terminator c) eqn:Ht.
      * apply IH. split; [|now apply (Tail acc c)].
        apply nonblank_snoc. now apply is_terminator_not_space.
      * apply IH. now rewrite <- app_assoc.
    + destruct Hst as [Hacc [Hst|Hst]]; [discriminate|].
      destruct (is_space c).
      * apply IH. split; [now apply nonblank_app_l | now apply (Tail [] c)].
      * destruct (is_terminator c); constructor; try assumption; apply IH.
        -- now apply (Tail [] c).
        -- exact Hst.
Qed.

Lemma sentence_matches_nonblank chunk :
  ends_solid chunk ->
  sentence_matches chunk <> [] /\ Forall nonblank (sentence_matches chunk).
Proof.
  intros H. unfold sentence_matches.
  pose proof (sentence_scan_nonblank chunk Seek (or_intror H)) as Hall.
  destruct (sentence_scan Seek chunk) as [|m ms].
  - split; [discriminate|]. constructor; [now apply ends_solid_nonblank | constructor].
  - split; [discriminate | exact Hall].
Qed.

End CommitShape.

Section CommitGrowth.
Import Speech.

Lemma separator_cases acc :
  acc <> [] -> exists c, separator acc = [c] /\ is_space c = true.
Proof.
  destruct acc as [|a r]; [now intros [] | intros _].
  unfold separator.
  destruct (shouldBreak (a :: r)); [now exists nl|].
  destruct (ends_in_punctuation (last_line (a :: r))); now exists space.
Qed.

Lemma append_sentence_first x m :
  trimEnd x = x -> nonblank m -> grows_from x (append_sentence x m).
Proof.
  intros Hx Hm. destruct (sentence_shape m Hm) as (d & rest & E & Hd & Hs).
  unfold append_sentence. rewrite E.
  apply ends_solid_fixed in Hs as [Hne Hfix].
  split; [rewrite app_assoc; now apply trimEnd_app_fixed|].
  destruct x as [|a x']; [cbn; eauto|].
  destruct (separator_cases (a :: x')) as (c & -> & Hc); [discriminate|].
  exists c, d, rest. auto.
Qed.

Lemma append_sentence_next x acc m :
  grows_from x acc -> nonblank m -> grows_from x (append_sentence acc m).
Proof.
  intros [Hfix Hshape] Hm.
  destruct (sentence_shape m Hm) as (d & rest & E & Hd & Hs).
  unfold append_sentence. rewrite E.
  apply ends_solid_fixed in Hs as [Hne Hf].
  split; [rewrite app_assoc; now apply trimEnd_app_fixed|].
  destruct x as [|a x'].
  - destruct Hshape as (d0 & rest0 & -> & Hd0).
    exists d0, (rest0 ++ separator (d0 :: rest0) ++ d :: rest). auto.
  - destruct Hshape as (c0 & d0 & rest0 & -> & Hc0 & Hd0).
    exists c0, d0, (rest0 ++ separator ((a :: x') ++ c0 :: d0 :: rest0) ++ d :: rest).
    split; [|auto]. now rewrite <- app_assoc.
Qed.

Lemma fold_append_sentence_grows ms : forall x acc,
  Forall nonblank ms -> grows_from x acc ->
  grows_from x (fold_left append_sentence ms acc).
Proof.
  induction ms as [|m ms IH]; intros x acc Hall Hacc; [exact Hacc|].
  inversion Hall; subst. cbn [fold_left]. apply IH; [assumption|].
  now apply append_sentence_next.
Qed.

(** A final chunk that is not blank makes the buffer grow from its trimmed
    form by at least a separator and a unit. *)
Lemma commit_grows finalChunk prev :
  trim finalChunk <> [] -> grows_from (trimEnd prev) (commit finalChunk prev).
Proof.
  intros Hne. unfold commit.
  pose proof (trim_ends_solid _ Hne) as Hs.
  destruct (trim finalChunk) as [|a l] eqn:E; [now destruct Hne|].
  destruct (sentence_matches_nonblank _ Hs) as [Hms Hall].
  destruct (sentence_matches (a :: l)) as [|m ms]; [now destruct Hms|].
  inversion Hall; subst. cbn [fold_left].
  apply fold_append_sentence_grows; [assumption|].
  apply append_sentence_first; [apply trimEnd_idem | assumption].
Qed.

Lemma commit_blank finalChunk prev :
  trim finalChunk = [] -> commit finalChunk prev = prev.
Proof. intros E. unfold commit. now rewrite E. Qed.

Lemma endsWith_solid_nl x b : ends_solid x -> endsWith x (b ++ [nl]) = false.
Proof.
  intros (y & c & -> & Hc). unfold endsWith.
  rewrite !rev_app_distr. cbn [rev app startsWith].
  destruct (Ascii.eqb nl c) eqn:E; [|reflexivity].
  apply Ascii.eqb_eq in E. subst c. discriminate.
Qed.

(** The silence commit leaves a blank buffer alone and ends any other one,
    trimmed, in a blank line, after a full stop where punctuation lacks. *)
Lemma silence_commit_cases prev :
  (trimEnd prev = [] /\ silence_commit prev = prev) \/
  (trimEnd prev <> [] /\
   (silence_commit prev = trimEnd prev ++ [nl; nl] \/
    silence_commit prev = trimEnd prev ++ ["."%char; nl; nl])).
Proof.
  unfold silence_commit. rewrite length_gtb_0.
  destruct (trimEnd prev) as [|a x] eqn:E; [now left | right].
  split; [discriminate|]. cbn [truthy andb].
  destruct (negb (ends_in_punctuation_or_newline (a :: x))); [now right | left].
  assert (Hs : ends_solid (a :: x)).
  { apply ends_solid_fixed. split; [discriminate|]. rewrite <- E. apply trimEnd_idem. }
  change [nl; nl] with ([nl] ++ [nl]) at 1.
  now rewrite (endsWith_solid_nl _ [nl] Hs).
Qed.

End CommitGrowth.

Section SeparatorRule.
Import Speech.

Lemma fold_append_sentence_prefix ms : forall acc,
  exists rest, fold_left append_sentence ms acc = acc ++ rest.
Proof.
  induction ms as [|m ms IH]; intros acc.
  - exists []. cbn. now rewrite app_nil_r.
  - cbn [fold_left]. destruct (IH (append_sentence acc m)) as (rest & ->).
    unfold append_sentence. destruct (capitalize (trim m)) as [|c r].
    + now exists rest.
    + exists ((separator acc ++ c :: r) ++ rest). now rewrite !app_assoc.
Qed.

(** The first unit of a commit is appended to the trimmed buffer. *)
Lemma commit_first_unit prev finalChunk :
  trim finalChunk <> [] ->
  exists unit rest,
    trim unit <> [] /\
    commit finalChunk prev = append_sentence (trimEnd prev) unit ++ rest.
Proof.
  intros Hne. unfold commit.
  pose proof (trim_ends_solid _ Hne) as Hs.
  destruct (trim finalChunk) as [|a l] eqn:E; [now destruct Hne|].
  destruct (sentence_matches_nonblank _ Hs) as [Hms Hall].
  destruct (sentence_matches (a :: l)) as [|m ms]; [now destruct Hms|].
  inversion Hall; subst. cbn [fold_left].
  destruct (fold_append_sentence_prefix ms (append_sentence (trimEnd prev) m))
    as (rest & ->).
  exists m, rest. split; [now apply nonblank_trim | reflexivity].
Qed.

Lemma full_stop_punctuation l :
  ends_in_full_stop l -> ends_in_punctuation l = true.
Proof.
  intros (body & ->). unfold ends_in_punctuation.
  now rewrite rev_app_distr.
Qed.

Lemma no_terminal_punctuation_false l :
  no_terminal_punctuation l -> ends_in_punctuation l = false.
Proof.
  intros H. unfold ends_in_punctuation.
  destruct (rev l) as [|c r] eqn:E; [reflexivity|].
  assert (El : l = rev r ++ [c]) by (rewrite <- (rev_involutive l), E; reflexivity).
  destruct (H _ _ El) as (H1 & H2 & H3).
  unfold is_terminator.
  destruct (Ascii.eqb_spec c "."%char); [contradiction|].
  destruct (Ascii.eqb_spec c "!"%char); [contradiction|].
  destruct (Ascii.eqb_spec c "?"%char); [contradiction|].
  reflexivity.
Qed.

(** C8: the separator rule of stream ingest.  Whatever the working buffer
    and whatever lines come before its last one, when the last line (what
    follows the last newline, or the whole buffer when it holds none) has
    exactly 81 code units and ends in a full stop the separator put before
    the next unit is a newline; when it has 50 code units and ends in a
    full stop it is one space; when it has 161 code units and no terminal
    punctuation it is a newline.  In each case the unit (trimmed and
    capitalised) is appended after that separator.  The working buffer of a
    commit starts as the stored buffer without its trailing white space,
    and its first unit is appended to that by the same rule. *)
Theorem separator_rule (newText line s : str) :
  is_last_line line newText ->
  trim s <> [] ->
  (length line = 81 -> ends_in_full_stop line ->
     separator newText = [nl] /\
     append_sentence newText s = newText ++ [nl] ++ capitalize (trim s)) /\
  (length line = 50 -> ends_in_full_stop line ->
     separator newText = [space] /\
     append_sentence newText s = newText ++ [space] ++ capitalize (trim s)) /\
  (length line = 161 -> no_terminal_punctuation line ->
     separator newText = [nl] /\
     append_sentence newText s = newText ++ [nl] ++ capitalize (trim s)) /\
  (forall prev finalChunk,
     trim finalChunk <> [] ->
     exists unit rest,
       trim unit <> [] /\
       commit finalChunk prev = append_sentence (trimEnd prev) unit ++ rest).
Proof.
  intros Hline Hs. apply last_line_is in Hline.
  rewrite (append_sentence_nonempty _ _ Hs).
  assert (Hsep : forall n b, length line = n -> 0 < n ->
                 ends_in_punctuation line = b ->
                 separator newText =
                 if (b && (n >? SOFT_BREAK_THRESHOLD)) || (n >? MAX_READABLE_LINE_LENGTH)
                 then [nl] else [space]).
  { intros n b Hn Hpos Hb. rewrite separator_nonempty.
    - unfold shouldBreak. now rewrite Hline, Hn, Hb.
    - apply length_positive. rewrite Hline. lia. }
  split; [|split; [|split]]; [intros Hlen Hend ..|apply commit_first_unit].
  - apply full_stop_punctuation in Hend.
    rewrite (Hsep 81 true Hlen ltac:(lia) Hend). now split.
  - apply full_stop_punctuation in Hend.
    rewrite (Hsep 50 true Hlen ltac:(lia) Hend). now split.
  - apply no_terminal_punctuation_false in Hend.
    rewrite (Hsep 161 false Hlen ltac:(lia) Hend). now split.
Qed.

(** Witness of [separator_rule]: last lines of 81, 50 and 161 code units,
    each after an earlier line of 100 code units that ends in a full stop. *)
Lemma separator_rule_witness :
  let unit := lit "next unit" in
  let earlier := repeat "a"%char 99 ++ ["."%char; nl] in
  let line81 := repeat "a"%char 80 ++ ["."%char] in
  let line50 := repeat "a"%char 49 ++ ["."%char] in
  let line161 := repeat "a"%char 161 in
  append_sentence (earlier ++ line81) unit =
    (earlier ++ line81) ++ [nl] ++ lit "Next unit" /\
  append_sentence (earlier ++ line50) unit =
    (earlier ++ line50) ++ [space] ++ lit "Next unit" /\
  append_sentence (earlier ++ line161) unit =
    (earlier ++ line161) ++ [nl] ++ lit "Next unit".
Proof.
  intros unit earlier line81 line50 line161.
  assert (Hu : trim unit <> []) by (vm_compute; discriminate).
  assert (Hlast : forall line,
            forallb (fun c => negb (Ascii.eqb c nl)) line = true ->
            is_last_line line (earlier ++ line)).
  { intros line H. split; [now apply no_newline_check|]. right.
    exists (repeat "a"%char 99 ++ ["."%char]). unfold earlier.
    now rewrite <- !app_assoc. }
  assert (Hsolid : forall n, no_terminal_punctuation (repeat "a"%char (S n))).
  { intros n body c E.
    assert (Hin : In c (repeat "a"%char (S n)))
      by (rewrite E; apply in_or_app; right; now left).
    apply repeat_spec in Hin. subst c. repeat split; discriminate. }
  split; [|split].
  - apply (proj1 (separator_rule (earlier ++ line81) line81 unit
                    (Hlast line81 eq_refl) Hu));
      [reflexivity | now exists (repeat "a"%char 80)].
  - apply (proj1 (proj2 (separator_rule (earlier ++ line50) line50 unit
                           (Hlast line50 eq_refl) Hu)));
      [reflexivity | now exists (repeat "a"%char 49)].
  - apply (proj1 (proj2 (proj2 (separator_rule (earlier ++ line161) line161 unit
                                  (Hlast line161 eq_refl) Hu))));
      [reflexivity | apply (Hsolid 160%nat)].
Defined.

End SeparatorRule.

(** ** The buffer and the refined watermark *)

Section BufferInvariant.

Lemma length_core_trailing t : List.length t = (core t + trailing t)%nat.
Proof. unfold core, trailing. pose proof (trimEnd_length t). lia. Qed.

Lemma trailing_fixed r : trimEnd r = r -> trailing r = 0%nat.
Proof. unfold trailing. intros ->. lia. Qed.

Lemma trailing_app_blank s w :
  blank w -> trailing (s ++ w) = (trailing s + List.length w)%nat.
Proof.
  intros Hw. unfold trailing. rewrite trimEnd_app_blank, length_app by assumption.
  pose proof (trimEnd_length s). lia.
Qed.

Lemma core_app_blank s w : blank w -> core (s ++ w) = core s.
Proof. intros Hw. unfold core. now rewrite trimEnd_app_blank. Qed.

Lemma core_fixed r : trimEnd r = r -> core r = List.length r.
Proof. unfold core. now intros ->. Qed.

Lemma blank_one c : is_space c = true -> blank [c].
Proof. unfold blank. cbn. now intros ->. Qed.

Lemma blank_skipn k w : blank w -> blank (skipn k w).
Proof.
  unfold blank. rewrite !forallb_forall. intros H c Hin.
  apply H. rewrite <- (firstn_skipn k w). apply in_or_app. now right.
Qed.

Lemma trimStart_blank w : blank w -> trimStart w = [].
Proof.
  unfold blank. induction w as [|a w IH]; cbn; [reflexivity|].
  intros H. apply andb_true_iff in H as [-> Hw]. now apply IH.
Qed.

Lemma trim_blank w : blank w -> trim w = [].
Proof. intros H. unfold trim. now rewrite trimStart_blank. Qed.

Lemma trimStart_fixed_cons a r : is_space a = false -> trimStart (a :: r) = a :: r.
Proof. cbn. now intros ->. Qed.

Lemma trimStart_fixed_head a r : trimStart (a :: r) = a :: r -> is_space a = false.
Proof. intros H. now apply trimStart_head with (a :: r) r. Qed.

Lemma trimStart_trim t : trimStart (trim t) = trim t.
Proof.
  destruct (trim t) as [|c r] eqn:E; [reflexivity|].
  apply trimStart_fixed_cons. now apply trim_head with t r.
Qed.

(** A buffer that neither starts with white space nor holds anything else
    is empty. *)
Lemma fixed_blank_nil t : trimStart t = t -> trimEnd t = [] -> t = [].
Proof.
  intros Hs He. apply trimEnd_nil_blank in He. now rewrite <- Hs, trimStart_blank.
Qed.

Lemma buffer_ok_nil f : buffer_ok [] 0 f.
Proof. unfold buffer_ok, trailing, core. cbn. repeat split; lia. Qed.

Lemma buffer_ok_settled t n f : buffer_ok t n f -> buffer_ok t n false.
Proof.
  intros (H1 & H2 & H3 & H4 & _). repeat split; try assumption. discriminate.
Qed.

(** Growth by a commit. *)
Lemma buffer_ok_grows t t' n f :
  buffer_ok t n f -> grows_from (trimEnd t) t' -> buffer_ok t' n f.
Proof.
  intros (Hn & Hstart & Htrail & Hinner & Hflight) [Hfix Hshape].
  pose proof (length_core_trailing t) as Hlen.
  pose proof (core_fixed _ Hfix) as Hcore'.
  pose proof (trailing_fixed _ Hfix) as Htrail'.
  destruct (trimEnd_decomp t) as (w & Et & Hw).
  destruct (trimEnd t) as [|a x] eqn:Ex.
  - clear Et. assert (t = []) by now apply fixed_blank_nil. subst t.
    destruct Hshape as (d & rest & -> & Hd).
    cbn in Hn. assert (n = 0%nat) by lia. subst n.
    repeat split; try lia.
    + now apply trimStart_fixed_cons.
    + intros _. cbn. unfold trailing. cbn. lia.
  - destruct Hshape as (c & d & rest & -> & Hc & Hd).
    assert (Hxfix : trimEnd (a :: x) = a :: x) by (rewrite <- Ex; apply trimEnd_idem).
    remember (a :: x) as y eqn:Ey.
    assert (Hx : core t = List.length y) by (unfold core; now rewrite Ex).
    assert (Hlen' : List.length (y ++ c :: d :: rest) =
                    (List.length y + 2 + List.length rest)%nat)
      by (rewrite length_app; cbn [List.length]; lia).
    repeat split.
    + lia.
    + rewrite Ey. apply trimStart_fixed_cons. rewrite Et, Ey in Hstart.
      now apply trimStart_fixed_head with (x ++ w).
    + lia.
    + intros _. rewrite firstn_app.
      destruct (Nat.le_gt_cases n (List.length y)) as [Hle|Hgt].
      * replace (n - List.length y)%nat with 0%nat by lia.
        cbn [firstn]. rewrite app_nil_r.
        replace (firstn n y) with (firstn n t); [apply Hinner; lia|].
        rewrite Et, firstn_app.
        replace (n - List.length y)%nat with 0%nat by lia.
        cbn [firstn]. now rewrite app_nil_r.
      * rewrite firstn_all2 by lia.
        assert (Hcase : (n - List.length y = 1 \/ n - List.length y = 2)%nat) by lia.
        destruct Hcase as [-> | ->]; cbn [firstn].
        -- rewrite trailing_app_blank by now apply blank_one.
           rewrite (trailing_fixed _ Hxfix). cbn. lia.
        -- rewrite trailing_fixed; [lia|].
           change (y ++ [c; d]) with (y ++ [c] ++ [d]).
           rewrite app_assoc. now apply trimEnd_snoc.
    + intros Hf. specialize (Hflight Hf). lia.
Qed.

End BufferInvariant.

Section BufferSteps.

(** The silence commit. *)
Lemma buffer_ok_silence t n f :
  buffer_ok t n f -> buffer_ok (Speech.silence_commit t) n f.
Proof.
  intros Hok.
  destruct (silence_commit_cases t) as [[_ ->] | [Hne Hcase]]; [exact Hok|].
  destruct Hok as (Hn & Hstart & Htrail & Hinner & Hflight).
  pose proof (length_core_trailing t) as Hlen.
  destruct (trimEnd_decomp t) as (w & Et & Hw).
  assert (Hxfix : trimEnd (trimEnd t) = trimEnd t) by apply trimEnd_idem.
  remember (trimEnd t) as y eqn:Ey.
  assert (Hx : core t = List.length y) by (unfold core; now rewrite Ey).
  assert (Hhead : forall tail, trimStart (y ++ tail) = y ++ tail).
  { intros tail. destruct y as [|a x]; [now destruct Hne|].
    apply trimStart_fixed_cons. rewrite Et in Hstart.
    now apply trimStart_fixed_head with (x ++ w). }
  assert (Hprefix : (n <= List.length y)%nat -> forall tail,
            (trailing (firstn n (y ++ tail)) <= 1)%nat).
  { intros Hle tail. rewrite firstn_app.
    replace (n - List.length y)%nat with 0%nat by lia.
    cbn [firstn]. rewrite app_nil_r.
    replace (firstn n y) with (firstn n t); [apply Hinner; lia|].
    rewrite Et, firstn_app.
    replace (n - List.length y)%nat with 0%nat by lia.
    cbn [firstn]. now rewrite app_nil_r. }
  assert (Hnl : blank [nl; nl]) by reflexivity.
  destruct Hcase as [-> | ->].
  - assert (Hc : core (y ++ [nl; nl]) = List.length y)
      by (rewrite core_app_blank, core_fixed; auto).
    repeat split.
    + rewrite length_app. cbn [List.length]. lia.
    + apply Hhead.
    + rewrite trailing_app_blank, trailing_fixed by assumption. cbn. lia.
    + intros Hle. apply Hprefix. lia.
    + intros Hf. specialize (Hflight Hf). lia.
  - assert (Hdot : trimEnd (y ++ ["."%char]) = y ++ ["."%char])
      by now apply trimEnd_snoc.
    change (y ++ ["."%char; nl; nl]) with (y ++ ["."%char] ++ [nl; nl]).
    rewrite app_assoc.
    assert (Hc : core ((y ++ ["."%char]) ++ [nl; nl]) = S (List.length y)).
    { rewrite core_app_blank, core_fixed, length_app by assumption. cbn. lia. }
    repeat split.
    + rewrite !length_app. cbn [List.length]. lia.
    + rewrite <- app_assoc. apply Hhead.
    + rewrite trailing_app_blank, trailing_fixed by assumption. cbn. lia.
    + intros Hle. rewrite Hc in Hle.
      destruct (Nat.le_gt_cases n (List.length y)) as [Hle'|Hgt].
      * rewrite <- app_assoc. now apply Hprefix.
      * assert (n = S (List.length y)) by lia. subst n.
        rewrite firstn_app, length_app. cbn [List.length].
        replace (S (List.length y) - (List.length y + 1))%nat with 0%nat by lia.
        rewrite firstn_O, app_nil_r, firstn_all2
          by (rewrite length_app; cbn; lia).
        rewrite trailing_fixed by assumption. lia.
    + intros Hf. specialize (Hflight Hf). lia.
Qed.

(** The splice of a refinement that was outstanding. *)
Lemma buffer_ok_splice t n r0 :
  buffer_ok t n true ->
  let head := firstn n t in
  let separator :=
    if endsWith head [nl] || negb (truthy head) then [] else [space] in
  let t' := head ++ separator ++ trim r0 in
  buffer_ok t' (List.length t') false /\ (n <= List.length t')%nat.
Proof.
  intros (Hn & Hstart & Htrail & Hinner & Hflight) head separator t'.
  specialize (Hflight eq_refl). specialize (Hinner Hflight). fold head in Hinner.
  assert (Hhead_len : List.length head = n) by (apply firstn_length_le; lia).
  assert (Hlen : (n <= List.length t')%nat)
    by (unfold t'; rewrite length_app; lia).
  split; [|exact Hlen].
  assert (Hsep : separator = [] \/ (separator = [space] /\ head <> [])).
  { unfold separator. destruct (endsWith head [nl]); [now left|].
    destruct head; cbn; [now left | right]. split; [reflexivity | discriminate]. }
  assert (Hstart' : trimStart t' = t').
  { unfold t'. destruct head as [|a h] eqn:Eh.
    - destruct Hsep as [-> | [_ Hne]]; [|now destruct Hne].
      cbn [app]. apply trimStart_trim.
    - apply trimStart_fixed_cons.
      destruct t as [|b t0]; [destruct n; discriminate Eh|].
      destruct n; [discriminate Eh|]. cbn in Eh. inversion Eh; subst.
      now apply trimStart_fixed_head with t0. }
  assert (Htrail' : (trailing t' <= 2)%nat).
  { unfold t'. destruct (trim r0) as [|c r] eqn:Er.
    - rewrite app_nil_r. destruct Hsep as [-> | [-> _]].
      + rewrite app_nil_r. lia.
      + rewrite trailing_app_blank by reflexivity. cbn. lia.
    - rewrite app_assoc, trailing_fixed; [lia|].
      apply trimEnd_app_fixed; [discriminate|].
      rewrite <- Er. apply trimEnd_idem. }
  repeat split; try assumption; try lia; try discriminate.
  intros Hle. rewrite firstn_all.
  pose proof (length_core_trailing t'). lia.
Qed.

(** A refinement is called only when the watermark is inside the trimmed
    buffer. *)
Lemma trim_skipn_core n t : trim (skipn n t) <> [] -> (n < core t)%nat.
Proof.
  intros Hne. destruct (Nat.lt_ge_cases n (core t)) as [Hlt|Hge]; [exact Hlt|].
  destruct Hne. apply trim_blank.
  destruct (trimEnd_decomp t) as (w & Et & Hw). rewrite Et, skipn_app.
  fold (core t). rewrite skipn_all2 by (unfold core in Hge; lia).
  cbn [app]. now apply blank_skipn.
Qed.

Lemma buffer_ok_call t n :
  buffer_ok t n false -> trim (skipn n t) <> [] -> buffer_ok t n true.
Proof.
  intros (H1 & H2 & H3 & H4 & _) Hne. repeat split; try assumption.
  intros _. apply trim_skipn_core in Hne. lia.
Qed.

End BufferSteps.

(** ** The watermarks along a run of the pipeline *)

Section Watermarks.
Import App.

Lemma slice_prefix t r :
  0 <= r <= length t -> slice t 0 r = firstn (Z.to_nat r) t.
Proof.
  intros H. unfold slice. cbn [Z.ltb Z.compare].
  destruct (r <? 0) eqn:E; [apply Z.ltb_lt in E; lia|].
  rewrite Z.min_l, Z.min_l by lia. rewrite Z.sub_0_r. reflexivity.
Qed.

Lemma slice_from_suffix t r :
  0 <= r <= length t -> slice_from t r = skipn (Z.to_nat r) t.
Proof.
  intros H. unfold slice_from, slice.
  destruct (r <? 0) eqn:E; [apply Z.ltb_lt in E; lia|].
  destruct (length t <? 0) eqn:E'; [apply Z.ltb_lt in E'; unfold length in *; lia|].
  rewrite Z.min_l, Z.min_l by lia.
  apply firstn_all2. rewrite length_skipn. unfold length. lia.
Qed.

Lemma text_invariant_frame s s' :
  text s' = text s -> refinedRef s' = refinedRef s ->
  refiningInProgressRef s' = refiningInProgressRef s ->
  text_invariant s -> text_invariant s'.
Proof. unfold text_invariant. now intros -> -> ->. Qed.

Lemma text_invariant_bound s :
  text_invariant s -> 0 <= refinedRef s <= length (text s).
Proof. intros (H0 & Hn & _). unfold length. lia. Qed.

Lemma text_invariant_setText t s :
  0 <= refinedRef s ->
  buffer_ok t (Z.to_nat (refinedRef s)) (refiningInProgressRef s) ->
  text_invariant (setText t s).
Proof. intros H0 H. split; assumption. Qed.

Lemma on_speech_setText t s :
  on_speech (Speech.set_text t) s = setText t s.
Proof. reflexivity. Qed.

Lemma text_invariant_onresult results s :
  text_invariant s -> text_invariant (on_speech (Speech.onresult results) s).
Proof.
  intros Hinv. unfold on_speech, Speech.onresult.
  destruct (truthy (Speech.finalChunk_of results)); [|exact Hinv].
  destruct Hinv as [H0 Hok]. split; [exact H0|].
  cbn [text speech set_speech Speech.text Speech.set_interimText Speech.set_text
       Speech.set_restartCount refinedRef refiningInProgressRef].
  fold (text s).
  destruct (trim (Speech.finalChunk_of results)) as [|c r] eqn:E.
  - now rewrite commit_blank.
  - apply buffer_ok_grows with (text s); [exact Hok|].
    apply commit_grows. congruence.
Qed.

Lemma text_invariant_silence s :
  text_invariant s -> text_invariant (on_speech Speech.on_silence_timeout s).
Proof.
  intros Hinv. unfold on_speech, Speech.on_silence_timeout.
  destruct (Speech.silence_timer_armed (speech s)).
  - destruct Hinv as [H0 Hok]. split; [exact H0|].
    cbn [text speech set_speech Speech.text Speech.set_text
         refinedRef refiningInProgressRef].
    now apply buffer_ok_silence.
  - now destruct s.
Qed.

Lemma text_invariant_refine_call s :
  text_invariant s -> text_invariant (snd (refine_call s)).
Proof.
  intros Hinv. unfold refine_call.
  destruct (API_KEY s); cbn [negb orb]; [|exact Hinv].
  destruct (refiningInProgressRef s) eqn:Ef; [exact Hinv|].
  destruct (length _ <? _) eqn:Egate; [exact Hinv|]. cbn [snd].
  pose proof (text_invariant_bound s Hinv) as Hb.
  destruct Hinv as [H0 Hok]. split; [exact H0|].
  change (buffer_ok (text s) (Z.to_nat (refinedRef s)) true).
  rewrite Ef in Hok. apply buffer_ok_call; [exact Hok|].
  rewrite slice_from_suffix in Egate by assumption.
  apply Z.ltb_ge in Egate. intros E. rewrite E in Egate.
  unfold length in Egate. cbn in Egate.
  destruct (velocityRef s >? 30); lia.
Qed.

Lemma splice_facts refined0 s :
  text_invariant s -> refiningInProgressRef s = true ->
  let s' := splice (trim refined0) s in
  0 <= refinedRef s' /\
  buffer_ok (text s') (Z.to_nat (refinedRef s')) false /\
  refinedRef s <= refinedRef s' /\
  refinedRef s' = length (text s').
Proof.
  intros Hinv Hf s'.
  pose proof (text_invariant_bound s Hinv) as Hb.
  destruct Hinv as [H0 Hok]. rewrite Hf in Hok.
  destruct (buffer_ok_splice _ _ refined0 Hok) as [Hok' Hle].
  cbn zeta in Hok', Hle.
  set (head := firstn (Z.to_nat (refinedRef s)) (text s)) in *.
  set (t' := head ++ _ ++ trim refined0) in *.
  assert (Etext : text s' = t').
  { unfold s', splice. rewrite slice_prefix by assumption. reflexivity. }
  assert (Eref : refinedRef s' = length t').
  { unfold s', splice. rewrite slice_prefix by assumption. reflexivity. }
  rewrite Etext, Eref. unfold length. rewrite Nat2Z.id.
  split; [lia|]. split; [exact Hok'|]. split; lia.
Qed.

Lemma text_invariant_refine_settle res s :
  text_invariant s -> refiningInProgressRef s = true ->
  text_invariant (refine_settle res s) /\
  refinedRef s <= refinedRef (refine_settle res s) /\
  processedRef (refine_settle res s) = processedRef s.
Proof.
  intros Hinv Hf.
  assert (Hkeep : text_invariant (set_refining false s) /\
                  refinedRef s <= refinedRef (set_refining false s) /\
                  processedRef (set_refining false s) = processedRef s).
  { destruct Hinv as [H0 Hok].
    split; [|split; [cbn; lia | reflexivity]]. split; [exact H0|].
    change (buffer_ok (text s) (Z.to_nat (refinedRef s)) false).
    now apply buffer_ok_settled in Hok. }
  destruct res as [[t|]|e]; try exact Hkeep.
  unfold refine_settle. destruct (truthy t); [|exact Hkeep].
  destruct (splice_facts t s Hinv Hf) as (H0 & Hok & Hle & _).
  split; [exact (conj H0 Hok)|]. split; [exact Hle | reflexivity].
Qed.

(** What a call of the translation stage is, when it issues a request. *)
Lemma performTranslation_call_called b now s req s1 :
  performTranslation_call b now s = (Called req, s1) ->
  API_KEY s = true /\
  (b = true \/ (translatingRef s = false /\ minIntervalRef <= now - lastRequestTimeRef s)) /\
  req = {| isBatchRequest := b;
           chunk := slice (text s) (processedRef s)
                      (if b then length (text s) else refinedRef s);
           endIdx := if b then length (text s) else refinedRef s |} /\
  trim (chunk req) <> [] /\
  s1 = set_lastRequestTimeRef now (set_translating true s).
Proof.
  unfold performTranslation_call, performTranslation_of.
  destruct (API_KEY s); cbn [negb orb]; [|discriminate].
  destruct (translatingRef s && negb b) eqn:Eg; [discriminate|].
  destruct (negb b && (now - lastRequestTimeRef s <? minIntervalRef)) eqn:Er;
    [discriminate|].
  destruct (length (trim _) =? 0) eqn:Ec; [discriminate|].
  intros E. inversion E; subst. cbn [chunk].
  split; [reflexivity|]. split; [|split; [reflexivity|split; [|reflexivity]]].
  - destruct b; [now left | right]. cbn [negb andb] in Eg, Er.
    rewrite andb_true_r in Eg. apply Z.ltb_ge in Er. now split.
  - intros E0. rewrite E0 in Ec. discriminate Ec.
Qed.

(** A call that issues no request leaves the state as it is. *)
Lemma performTranslation_call_idle b now s :
  (forall req, fst (performTranslation_call b now s) <> Called req) ->
  snd (performTranslation_call b now s) = s.
Proof.
  unfold performTranslation_call, performTranslation_of.
  destruct (negb (API_KEY s) || translatingRef s && negb b); [reflexivity|].
  destruct (negb b && _); [reflexivity|].
  destruct (length (trim _) =? 0); [reflexivity|].
  intros H. now destruct (H _ eq_refl).
Qed.

(** The two steps of a translation, as events. *)
Lemma translate_call_cases b now s :
  apply (TranslateCall b now) s = s \/
  exists req,
    performTranslation_call b now s =
      (Called req, set_lastRequestTimeRef now (set_translating true s)) /\
    apply (TranslateCall b now) s =
      await req (set_lastRequestTimeRef now (set_translating true s)).
Proof.
  cbn [apply].
  destruct (performTranslation_call b now s) as [[| ms | req] s1] eqn:E.
  - left. change s1 with (snd (Skipped, s1)). rewrite <- E.
    apply performTranslation_call_idle. rewrite E. discriminate.
  - left. change s1 with (snd (Rescheduled ms, s1)). rewrite <- E.
    apply performTranslation_call_idle. rewrite E. discriminate.
  - right. exists req.
    destruct (performTranslation_call_called _ _ _ _ _ E) as (_ & _ & _ & _ & ->).
    now split.
Qed.

Lemma performTranslation_return_fields req res s :
  let s' := performTranslation_return req res s in
  speech s' = speech s /\ refinedRef s' = refinedRef s /\
  refiningInProgressRef s' = refiningInProgressRef s /\
  lastTextLengthRef s' = lastTextLengthRef s /\
  lastRequestTimeRef s' = lastRequestTimeRef s /\
  outstanding s' = outstanding s /\
  translatingRef s' = false /\
  (processedRef s' = processedRef s \/ processedRef s' = endIdx req).
Proof.
  unfold performTranslation_return.
  destruct res as [[t|]|e]; try (cbn; now auto 10).
  destruct (truthy t); [|cbn; now auto 10].
  destruct (truthy (trim t)); cbn; auto 10.
Qed.

Lemma translate_return_cases k res s :
  apply (TranslateReturn k res) s = s \/
  exists req,
    nth_error (outstanding s) k = Some req /\
    apply (TranslateReturn k res) s =
      performTranslation_return req res (settled k s).
Proof.
  cbn [apply]. destruct (nth_error (outstanding s) k) as [req|]; [right | now left].
  now exists req.
Qed.

Lemma translate_call_frame b now s :
  let s' := apply (TranslateCall b now) s in
  speech s' = speech s /\ refinedRef s' = refinedRef s /\
  refiningInProgressRef s' = refiningInProgressRef s /\
  processedRef s' = processedRef s /\
  lastTextLengthRef s' = lastTextLengthRef s.
Proof.
  cbn zeta. destruct (translate_call_cases b now s) as [-> | (req & _ & ->)];
    now repeat split.
Qed.

Lemma translate_return_frame k res s :
  let s' := apply (TranslateReturn k res) s in
  speech s' = speech s /\ refinedRef s' = refinedRef s /\
  refiningInProgressRef s' = refiningInProgressRef s /\
  lastTextLengthRef s' = lastTextLengthRef s.
Proof.
  cbn zeta. destruct (translate_return_cases k res s) as [-> | (req & _ & ->)];
    [now repeat split|].
  destruct (performTranslation_return_fields req res (settled k s))
    as (H1 & H2 & H3 & H4 & _).
  rewrite H1, H2, H3, H4. now repeat split.
Qed.

Lemma text_of_speech s s' : speech s' = speech s -> text s' = text s.
Proof. unfold text. now intros ->. Qed.

Lemma on_restart_timer_text h :
  Speech.text (Speech.on_restart_timer h) = Speech.text h.
Proof. unfold Speech.on_restart_timer. now destruct (Speech.pendingRestarts h). Qed.

Lemma velocity_tick_frame s :
  text (velocity_tick s) = text s /\
  refinedRef (velocity_tick s) = refinedRef s /\
  refiningInProgressRef (velocity_tick s) = refiningInProgressRef s /\
  processedRef (velocity_tick s) = processedRef s.
Proof.
  unfold velocity_tick. destruct (Speech.status_eqb _ _); cbn; auto.
Qed.

Lemma onerror_text code h : Speech.text (Speech.onerror code h) = Speech.text h.
Proof.
  unfold Speech.onerror. cbn [Speech.status Speech.set_error].
  now destruct (Speech.status_eqb (Speech.status h) Speech.RECORDING && _).
Qed.

Lemma onend_text h : Speech.text (Speech.onend h) = Speech.text h.
Proof. unfold Speech.onend. now destruct (Speech.status_eqb _ _). Qed.

(** Every handler keeps the buffer invariant. *)
Lemma text_invariant_apply e s :
  text_invariant s -> text_invariant (apply e s).
Proof.
  intros Hinv.
  destruct e as [ | | | results | code | | | | | | fn | b now | k res | ]; cbn [apply].
  - exact Hinv.
  - exact Hinv.
  - exact Hinv.
  - now apply text_invariant_onresult.
  - apply text_invariant_frame with s; try reflexivity; [|exact Hinv].
    unfold text, on_speech. cbn [speech set_speech]. apply onerror_text.
  - apply text_invariant_frame with s; try reflexivity; [|exact Hinv].
    unfold text, on_speech. cbn [speech set_speech]. apply onend_text.
  - apply text_invariant_frame with s; try reflexivity; [|exact Hinv].
    unfold text, on_speech. cbn [speech set_speech]. apply on_restart_timer_text.
  - now apply text_invariant_silence.
  - destruct (velocity_tick_frame s) as (H1 & H2 & H3 & _).
    now apply text_invariant_frame with s.
  - now apply text_invariant_refine_call.
  - destruct (refiningInProgressRef s) eqn:Ef; [|exact Hinv].
    now apply text_invariant_refine_settle.
  - destruct (translate_call_frame b now s) as (H1 & H2 & H3 & _).
    apply text_invariant_frame with s; try assumption. now apply text_of_speech.
  - destruct (translate_return_frame k res s) as (H1 & H2 & H3 & _).
    apply text_invariant_frame with s; try assumption. now apply text_of_speech.
  - destruct Hinv as [_ _]. split; [cbn; lia|]. apply buffer_ok_nil.
Qed.

Lemma text_invariant_initial key : text_invariant (initial key).
Proof. split; [cbn; lia | apply buffer_ok_nil]. Qed.

Lemma text_invariant_run es : forall s,
  text_invariant s -> text_invariant (run es s).
Proof.
  induction es as [|e es IH]; intros s H; [exact H|].
  cbn [run fold_left]. apply IH. now apply text_invariant_apply.
Qed.

End Watermarks.

Section WatermarkOrder.
Import App.

Lemma refine_call_frame s :
  processedRef (snd (refine_call s)) = processedRef s /\
  refinedRef (snd (refine_call s)) = refinedRef s.
Proof.
  unfold refine_call.
  destruct (negb (API_KEY s) || refiningInProgressRef s); [now split|].
  now destruct (length _ <? _).
Qed.

Lemma refine_settle_outstanding res s :
  outstanding (refine_settle res s) = outstanding s.
Proof.
  destruct res as [[t|]|e]; try reflexivity.
  unfold refine_settle. now destruct (truthy t).
Qed.

Lemma Forall_without {A} (P : A -> Prop) k l :
  Forall P l -> Forall P (firstn k l ++ skipn (S k) l).
Proof.
  rewrite !Forall_forall. intros H x Hin. apply H.
  apply in_app_or in Hin as [Hin|Hin].
  - rewrite <- (firstn_skipn k l). apply in_or_app. now left.
  - rewrite <- (firstn_skipn (S k) l). apply in_or_app. now right.
Qed.

Lemma refine_call_state s :
  snd (refine_call s) = s \/ snd (refine_call s) = set_refining true s.
Proof.
  unfold refine_call.
  destruct (negb (API_KEY s) || refiningInProgressRef s); [now left|].
  destruct (length _ <? _); [now left | now right].
Qed.

Lemma watermarks_apply e s :
  negb (is_batch e) || (refinedRef s =? length (text s)) = true ->
  match e with Clear => no_outstanding s | _ => true end = true ->
  text_invariant s ->
  0 <= processedRef s <= refinedRef s ->
  requests_bounded s ->
  0 <= processedRef (apply e s) <= refinedRef (apply e s) /\
  requests_bounded (apply e s).
Proof.
  intros Hb Hc Hinv Hord Hreq.
  destruct e as [ | | | results | code | | | | | | fn | b now | k res | ]; cbn [apply];
    try (split; [exact Hord | exact Hreq]).
  - unfold velocity_tick. destruct (Speech.status_eqb _ _); split; assumption.
  - destruct (refine_call_state s) as [-> | ->]; split; assumption.
  - destruct (refiningInProgressRef s) eqn:Ef; [|now split].
    destruct (text_invariant_refine_settle
                (outcome (retryWithBackoff fn 0 DEFAULT_RETRIES DEFAULT_DELAY))
                s Hinv Ef) as (_ & Hle & Hp).
    unfold refine_return. split; [rewrite Hp; lia|].
    unfold requests_bounded. rewrite refine_settle_outstanding.
    eapply Forall_impl; [|exact Hreq]. cbn beta. intros r Hr. lia.
  - change (match performTranslation_call b now s with
            | (Called req, s1) => await req s1
            | (_, s1) => s1
            end) with (apply (TranslateCall b now) s).
    destruct (translate_call_cases b now s) as [-> | (req & Hcall & ->)];
      [now split|].
    split; [exact Hord|].
    destruct (performTranslation_call_called _ _ _ _ _ Hcall) as (_ & _ & Ereq & _).
    pose proof (text_invariant_bound s Hinv) as Hbound.
    unfold requests_bounded.
    change (Forall (fun r => 0 <= endIdx r <= refinedRef s) (outstanding s ++ [req])).
    apply Forall_app. split; [exact Hreq|]. constructor; [|constructor].
    rewrite Ereq. cbn [endIdx].
    destruct b; [cbn in Hb; apply Z.eqb_eq in Hb; lia | lia].
  - change (match nth_error (outstanding s) k with
            | Some req => performTranslation_return req res (settled k s)
            | None => s
            end) with (apply (TranslateReturn k res) s).
    destruct (translate_return_cases k res s) as [-> | (req & Hnth & ->)];
      [now split|].
    destruct (performTranslation_return_fields req res (settled k s))
      as (_ & Hr & _ & _ & _ & Ho & _ & Hp).
    assert (Hin : 0 <= endIdx req <= refinedRef s).
    { unfold requests_bounded in Hreq. rewrite Forall_forall in Hreq.
      apply Hreq. eapply nth_error_In. exact Hnth. }
    change (refinedRef (settled k s)) with (refinedRef s) in Hr.
    change (processedRef (settled k s)) with (processedRef s) in Hp.
    split; [rewrite Hr; destruct Hp as [-> | ->]; lia|].
    unfold requests_bounded. rewrite Ho, Hr.
    now apply Forall_without.
  - cbn in Hc. unfold no_outstanding in Hc. split; [cbn; lia|].
    unfold requests_bounded.
    change (outstanding (onClear s)) with (outstanding s).
    destruct (outstanding s); [constructor | discriminate].
Qed.

Lemma watermarks_run es : forall s,
  batch_only_when_refined es s = true ->
  clear_only_when_settled es s = true ->
  text_invariant s ->
  0 <= processedRef s <= refinedRef s ->
  requests_bounded s ->
  text_invariant (run es s) /\
  0 <= processedRef (run es s) <= refinedRef (run es s) /\
  requests_bounded (run es s).
Proof.
  induction es as [|e es IH]; intros s Hadm Hclr Hinv Hord Hreq;
    [split; [exact Hinv | split; [exact Hord | exact Hreq]]|].
  cbn [batch_only_when_refined] in Hadm.
  apply andb_true_iff in Hadm as [He Hes].
  cbn [clear_only_when_settled] in Hclr.
  apply andb_true_iff in Hclr as [Hc Hcs].
  destruct (watermarks_apply e s He Hc Hinv Hord Hreq) as [Hord' Hreq'].
  cbn [run fold_left]. apply IH; try assumption.
  now apply text_invariant_apply.
Qed.

(** C1, as the specification words it, fails, in two ways.  A batch
    translation moves the translated watermark to the end of the buffer,
    past the refined watermark when text is still unrefined.  And with no
    batch call at all, an explicit clear while the request of an incremental
    translation is outstanding puts both watermarks and the buffer at 0, and
    the response that arrives afterwards sets the translated watermark to
    the end of the slice sent before the clear. *)
Lemma batch_and_stale_response_break_order :
  (processedRef batch_session = 13 /\
   refinedRef batch_session = 0 /\
   length (text batch_session) = 13 /\
   ~ watermarks_ordered batch_session) /\
  (processedRef stale_response_session = 50 /\
   refinedRef stale_response_session = 0 /\
   length (text stale_response_session) = 0 /\
   ~ watermarks_ordered stale_response_session).
Proof.
  split; (repeat split; intros (_ & H & _); vm_compute in H; now apply H).
Qed.

(** C1 (amended): from the empty session, after every ingest commit, silence
    commit, refinement call or splice, call or response of an incremental or
    batch translation and explicit clear, in any order and with any of them
    free to run while a request is outstanding, the watermarks satisfy
    0 <= processedRef <= refinedRef <= length of the source buffer, provided
    every batch translation is called with the refined watermark at the end
    of the buffer and no explicit clear is made while a translation request
    is outstanding. *)
Theorem watermarks_ordered_along_run (es : list event) (key : bool) :
  batch_only_when_refined es (initial key) = true ->
  clear_only_when_settled es (initial key) = true ->
  watermarks_ordered (run es (initial key)).
Proof.
  intros Hadm Hclr.
  destruct (watermarks_run es (initial key) Hadm Hclr (text_invariant_initial key))
    as (Hinv & Hord & _); [cbn; lia | constructor |].
  pose proof (text_invariant_bound _ Hinv).
  unfold watermarks_ordered. lia.
Qed.

(** Witness of [watermarks_ordered_along_run]: ingest, a refinement with a
    commit in between, a batch translation of the refined buffer with a
    silence commit and more ingest before its response, an incremental
    translation, and a clear once everything has settled. *)
Lemma watermarks_ordered_witness :
  watermarks_ordered (run refine_then_translate (initial true)).
Proof.
  apply (watermarks_ordered_along_run refine_then_translate true);
    vm_compute; reflexivity.
Defined.

Lemma commit_length t n f finalChunk :
  buffer_ok t n f ->
  (List.length t <= List.length (Speech.commit finalChunk t))%nat.
Proof.
  intros (_ & Hstart & Htrail & _).
  destruct (trim finalChunk) as [|c r] eqn:E; [now rewrite commit_blank|].
  destruct (commit_grows finalChunk t) as [_ Hshape]; [congruence|].
  pose proof (length_core_trailing t) as Hlen. unfold core in Hlen.
  destruct (trimEnd t) as [|a x] eqn:Ex.
  - rewrite (fixed_blank_nil t Hstart Ex). cbn. lia.
  - destruct Hshape as (c0 & d0 & rest & -> & _).
    rewrite length_app. cbn [List.length] in *. lia.
Qed.

Lemma silence_commit_length t n f :
  buffer_ok t n f ->
  (List.length t <= List.length (Speech.silence_commit t))%nat.
Proof.
  intros (_ & _ & Htrail & _).
  pose proof (length_core_trailing t) as Hlen. unfold core in Hlen.
  destruct (silence_commit_cases t) as [[_ ->] | [_ [-> | ->]]];
    rewrite ?length_app; cbn [List.length]; lia.
Qed.

(** C4: the buffer never shrinks on a commit of stream ingest.  In every
    state that the pipeline reaches from the empty session (no edit by hand),
    a recognition event with its final chunks leaves the source buffer at
    least as long as it was, and so does the silence commit; this covers the
    commit that follows a silence commit, whose two newlines it replaces by
    a separator and a unit. *)
Theorem ingest_commit_never_shrinks
    (es : list event) (key : bool) (results : list Speech.result) :
  let s := run es (initial key) in
  length (text s) <= length (text (apply (Result results) s)) /\
  length (text s) <= length (text (apply SilenceTimeout s)).
Proof.
  intros s.
  assert (Hinv : text_invariant s)
    by (apply text_invariant_run, text_invariant_initial).
  destruct Hinv as [_ Hok]. unfold length. split; apply inj_le.
  - cbn [apply]. unfold on_speech, Speech.onresult.
    destruct (truthy (Speech.finalChunk_of results)); [|apply Nat.le_refl].
    change (List.length (text s) <=
            List.length (Speech.commit (Speech.finalChunk_of results) (text s)))%nat.
    now apply commit_length with (Z.to_nat (refinedRef s)) (refiningInProgressRef s).
  - cbn [apply]. unfold on_speech, Speech.on_silence_timeout.
    destruct (Speech.silence_timer_armed (speech s)).
    + change (List.length (text s) <=
              List.length (Speech.silence_commit (text s)))%nat.
      now apply silence_commit_length with (Z.to_nat (refinedRef s)) (refiningInProgressRef s).
    + destruct s. apply Nat.le_refl.
Qed.

End WatermarkOrder.

(** ** Refinement splice *)

Section Splice.
Import App.

Lemma refine_settle_success t s :
  truthy t = true ->
  refine_settle (Resolved (Some t)) s = set_refining false (splice (trim t) s).
Proof. intros H. unfold refine_settle. now rewrite H. Qed.

Lemma splice_text refined s :
  0 <= refinedRef s <= length (text s) ->
  let head := firstn (Z.to_nat (refinedRef s)) (text s) in
  let separator :=
    if endsWith head [nl] || negb (truthy head) then [] else [space] in
  text (splice refined s) = head ++ separator ++ refined /\
  refinedRef (splice refined s) = length (head ++ separator ++ refined).
Proof.
  intros H head separator. unfold splice.
  rewrite slice_prefix by assumption. now split.
Qed.

(** C2: the splice of a refinement drops what was committed while its
    request was outstanding.  The first unit is committed and submitted (the
    refined watermark is 0); the unit "and more words" is committed before
    the corrected text arrives; the splice then keeps the buffer up to the
    watermark, which is nothing, and puts the corrected first unit after
    it: the second unit is gone from the buffer. *)
Theorem splice_drops_unit_committed_in_flight :
  fst (refine_call (run [Start; Result [(true, first_unit)]] (initial true))) =
    Some (lit "The quick brown fox jumps over the lazy dog today") /\
  refiningInProgressRef in_flight_session = true /\
  refinedRef in_flight_session = 0 /\
  text in_flight_session =
    lit "The quick brown fox jumps over the lazy dog today And more words" /\
  let s' := apply (RefineReturn corrected_once) in_flight_session in
  text s' = corrected_unit /\
  includes (text s') (lit "And more words") = false.
Proof. vm_compute. repeat split. Qed.

(** The loss does not depend on the input: the splice applied when a
    refinement succeeds keeps the part of the buffer before the refined
    watermark, as buffer and watermark are when the corrected text arrives,
    and replaces all that follows by a separator (none at the start of the
    buffer or after a newline, else one space) and the trimmed corrected
    text; the watermark moves to the end.  The result is the same with or
    without text appended beyond the watermark. *)
Lemma splice_result_ignores_later_text (t appended : str) (s : state) :
  truthy t = true ->
  0 <= refinedRef s <= length (text s) ->
  let head := firstn (Z.to_nat (refinedRef s)) (text s) in
  let s' := refine_settle (Resolved (Some t)) s in
  let s2 := refine_settle (Resolved (Some t)) (setText (text s ++ appended) s) in
  (head = [] \/ (exists h, head = h ++ [nl]) -> text s' = head ++ trim t) /\
  (head <> [] -> (forall h, head <> h ++ [nl]) ->
     text s' = head ++ [space] ++ trim t) /\
  refinedRef s' = length (text s') /\
  text s2 = text s' /\
  refinedRef s2 = refinedRef s'.
Proof.
  intros Ht Hr head s' s2.
  destruct (splice_text (trim t) s Hr) as [Etext Eref].
  assert (Hr2 : 0 <= refinedRef (setText (text s ++ appended) s)
                  <= length (text (setText (text s ++ appended) s))).
  { change (0 <= refinedRef s <= length (text s ++ appended)).
    unfold length in *. rewrite length_app. lia. }
  destruct (splice_text (trim t) _ Hr2) as [Etext2 Eref2].
  change (refinedRef (setText (text s ++ appended) s)) with (refinedRef s) in *.
  change (text (setText (text s ++ appended) s)) with (text s ++ appended) in *.
  assert (Ehead : firstn (Z.to_nat (refinedRef s)) (text s ++ appended) = head).
  { rewrite firstn_app.
    replace (Z.to_nat (refinedRef s) - List.length (text s))%nat with 0%nat
      by (unfold length in Hr; lia).
    now rewrite firstn_O, app_nil_r. }
  rewrite Ehead in Etext2, Eref2. fold head in Etext, Eref.
  assert (Es' : text s' = text (splice (trim t) s) /\
                refinedRef s' = refinedRef (splice (trim t) s))
    by (unfold s'; now rewrite refine_settle_success).
  assert (Es2 : text s2 = text (splice (trim t) (setText (text s ++ appended) s)) /\
                refinedRef s2 = refinedRef (splice (trim t) (setText (text s ++ appended) s)))
    by (unfold s2; now rewrite refine_settle_success).
  destruct Es' as [-> ->], Es2 as [-> ->].
  rewrite Etext, Eref, Etext2, Eref2.
  destruct (splice_separator head) as [Hnone Hspace].
  split; [intros H; now rewrite (Hnone H)|].
  split; [intros H1 H2; now rewrite (Hspace H1 H2)|].
  now repeat split.
Qed.

End Splice.


(** * Further properties of the code *)

(** ** The hook: silence commit, commit, restarts *)

Section HookExtras.
Import Speech.

Lemma toUpperCase_idempotent c : toUpperCase (toUpperCase c) = toUpperCase c.
Proof. destruct c as [[] [] [] [] [] [] [] []]; reflexivity. Qed.

Lemma separator_choice acc :
  acc <> [] -> separator acc = [nl] \/ separator acc = [space].
Proof.
  destruct acc as [|a r]; [now intros [] | intros _].
  unfold separator.
  destruct (shouldBreak (a :: r)); [now left | right].
  now destruct (ends_in_punctuation (last_line (a :: r))).
Qed.

Lemma ends_solid_trimEnd t : trimEnd t <> [] -> ends_solid (trimEnd t).
Proof. intros H. apply ends_solid_fixed. split; [exact H | apply trimEnd_idem]. Qed.

(** A trimmed buffer that ends in a terminator, followed by a blank line,
    is what the silence commit leaves alone. *)
Lemma silence_commit_closed body c :
  is_terminator c = true ->
  silence_commit ((body ++ [c]) ++ [nl; nl]) = (body ++ [c]) ++ [nl; nl].
Proof.
  intros Hc. pose proof (is_terminator_not_space c Hc) as Hs.
  unfold silence_commit.
  rewrite trimEnd_app_blank by reflexivity. rewrite trimEnd_snoc by assumption.
  assert (E1 : ends_in_punctuation_or_newline (body ++ [c]) = true).
  { unfold ends_in_punctuation_or_newline. rewrite rev_app_distr. cbn [rev app].
    now rewrite Hc. }
  rewrite E1. cbn [negb]. rewrite andb_false_r.
  rewrite length_gtb_0.
  assert (E2 : truthy (body ++ [c]) = true) by now destruct body.
  rewrite E2. cbn [andb].
  change [nl; nl] with ([nl] ++ [nl]) at 1.
  rewrite endsWith_solid_nl by (exists body, c; auto).
  reflexivity.
Qed.

Lemma silence_commit_form prev :
  trimEnd prev <> [] ->
  exists body c,
    is_terminator c = true /\
    prefix_of (trimEnd prev) (body ++ [c]) /\
    silence_commit prev = (body ++ [c]) ++ [nl; nl].
Proof.
  intros Hne. pose proof (ends_solid_trimEnd _ Hne) as (y & c & Ey & Hc).
  unfold silence_commit. rewrite length_gtb_0.
  assert (Et : truthy (trimEnd prev) = true) by now apply truthy_nonempty.
  rewrite Et. cbn [andb].
  destruct (ends_in_punctuation_or_newline (trimEnd prev)) eqn:E; cbn [negb].
  - change [nl; nl] with ([nl] ++ [nl]) at 1.
    rewrite endsWith_solid_nl by (exists y, c; auto). cbn [negb].
    exists y, c. rewrite <- Ey. split; [|split; [exists []; now rewrite app_nil_r | reflexivity]].
    unfold ends_in_punctuation_or_newline in E.
    rewrite Ey, rev_app_distr in E. cbn [rev app] in E.
    apply orb_true_iff in E as [E|E]; [exact E|].
    apply Ascii.eqb_eq in E. subst c. discriminate.
  - exists (trimEnd prev), "."%char.
    split; [reflexivity|]. split; [now exists ["."%char]|].
    now rewrite <- app_assoc.
Qed.

(** X1: the silence commit settles.  A second silence commit changes
    nothing.  A buffer that is not blank comes out as its trimmed form
    followed by a blank line when a full stop, an exclamation mark or a
    question mark ends the trimmed form, and as the trimmed form, a full
    stop and a blank line when any other code unit ends it; a blank buffer
    is left as it is. *)
Theorem silence_commit_settles (t : str) :
  silence_commit (silence_commit t) = silence_commit t /\
  (forall body c, trimEnd t = body ++ [c] ->
     (c = "."%char \/ c = "!"%char \/ c = "?"%char ->
        silence_commit t = trimEnd t ++ [nl; nl]) /\
     (c <> "."%char -> c <> "!"%char -> c <> "?"%char ->
        silence_commit t = trimEnd t ++ ["."%char; nl; nl])) /\
  (trimEnd t = [] -> silence_commit t = t).
Proof.
  split; [|split].
  - destruct (trimEnd t) as [|a x] eqn:Ex.
    + assert (E : silence_commit t = t)
        by (destruct (silence_commit_cases t) as [[_ H]|[H _]]; [exact H | congruence]).
      now rewrite !E.
    + assert (Hne : trimEnd t <> []) by congruence.
      destruct (silence_commit_form t Hne) as (body & c & Hc & Hp & E).
      rewrite E. now apply silence_commit_closed.
  - intros body c E.
    assert (Hs : is_space c = false).
    { apply trimEnd_fixed_last with body. rewrite <- E. apply trimEnd_idem. }
    assert (Hnl : Ascii.eqb c nl = false).
    { destruct (Ascii.eqb_spec c nl) as [-> |]; [discriminate Hs | reflexivity]. }
    assert (Hend : ends_in_punctuation_or_newline (trimEnd t) = is_terminator c).
    { unfold ends_in_punctuation_or_newline. rewrite E, rev_app_distr.
      cbn [rev app]. now rewrite Hnl, orb_false_r. }
    assert (Hlen : (length (trimEnd t) >? 0) = true)
      by (rewrite length_gtb_0, E; now destruct body).
    unfold silence_commit. rewrite Hlen, Hend. cbn [andb]. split.
    + intros Hc.
      assert (Ht : is_terminator c = true)
        by (destruct Hc as [-> | [-> | ->]]; reflexivity).
      rewrite Ht. cbn [negb].
      change [nl; nl] with ([nl] ++ [nl]) at 1.
      rewrite E, endsWith_solid_nl by (exists body, c; auto).
      reflexivity.
    + intros H1 H2 H3.
      assert (Ht : is_terminator c = false).
      { unfold is_terminator.
        destruct (Ascii.eqb_spec c "."%char); [contradiction|].
        destruct (Ascii.eqb_spec c "!"%char); [contradiction|].
        destruct (Ascii.eqb_spec c "?"%char); [contradiction|].
        reflexivity. }
      now rewrite Ht.
  - intros E.
    destruct (silence_commit_cases t) as [[_ H]|[H _]]; [exact H | congruence].
Qed.

(** X2: a commit appends to the trimmed buffer.  A final chunk that is blank
    leaves the buffer as it is, trailing white space included.  Any other
    chunk gives the buffer without its trailing white space, one separator
    (none on an empty buffer, else a newline or a space) and a first unit
    that starts with a code unit which is neither white space nor lower
    case; the result has no trailing white space. *)
Theorem commit_appends_to_trimmed (finalChunk prev : str) :
  (trim finalChunk = [] -> commit finalChunk prev = prev) /\
  (trim finalChunk <> [] ->
     exists sep u rest,
       commit finalChunk prev = trimEnd prev ++ sep ++ u :: rest /\
       (if truthy (trimEnd prev) then sep = [nl] \/ sep = [space] else sep = []) /\
       toUpperCase u = u /\ is_space u = false /\
       trimEnd (commit finalChunk prev) = commit finalChunk prev).
Proof.
  split; [apply commit_blank|]. intros Hne.
  destruct (commit_first_unit prev finalChunk Hne) as (unit & rest & Hu & E).
  destruct (commit_grows finalChunk prev Hne) as [Hfix _].
  rewrite (append_sentence_nonempty _ _ Hu) in E.
  destruct (trim unit) as [|c r] eqn:Ec; [now destruct Hu|].
  pose proof (trim_head _ _ _ Ec) as Hc. cbn [capitalize] in E.
  exists (separator (trimEnd prev)), (toUpperCase c), (r ++ rest).
  split; [rewrite E, <- !app_assoc; reflexivity|].
  split; [|split; [apply toUpperCase_idempotent|split; [now apply toUpperCase_not_space | exact Hfix]]].
  destruct (trimEnd prev) as [|a x] eqn:Ex; cbn [truthy]; [reflexivity|].
  now apply separator_choice.
Qed.

Lemma consecutive_errors_text codes : forall s,
  text (consecutive_errors codes s) = text s.
Proof.
  induction codes as [|code codes IH]; intros s; [reflexivity|].
  cbn [consecutive_errors fold_left]. fold (consecutive_errors codes (onerror code s)).
  rewrite IH. apply onerror_text.
Qed.

(** X3: errors neither end the recording state nor touch the buffer, and the
    limit of three does not bind the end handler.  While recording, after
    any number of consecutive errors the status is still [RECORDING], the
    buffer is what it was, and an end event starts the recogniser at once. *)
Theorem errors_keep_recording (codes : list string) (s : state) :
  status s = RECORDING ->
  let s' := consecutive_errors codes s in
  status s' = RECORDING /\
  text s' = text s /\
  commands (onend s') = commands s' ++ [CmdStart].
Proof.
  intros Hrec s'.
  assert (Hst : forall cs t, status t = RECORDING ->
                status (consecutive_errors cs t) = RECORDING).
  { induction cs as [|c cs IH]; intros t Ht; [exact Ht|].
    cbn [consecutive_errors fold_left]. apply IH. now rewrite onerror_status. }
  specialize (Hst codes s Hrec). fold s' in Hst.
  split; [exact Hst|]. split; [apply consecutive_errors_text|].
  unfold onend. now rewrite Hst.
Qed.

Lemma errors_keep_recording_witness :
  let s' := consecutive_errors
              ["network"; "network"; "network"; "network"; "network"]%string
              (startRecording initial) in
  status s' = RECORDING /\ text s' = [] /\
  commands (onend s') = commands s' ++ [CmdStart].
Proof.
  exact (errors_keep_recording
           ["network"; "network"; "network"; "network"; "network"]%string
           (startRecording initial) eq_refl).
Defined.

End HookExtras.

(** ** The pipeline: flags, failures, watermarks *)

Section PipelineExtras.
Import App.

Lemma refine_return_text_frame fn s :
  Speech.status (speech (refine_return fn s)) = Speech.status (speech s) /\
  Speech.commands (speech (refine_return fn s)) = Speech.commands (speech s) /\
  lastTextLengthRef (refine_return fn s) = lastTextLengthRef s /\
  lastRequestTimeRef (refine_return fn s) = lastRequestTimeRef s.
Proof.
  unfold refine_return, refine_settle.
  destruct (outcome _) as [[t|]|e]; try (now repeat split).
  destruct (truthy t); now repeat split.
Qed.

Lemma velocity_tick_speech s : speech (velocity_tick s) = speech s.
Proof. unfold velocity_tick. now destruct (Speech.status_eqb _ _). Qed.

(** What one event can do to the recogniser when no restart timer is
    pending: nothing, or a stop. *)
Lemma apply_not_recording e s :
  is_start e = false ->
  Speech.status (speech s) <> Speech.RECORDING ->
  Speech.pendingRestarts (speech s) = 0%nat ->
  Speech.status (speech (apply e s)) <> Speech.RECORDING /\
  Speech.pendingRestarts (speech (apply e s)) = 0%nat /\
  (Speech.commands (speech (apply e s)) = Speech.commands (speech s) \/
   Speech.commands (speech (apply e s)) =
     Speech.commands (speech s) ++ [Speech.CmdStop]).
Proof.
  intros He Hst Hp.
  assert (Hb : Speech.status_eqb (Speech.status (speech s)) Speech.RECORDING = false)
    by (destruct (Speech.status (speech s)); try reflexivity; now destruct Hst).
  destruct e as [ | | | results | code | | | | | | fn | b now | k res | ].
  - discriminate He.
  - cbn. split; [discriminate | split; [exact Hp | now right]].
  - cbn. split; [discriminate | split; [exact Hp | now right]].
  - cbn [apply]. unfold on_speech, Speech.onresult.
    destruct (truthy (Speech.finalChunk_of results)); split; auto.
  - cbn [apply]. unfold on_speech, Speech.onerror.
    cbn [speech set_speech Speech.status Speech.set_error].
    rewrite Hb. cbn [andb]. split; auto.
  - cbn [apply]. unfold on_speech, Speech.onend. cbn [speech set_speech].
    rewrite Hb. split; auto.
  - cbn [apply]. unfold on_speech, Speech.on_restart_timer.
    cbn [speech set_speech]. rewrite Hp. split; auto.
  - cbn [apply]. unfold on_speech, Speech.on_silence_timeout, Speech.silence_timer_armed.
    cbn [speech set_speech]. rewrite Hb. cbn [andb]. split; auto.
  - cbn [apply]. rewrite velocity_tick_speech. split; auto.
  - cbn [apply]. destruct (refine_call_state s) as [-> | ->]; split; auto.
  - cbn [apply]. destruct (refiningInProgressRef s); [|split; auto].
    unfold refine_return, refine_settle.
    destruct (outcome _) as [[t|]|err]; [|split; auto..].
    destruct (truthy t); split; auto.
  - destruct (translate_call_frame b now s) as (-> & _). split; auto.
  - destruct (translate_return_frame k res s) as (-> & _). split; auto.
  - cbn. split; auto.
Qed.

Lemma run_not_recording es : forall s,
  Speech.status (speech s) <> Speech.RECORDING ->
  Speech.pendingRestarts (speech s) = 0%nat ->
  without is_start es = true ->
  Speech.status (speech (run es s)) <> Speech.RECORDING /\
  exists k, Speech.commands (speech (run es s)) =
            Speech.commands (speech s) ++ repeat Speech.CmdStop k.
Proof.
  induction es as [|e es IH]; intros s Hst Hp Hes.
  - split; [exact Hst|]. exists 0%nat. cbn. now rewrite app_nil_r.
  - cbn [without forallb] in Hes. apply andb_true_iff in Hes as [He Hes].
    apply negb_true_iff in He.
    destruct (apply_not_recording e s He Hst Hp) as (Hst' & Hp' & Hcmd).
    destruct (IH (apply e s) Hst' Hp' Hes) as [Hfin (k & Hk)].
    change (run (e :: es) s) with (run es (apply e s)). split; [exact Hfin|].
    destruct Hcmd as [E|E]; rewrite E in Hk.
    + now exists k.
    + exists (S k). rewrite Hk, <- app_assoc. reflexivity.
Qed.

(** X4: a recogniser that is not recording is started again only by a
    restart timer that an error left behind.  From a state that is paused,
    stopped or idle with no such timer pending, whatever results, errors,
    end events, timers and pipeline events follow, as long as the user does
    not press start, the status never becomes [RECORDING] and the only
    requests sent to the recogniser are stops.  The timer is needed for
    this: after an error while recording (fewer than three in a row) and a
    pause, the timer that the error handler has set fires all the same and
    starts the recogniser while the status is [PAUSED]. *)
Theorem stopped_recogniser_is_not_restarted :
  (forall es s,
     Speech.status (speech s) <> Speech.RECORDING ->
     Speech.pendingRestarts (speech s) = 0%nat ->
     without is_start es = true ->
     Speech.status (speech (run es s)) <> Speech.RECORDING /\
     exists k, Speech.commands (speech (run es s)) =
               Speech.commands (speech s) ++ repeat Speech.CmdStop k) /\
  (forall code s,
     Speech.status (speech s) = Speech.RECORDING ->
     Speech.restartCount (speech s) < 3 ->
     let s' := run [RecognitionError code; Pause; RestartTimer] s in
     Speech.status (speech s') = Speech.PAUSED /\
     Speech.commands (speech s') =
       Speech.commands (speech s) ++
       [Speech.CmdStartAfter 500; Speech.CmdStop; Speech.CmdStart]).
Proof.
  split; [exact (fun es s => run_not_recording es s)|].
  intros code s Hrec Hcount s'.
  assert (E : exists err,
            Speech.onerror code (speech s) =
            Speech.send_after 500
              (Speech.set_restartCount (Speech.restartCount (speech s) + 1)
                 (Speech.set_error err (speech s)))).
  { exists (Speech.error (Speech.onerror code (speech s))).
    rewrite (onerror_recording code (speech s) Hrec) at 1. cbn zeta.
    now replace (Speech.restartCount (speech s) <? 3) with true
      by (symmetry; apply Z.ltb_lt; exact Hcount). }
  destruct E as (err & E).
  unfold s'. cbn [run fold_left apply]. unfold on_speech. cbn [speech set_speech].
  rewrite E. cbn. rewrite <- !app_assoc. split; reflexivity.
Qed.

Lemma stopped_recogniser_witness :
  (let s' := run [RecognitionError "network"; RecognitionEnd; RestartTimer;
                  Result [(true, lit "late words")]; SilenceTimeout; Stop]
               (apply Pause (apply Start (initial true))) in
   Speech.status (speech s') <> Speech.RECORDING /\
   exists k, Speech.commands (speech s') =
             [Speech.CmdStart; Speech.CmdStop] ++ repeat Speech.CmdStop k) /\
  (let s' := run [RecognitionError "network"; Pause; RestartTimer]
               (apply Start (initial true)) in
   Speech.status (speech s') = Speech.PAUSED /\
   Speech.commands (speech s') =
     [Speech.CmdStart] ++
     [Speech.CmdStartAfter 500; Speech.CmdStop; Speech.CmdStart]).
Proof.
  split.
  - apply (proj1 stopped_recogniser_is_not_restarted
             [RecognitionError "network"; RecognitionEnd; RestartTimer;
              Result [(true, lit "late words")]; SilenceTimeout; Stop]
             (apply Pause (apply Start (initial true))));
      [discriminate | reflexivity | reflexivity].
  - apply (proj2 stopped_recogniser_is_not_restarted "network"%string
             (apply Start (initial true))); [reflexivity | reflexivity].
Defined.

Lemma refining_flag_frame e s :
  is_refine_return e = false ->
  refiningInProgressRef s = true ->
  refiningInProgressRef (apply e s) = true.
Proof.
  intros He Hf.
  destruct e as [ | | | results | code | | | | | | fn | b now | k res | ]; cbn [apply];
    try exact Hf.
  - destruct (velocity_tick_frame s) as (_ & _ & -> & _). exact Hf.
  - destruct (refine_call_state s) as [-> | ->]; [exact Hf | reflexivity].
  - discriminate He.
  - destruct (translate_call_frame b now s) as (_ & _ & H & _).
    cbn zeta in H. cbn [apply] in H. now rewrite H.
  - destruct (translate_return_frame k res s) as (_ & _ & H & _).
    cbn zeta in H. cbn [apply] in H. now rewrite H.
Qed.

(** X5: the refinement stage is single flight.  Once a call has submitted a
    chunk, whatever happens before its request settles, a further call
    submits nothing and changes nothing. *)
Theorem refinement_single_flight (es : list event) (s : state) (chunk : str) :
  fst (refine_call s) = Some chunk ->
  without is_refine_return es = true ->
  let s' := run es (snd (refine_call s)) in
  refiningInProgressRef s' = true /\
  refine_call s' = (None, s').
Proof.
  intros Hcall Hes s'.
  assert (Hflag : refiningInProgressRef (snd (refine_call s)) = true).
  { unfold refine_call in *.
    destruct (negb (API_KEY s) || refiningInProgressRef s); [discriminate|].
    destruct (length _ <? _); [discriminate | reflexivity]. }
  assert (Hrun : forall l t, without is_refine_return l = true ->
                 refiningInProgressRef t = true ->
                 refiningInProgressRef (run l t) = true).
  { induction l as [|e l IH]; intros t Hl Ht; [exact Ht|].
    cbn [without forallb] in Hl. apply andb_true_iff in Hl as [He Hl].
    apply negb_true_iff in He. cbn [run fold_left]. apply IH; [exact Hl|].
    now apply refining_flag_frame. }
  specialize (Hrun es _ Hes Hflag). fold s' in Hrun.
  split; [exact Hrun|]. unfold refine_call. rewrite Hrun.
  now rewrite orb_true_r.
Qed.

Lemma refinement_single_flight_witness :
  refine_call in_flight_session = (None, in_flight_session).
Proof.
  exact (proj2 (refinement_single_flight
                  [Result [(true, lit "and more words")]]
                  (run [Start; Result [(true, first_unit)]] (initial true))
                  (lit "The quick brown fox jumps over the lazy dog today")
                  eq_refl eq_refl)).
Defined.

End PipelineExtras.

Section StageExtras.
Import App.

Lemma refine_call_congr s s' :
  API_KEY s' = API_KEY s ->
  refiningInProgressRef s' = refiningInProgressRef s ->
  text s' = text s -> refinedRef s' = refinedRef s ->
  velocityRef s' = velocityRef s ->
  fst (refine_call s') = fst (refine_call s).
Proof.
  intros H1 H2 H3 H4 H5. unfold refine_call. rewrite H1, H2, H3, H4, H5.
  destruct (negb (API_KEY s) || refiningInProgressRef s); [reflexivity|].
  now destruct (length _ <? _).
Qed.

Lemma refine_settle_unsuccessful o s :
  unsuccessful o = true -> refine_settle o s = set_refining false s.
Proof.
  destruct o as [[t|]|e]; try reflexivity.
  cbn [unsuccessful]. intros H. apply negb_true_iff in H.
  unfold refine_settle. now rewrite H.
Qed.

(** X6: a refinement that fails can be tried again as it was.  When the
    awaited request ends without a usable text (a rejection that the retry
    wrapper passes on, a response without text, an empty text), the source
    buffer, both watermarks and the translated buffer are what they were
    before the call, the single-flight flag is released, and the next call
    submits the same chunk. *)
Theorem refinement_failure_is_retryable
    (fn : nat -> api_outcome) (s : state) (chunk : str) :
  fst (refine_call s) = Some chunk ->
  unsuccessful (outcome (retryWithBackoff fn 0 DEFAULT_RETRIES DEFAULT_DELAY)) = true ->
  let s' := refine_return fn (snd (refine_call s)) in
  text s' = text s /\
  refinedRef s' = refinedRef s /\
  processedRef s' = processedRef s /\
  translatedText s' = translatedText s /\
  refiningInProgressRef s' = false /\
  fst (refine_call s') = Some chunk.
Proof.
  intros Hcall Hfail s'.
  assert (Hs : snd (refine_call s) = set_refining true s /\
               refiningInProgressRef s = false).
  { unfold refine_call in *.
    destruct (API_KEY s); cbn [negb orb] in *; [|discriminate].
    destruct (refiningInProgressRef s); [discriminate|].
    destruct (length _ <? _); [discriminate | now split]. }
  destruct Hs as [Hs Hflag].
  assert (E : s' = set_refining false (set_refining true s)).
  { unfold s', refine_return. rewrite Hs. now apply refine_settle_unsuccessful. }
  rewrite E. repeat split.
  rewrite <- Hcall. apply refine_call_congr; try reflexivity.
  now rewrite Hflag.
Qed.

Lemma refinement_failure_witness :
  let s := run [Start; Result [(true, first_unit)]] (initial true) in
  let s' := refine_return always_limited (snd (refine_call s)) in
  text s' = text s /\ refinedRef s' = refinedRef s /\
  processedRef s' = processedRef s /\ translatedText s' = translatedText s /\
  refiningInProgressRef s' = false /\
  fst (refine_call s') =
    Some (lit "The quick brown fox jumps over the lazy dog today").
Proof.
  exact (refinement_failure_is_retryable always_limited
           (run [Start; Result [(true, first_unit)]] (initial true))
           (lit "The quick brown fox jumps over the lazy dog today")
           eq_refl eq_refl).
Defined.

(** X7: a corrected text of white space only deletes the pending text.
    Such a text is truthy, so the splice runs, with nothing to put after the
    refined prefix: the buffer becomes that prefix alone when it is empty or
    ends in a newline, and that prefix and one space otherwise; the
    watermark is at its end.  All source text beyond the old watermark is
    gone. *)
Theorem blank_correction_erases_pending (t : str) (s : state) :
  truthy t = true ->
  trim t = [] ->
  0 <= refinedRef s <= length (text s) ->
  let head := firstn (Z.to_nat (refinedRef s)) (text s) in
  let s' := refine_settle (Resolved (Some t)) s in
  (head = [] \/ (exists h, head = h ++ [nl]) -> text s' = head) /\
  (head <> [] -> (forall h, head <> h ++ [nl]) -> text s' = head ++ [space]) /\
  refinedRef s' = length (text s') /\
  length (text s') <= refinedRef s + 1.
Proof.
  intros Ht Hblank Hr head s'.
  destruct (splice_text (trim t) s Hr) as [Etext Eref].
  fold head in Etext, Eref. rewrite Hblank, app_nil_r in Etext, Eref.
  assert (Es : text s' = text (splice (trim t) s) /\
               refinedRef s' = refinedRef (splice (trim t) s))
    by (unfold s'; now rewrite refine_settle_success).
  destruct Es as [-> ->]. rewrite Hblank, Etext, Eref.
  assert (Hlen : List.length head = Z.to_nat (refinedRef s))
    by (apply firstn_length_le; unfold length in Hr; lia).
  destruct (splice_separator head) as [Hnone Hspace].
  split; [intros H; now rewrite (Hnone H), app_nil_r|].
  split; [intros H1 H2; now rewrite (Hspace H1 H2)|].
  split; [reflexivity|].
  destruct (endsWith head [nl] || negb (truthy head));
    unfold length; rewrite length_app; cbn [List.length]; lia.
Qed.

Lemma blank_correction_witness :
  let s := apply (RefineReturn corrected_once) refinement_called in
  let called := set_refining true
                  (on_speech (Speech.onresult [(true, lit "and more words")]) s) in
  let s' := refine_settle (Resolved (Some [space])) called in
  text called = corrected_unit ++ lit " And more words" /\
  text s' = corrected_unit ++ [space] /\
  text (refine_settle (Resolved (Some [space])) in_flight_session) = [].
Proof.
  intros s called s'.
  assert (Hc : text called = corrected_unit ++ lit " And more words")
    by (vm_compute; reflexivity).
  split; [exact Hc|]. split.
  - apply (proj1 (proj2 (blank_correction_erases_pending [space] called
                           eq_refl eq_refl
                           ltac:(vm_compute; split; discriminate)))).
    + vm_compute. discriminate.
    + intros h E. vm_compute in E.
      apply (f_equal (@rev ascii)) in E. rewrite rev_app_distr in E.
      vm_compute in E. discriminate E.
  - apply (proj1 (blank_correction_erases_pending [space] in_flight_session
                    eq_refl eq_refl (conj (Z.le_refl 0) (Zle_0_nat _)))).
    now left.
Defined.

(** X8: the refined watermark never moves back, except on a clear.  In every
    state that the pipeline reaches from the empty session, no event other
    than the explicit clear lowers [refinedRef]. *)
Theorem refined_watermark_is_monotone (es : list event) (key : bool) (e : event) :
  is_clear e = false ->
  let s := run es (initial key) in
  refinedRef s <= refinedRef (apply e s).
Proof.
  intros He s.
  assert (Hinv : text_invariant s)
    by (apply text_invariant_run, text_invariant_initial).
  destruct e as [ | | | results | code | | | | | | fn | b now | k res | ]; cbn [apply];
    try apply Z.le_refl.
  - destruct (velocity_tick_frame s) as (_ & -> & _). apply Z.le_refl.
  - destruct (refine_call_frame s) as [_ ->]. apply Z.le_refl.
  - destruct (refiningInProgressRef s) eqn:Ef; [|apply Z.le_refl].
    now destruct (text_invariant_refine_settle
                    (outcome (retryWithBackoff fn 0 DEFAULT_RETRIES DEFAULT_DELAY))
                    s Hinv Ef) as (_ & Hle & _).
  - destruct (translate_call_frame b now s) as (_ & H & _).
    cbn zeta in H. cbn [apply] in H. rewrite H. apply Z.le_refl.
  - destruct (translate_return_frame k res s) as (_ & H & _).
    cbn zeta in H. cbn [apply] in H. rewrite H. apply Z.le_refl.
  - discriminate He.
Qed.

Lemma refined_watermark_witness :
  refinedRef in_flight_session <=
  refinedRef (apply (RefineReturn corrected_once) in_flight_session).
Proof.
  exact (refined_watermark_is_monotone
           [Start; Result [(true, first_unit)]; RefineCall;
            Result [(true, lit "and more words")]]
           true (RefineReturn corrected_once) eq_refl).
Defined.

Lemma slice_nonempty t a b :
  slice t a b <> [] -> 0 <= a -> 0 <= b -> a < b.
Proof.
  unfold slice. intros H Ha Hb.
  replace (a <? 0) with false in H by (symmetry; apply Z.ltb_ge; lia).
  replace (b <? 0) with false in H by (symmetry; apply Z.ltb_ge; lia).
  destruct (Z_lt_ge_dec a b) as [Hlt|Hge]; [exact Hlt|].
  destruct H.
  replace (Z.to_nat (Z.min b (length t) - Z.min a (length t))) with 0%nat by lia.
  reflexivity.
Qed.

Lemma refine_settle_translation res s :
  processedRef (refine_settle res s) = processedRef s /\
  outstanding (refine_settle res s) = outstanding s /\
  translatingRef (refine_settle res s) = translatingRef s.
Proof.
  destruct res as [[t|]|e]; try (now repeat split).
  unfold refine_settle. destruct (truthy t); now repeat split.
Qed.

(** One event of a run without batch calls: the translated watermark stays
    or moves forward, unless the event is the clear, and there is still at
    most one request outstanding. *)
Lemma incremental_apply e s :
  is_batch e = false ->
  0 <= refinedRef s ->
  0 <= processedRef s ->
  incremental_flight s ->
  (is_clear e = false -> processedRef s <= processedRef (apply e s)) /\
  0 <= processedRef (apply e s) /\
  incremental_flight (apply e s).
Proof.
  intros He Hr Hp Hfl.
  destruct e as [ | | | results | code | | | | | | fn | b now | k res | ];
    try (split; [intros _; apply Z.le_refl | split; [exact Hp | exact Hfl]]).
  - cbn [apply]. unfold velocity_tick.
    destruct (Speech.status_eqb _ _); (split; [intros _; apply Z.le_refl | now split]).
  - cbn [apply].
    destruct (refine_call_state s) as [-> | ->];
      (split; [intros _; apply Z.le_refl | now split]).
  - cbn [apply]. destruct (refiningInProgressRef s);
      [|split; [intros _; apply Z.le_refl | now split]].
    unfold refine_return.
    destruct (refine_settle_translation
                (outcome (retryWithBackoff fn 0 DEFAULT_RETRIES DEFAULT_DELAY)) s)
      as (E1 & E2 & E3).
    unfold incremental_flight. rewrite E1, E2, E3.
    split; [intros _; apply Z.le_refl | now split].
  - destruct b; [discriminate He|].
    destruct (translate_call_cases false now s) as [-> | (req & Hcall & ->)];
      [split; [intros _; apply Z.le_refl | now split]|].
    split; [intros _; apply Z.le_refl|]. split; [exact Hp|].
    destruct (performTranslation_call_called _ _ _ _ _ Hcall)
      as (_ & Hgate & Ereq & Hne & _).
    destruct Hgate as [Hgate | [Hflag _]]; [discriminate Hgate|].
    assert (Hnil : outstanding s = []).
    { destruct Hfl as [Hnil | (r & _ & Ht & _)]; [exact Hnil | congruence]. }
    right. exists req. split; [|split; [reflexivity|]].
    + change (outstanding s ++ [req] = [req]). now rewrite Hnil.
    + rewrite Ereq. cbn [endIdx].
      change (0 <= refinedRef s /\ processedRef s <= refinedRef s).
      split; [exact Hr|]. apply Z.lt_le_incl.
      apply (slice_nonempty (text s)); [|exact Hp | exact Hr].
      rewrite Ereq in Hne. cbn [chunk] in Hne. intros E. now rewrite E in Hne.
  - destruct (translate_return_cases k res s) as [-> | (req & Hnth & ->)];
      [split; [intros _; apply Z.le_refl | now split]|].
    destruct Hfl as [Hnil | (r & Hone & Ht & H0 & Hle)];
      [rewrite Hnil in Hnth; now destruct k|].
    rewrite Hone in Hnth.
    destruct k as [|k]; [|now destruct k]. cbn in Hnth. inversion Hnth; subst req.
    destruct (performTranslation_return_fields r res (settled 0 s))
      as (_ & _ & _ & _ & _ & Ho & _ & Hpr).
    change (processedRef (settled 0 s)) with (processedRef s) in Hpr.
    split; [intros _; destruct Hpr as [-> | ->]; lia|].
    split; [destruct Hpr as [-> | ->]; lia|].
    left. rewrite Ho. unfold settled. cbn [outstanding set_outstanding].
    now rewrite Hone.
  - split; [discriminate|]. split; [cbn; lia|].
    destruct Hfl as [Hnil | (r & Hone & Ht & H0 & Hle)]; [now left | right].
    exists r. repeat split; try assumption.
Qed.

Lemma incremental_run es : forall s,
  without is_batch es = true ->
  text_invariant s ->
  0 <= processedRef s ->
  incremental_flight s ->
  text_invariant (run es s) /\ 0 <= processedRef (run es s) /\
  incremental_flight (run es s).
Proof.
  induction es as [|e es IH]; intros s Hes Hinv Hp Hfl;
    [split; [exact Hinv | split; [exact Hp | exact Hfl]]|].
  cbn [without forallb] in Hes. apply andb_true_iff in Hes as [He Hes].
  apply negb_true_iff in He.
  destruct (incremental_apply e s He (proj1 Hinv) Hp Hfl) as (_ & Hp' & Hfl').
  cbn [run fold_left]. apply IH; try assumption.
  now apply text_invariant_apply.
Qed.

(** X9: without batch calls the translated watermark never moves back,
    except on a clear.  In every run from the empty session that holds no
    batch call, incremental requests are outstanding one at a time, each
    ends at the refined watermark of its call, which is beyond the
    translated watermark, and no event other than the explicit clear lowers
    [processedRef], whatever runs between a call and its response. *)
Theorem translated_watermark_is_monotone
    (es : list event) (key : bool) (e : event) :
  without is_batch (es ++ [e]) = true ->
  is_clear e = false ->
  let s := run es (initial key) in
  processedRef s <= processedRef (apply e s).
Proof.
  intros Hadm He s.
  unfold without in Hadm. rewrite forallb_app in Hadm.
  apply andb_true_iff in Hadm as [Hes Hb]. cbn [forallb] in Hb.
  rewrite andb_true_r in Hb. apply negb_true_iff in Hb.
  destruct (incremental_run es (initial key) Hes (text_invariant_initial key))
    as (Hinv & Hp & Hfl); [cbn; lia | now left |].
  fold s in Hinv, Hp, Hfl.
  now apply (incremental_apply e s Hb (proj1 Hinv) Hp Hfl).
Qed.

Lemma translated_watermark_witness :
  let es := [Start; Result [(true, first_unit)]; RefineCall;
             RefineReturn corrected_once; TranslateCall false 1000;
             Result [(true, lit "and more words")]] in
  let e := TranslateReturn 0 (Resolved (Some (lit "Con cao nau nhanh nhen."))) in
  processedRef (run es (initial true)) <=
  processedRef (apply e (run es (initial true))).
Proof.
  intros es e.
  apply (translated_watermark_is_monotone es true e);
    vm_compute; reflexivity.
Defined.

End StageExtras.

Section TranslationExtras.
Import App.

Lemma slice_same t a : slice t a a = [].
Proof. unfold slice. now rewrite Z.sub_diag. Qed.

Lemma performTranslation_call_issue b now s :
  API_KEY s = true ->
  (b = true \/ (translatingRef s = false /\ minIntervalRef <= now - lastRequestTimeRef s)) ->
  let stop := if b then length (text s) else refinedRef s in
  trim (slice (text s) (processedRef s) stop) <> [] ->
  fst (performTranslation_call b now s) =
  Called {| isBatchRequest := b;
            chunk := slice (text s) (processedRef s) stop;
            endIdx := stop |}.
Proof.
  intros Hkey Hgate stop Hne. unfold performTranslation_call, performTranslation_of. rewrite Hkey.
  cbn [negb orb].
  assert (Eg : translatingRef s && negb b = false).
  { destruct Hgate as [-> | [-> _]]; [apply andb_false_r | reflexivity]. }
  assert (Er : negb b && (now - lastRequestTimeRef s <? minIntervalRef) = false).
  { destruct Hgate as [-> | [_ H]]; [reflexivity|].
    apply andb_false_iff. right. now apply Z.ltb_ge. }
  rewrite Eg, Er. fold stop. rewrite length_eqb_0.
  apply truthy_nonempty in Hne. now rewrite Hne.
Qed.

Lemma performTranslation_return_frame req res s :
  let s' := performTranslation_return req res s in
  text s' = text s /\ refinedRef s' = refinedRef s /\
  API_KEY s' = API_KEY s /\ translatingRef s' = false /\
  lastRequestTimeRef s' = lastRequestTimeRef s.
Proof.
  unfold performTranslation_return.
  destruct res as [[t|]|e]; try (now repeat split).
  destruct (truthy t); [|now repeat split].
  destruct (truthy (trim t)); now repeat split.
Qed.

(** X10: incremental requests keep their distance.  An incremental call
    that comes less than 500 ms after the last request (of either mode) is
    put off by the rest of the interval and 10 ms, with the state untouched;
    hence an incremental request that is issued after another request comes
    at least 500 ms after it.  A batch call is never put off. *)
Theorem translation_minimum_interval :
  (forall s now,
     API_KEY s = true -> translatingRef s = false ->
     now - lastRequestTimeRef s < 500 ->
     performTranslation_call false now s =
     (Rescheduled (500 - (now - lastRequestTimeRef s) + 10), s)) /\
  (forall b now s req s1 res now' req',
     performTranslation_call b now s = (Called req, s1) ->
     fst (performTranslation_call false now' (performTranslation_return req res s1))
       = Called req' ->
     now + 500 <= now') /\
  (forall now s ms, fst (performTranslation_call true now s) <> Rescheduled ms).
Proof.
  split; [|split].
  - intros s now Hkey Hflag Hlt. unfold performTranslation_call, performTranslation_of.
    rewrite Hkey, Hflag. cbn [negb orb andb].
    unfold minIntervalRef.
    now replace (now - lastRequestTimeRef s <? 500) with true
      by (symmetry; apply Z.ltb_lt; lia).
  - intros b now s req s1 res now' req' Hcall Hnext.
    destruct (performTranslation_call_called _ _ _ _ _ Hcall) as (_ & _ & _ & _ & ->).
    destruct (performTranslation_call false now' _) as [r s2] eqn:E2.
    cbn [fst] in Hnext. subst r.
    destruct (performTranslation_call_called _ _ _ _ _ E2) as (_ & [H|[_ H]] & _);
      [discriminate|].
    destruct (performTranslation_return_frame req res
                (set_lastRequestTimeRef now (set_translating true s)))
      as (_ & _ & _ & _ & Elast).
    cbn zeta in Elast. rewrite Elast in H. cbn [lastRequestTimeRef set_lastRequestTimeRef] in H.
    unfold minIntervalRef in H. lia.
  - intros now s ms. unfold performTranslation_call, performTranslation_of.
    destruct (negb (API_KEY s) || translatingRef s && negb true); [discriminate|].
    cbn [negb andb]. destruct (length (trim _) =? 0); discriminate.
Qed.

Lemma translation_minimum_interval_witness :
  let e := {| err_status := Some 500; err_message := None |} in
  let req := {| isBatchRequest := false; chunk := corrected_unit; endIdx := 50 |} in
  let s1 := set_lastRequestTimeRef 1000 (set_translating true edited_translation) in
  performTranslation_call false 1000 edited_translation = (Called req, s1) /\
  fst (performTranslation_call false 1500 (performTranslation_return req (Rejected e) s1))
    = Called req /\
  1000 + 500 <= 1500.
Proof.
  intros e req s1.
  assert (H1 : performTranslation_call false 1000 edited_translation = (Called req, s1))
    by (vm_compute; reflexivity).
  assert (H2 : fst (performTranslation_call false 1500
                      (performTranslation_return req (Rejected e) s1)) = Called req)
    by (vm_compute; reflexivity).
  split; [exact H1|]. split; [exact H2|].
  exact (proj1 (proj2 translation_minimum_interval)
           false 1000 edited_translation req s1 (Rejected e) 1500 req H1 H2).
Defined.

(** X11: a translation that fails can be tried again as it was.  When the
    awaited request is rejected, the error message is set and nothing else
    moves: source buffer, translated buffer and both watermarks are what
    they were, the flag is released, and the next call of the same mode
    (500 ms later, for the incremental mode) submits the same slice. *)
Theorem translation_failure_is_retryable
    (b : bool) (now now' : Z) (e : js_error) (s s1 : state) (req : request) :
  performTranslation_call b now s = (Called req, s1) ->
  b = true \/ now + 500 <= now' ->
  let s' := performTranslation_return req (Rejected e) s1 in
  aiError s' = Some BUSY_MESSAGE /\
  text s' = text s /\
  translatedText s' = translatedText s /\
  processedRef s' = processedRef s /\
  refinedRef s' = refinedRef s /\
  translatingRef s' = false /\
  fst (performTranslation_call b now' s') = Called req.
Proof.
  intros Hcall Hlater s'.
  destruct (performTranslation_call_called _ _ _ _ _ Hcall)
    as (Hkey & _ & Hreq & Hne & ->).
  repeat split.
  rewrite Hreq in Hne |- *. cbn [chunk] in Hne.
  apply (performTranslation_call_issue b now' s'); [exact Hkey| |exact Hne].
  destruct Hlater as [-> | H]; [now left | right].
  split; [reflexivity|].
  change (lastRequestTimeRef s') with now. unfold minIntervalRef. lia.
Qed.

Lemma translation_failure_witness :
  let s := hello_world_session in
  let req := {| isBatchRequest := true; chunk := lit "Hello. World."; endIdx := 13 |} in
  let s' := performTranslation_return req (Rejected {| err_status := Some 503; err_message := None |})
              (set_lastRequestTimeRef 1000 (set_translating true s)) in
  aiError s' = Some BUSY_MESSAGE /\ text s' = text s /\
  translatedText s' = translatedText s /\ processedRef s' = processedRef s /\
  refinedRef s' = refinedRef s /\ translatingRef s' = false /\
  fst (performTranslation_call true 1001 s') = Called req.
Proof.
  exact (translation_failure_is_retryable true 1000 1001
           {| err_status := Some 503; err_message := None |}
           hello_world_session _ _ eq_refl (or_introl eq_refl)).
Defined.

(** X12: text that has been translated is not sent again.  After a request
    whose response is non-empty, the watermark is at the end of the slice
    that was sent, and a further call of the same mode, at any time, submits
    nothing. *)
Theorem translated_text_is_not_sent_again
    (b : bool) (now : Z) (t : str) (s s1 : state) (req : request) :
  performTranslation_call b now s = (Called req, s1) ->
  trim t <> [] ->
  let s' := performTranslation_return req (Resolved (Some t)) s1 in
  processedRef s' = endIdx req /\
  forall now' req', fst (performTranslation_call b now' s') <> Called req'.
Proof.
  intros Hcall Ht s'.
  destruct (performTranslation_call_called _ _ _ _ _ Hcall)
    as (Hkey & _ & Hreq & _ & ->).
  assert (Hp : processedRef s' = endIdx req)
    by (unfold s'; now rewrite performTranslation_return_success).
  split; [exact Hp|]. intros now' req' Hnext.
  destruct (performTranslation_call b now' s') as [r s2] eqn:E2.
  cbn [fst] in Hnext. subst r.
  destruct (performTranslation_call_called _ _ _ _ _ E2) as (_ & _ & Hreq' & Hne & _).
  apply Hne. rewrite Hreq'. cbn [chunk]. rewrite Hp, Hreq. cbn [endIdx].
  destruct (performTranslation_return_frame req (Resolved (Some t))
              (set_lastRequestTimeRef now (set_translating true s)))
    as (Et & Er & _).
  cbn zeta in Et, Er. fold s' in Et, Er. rewrite Et, Er.
  change (text (set_lastRequestTimeRef now (set_translating true s))) with (text s).
  change (refinedRef (set_lastRequestTimeRef now (set_translating true s)))
    with (refinedRef s).
  destruct b; now rewrite slice_same.
Qed.

Lemma translated_text_witness :
  let req := {| isBatchRequest := true; chunk := lit "Hello. World."; endIdx := 13 |} in
  let s' := performTranslation_return req (Resolved (Some (lit "Xin chao.")))
              (set_lastRequestTimeRef 1000 (set_translating true hello_world_session)) in
  processedRef s' = 13 /\
  forall now' req', fst (performTranslation_call true now' s') <> Called req'.
Proof.
  apply (translated_text_is_not_sent_again true 1000 (lit "Xin chao.")
           hello_world_session); [reflexivity | vm_compute; discriminate].
Defined.

End TranslationExtras.

(** ** Velocity and triggers *)

Section VelocityExtras.
Import App.

Lemma lastTextLength_frame e s :
  is_tick e = false -> lastTextLengthRef (apply e s) = lastTextLengthRef s.
Proof.
  intros He.
  destruct e as [ | | | results | code | | | | | | fn | b now | k res | ]; cbn [apply];
    try reflexivity.
  - discriminate He.
  - now destruct (refine_call_state s) as [-> | ->].
  - destruct (refiningInProgressRef s); [|reflexivity].
    now destruct (refine_return_text_frame fn s) as (_ & _ & -> & _).
  - destruct (translate_call_frame b now s) as (_ & _ & _ & _ & H).
    cbn zeta in H. cbn [apply] in H. exact H.
  - destruct (translate_return_frame k res s) as (_ & _ & _ & H).
    cbn zeta in H. cbn [apply] in H. exact H.
Qed.

Lemma lastTextLength_run es : forall s,
  without is_tick es = true -> lastTextLengthRef (run es s) = lastTextLengthRef s.
Proof.
  induction es as [|e es IH]; intros s Hes; [reflexivity|].
  cbn [without forallb] in Hes. apply andb_true_iff in Hes as [He Hes].
  apply negb_true_iff in He. cbn [run fold_left].
  fold (run es (apply e s)). rewrite IH by assumption.
  now apply lastTextLength_frame.
Qed.

(** X13: the velocity is the growth of the buffer between two ticks.  With
    the hook recording at both ticks and any events but ticks in between,
    the second tick sets [velocityRef] to the length of the buffer now less
    its length at the first tick (negative after a clear or a shorter
    correction), and remembers the length now. *)
Theorem velocity_measures_growth (es : list event) (s : state) :
  Speech.status (speech s) = Speech.RECORDING ->
  without is_tick es = true ->
  let s1 := run es (apply VelocityTick s) in
  Speech.status (speech s1) = Speech.RECORDING ->
  velocityRef (apply VelocityTick s1) = length (text s1) - length (text s) /\
  lastTextLengthRef (apply VelocityTick s1) = length (text s1).
Proof.
  intros Hrec Hes s1 Hrec1.
  assert (Hlast : lastTextLengthRef s1 = length (text s)).
  { unfold s1. rewrite lastTextLength_run by assumption.
    cbn [apply]. unfold velocity_tick. now rewrite Hrec. }
  cbn [apply]. unfold velocity_tick. rewrite Hrec1. cbn [Speech.status_eqb].
  cbn [velocityRef lastTextLengthRef set_velocity]. now rewrite Hlast.
Qed.

Lemma velocity_measures_growth_witness :
  let s := apply Start (initial true) in
  let s1 := run [Result [(true, lit "hello world")]] (apply VelocityTick s) in
  velocityRef (apply VelocityTick s1) = length (text s1) - length (text s) /\
  lastTextLengthRef (apply VelocityTick s1) = length (text s1).
Proof.
  exact (velocity_measures_growth [Result [(true, lit "hello world")]]
           (apply Start (initial true)) eq_refl eq_refl eq_refl).
Defined.

Lemma trimStart_length s : (List.length (trimStart s) <= List.length s)%nat.
Proof.
  destruct (trimStart_decomp s) as (w & E & _).
  rewrite E at 2. rewrite length_app. lia.
Qed.

Lemma trim_length s : (List.length (trim s) <= List.length s)%nat.
Proof.
  unfold trim. pose proof (trimEnd_length (trimStart s)).
  pose proof (trimStart_length s). lia.
Qed.

Lemma eqb_refl (a : str) : JS.eqb a a = true.
Proof.
  induction a as [|c a IH]; [reflexivity|].
  cbn [JS.eqb]. now rewrite Ascii.eqb_refl, IH.
Qed.

Lemma refine_return_unsuccessful fn s chunk :
  fst (refine_call s) = Some chunk ->
  unsuccessful (outcome (retryWithBackoff fn 0 DEFAULT_RETRIES DEFAULT_DELAY)) = true ->
  snd (refine_call s) = set_refining true s /\
  refiningInProgressRef s = false /\
  refine_return fn (snd (refine_call s)) = set_refining false (set_refining true s).
Proof.
  intros Hcall Hfail.
  assert (Hs : snd (refine_call s) = set_refining true s /\
               refiningInProgressRef s = false).
  { unfold refine_call in *.
    destruct (API_KEY s); cbn [negb orb] in *; [|discriminate].
    destruct (refiningInProgressRef s); [discriminate|].
    destruct (length _ <? _); [discriminate | now split]. }
  destruct Hs as [Hs Hflag]. split; [exact Hs|]. split; [exact Hflag|].
  unfold refine_return. rewrite Hs. now apply refine_settle_unsuccessful.
Qed.

(** X14: the effect that arms the timers covers every request when it runs,
    and does not run after a refinement that fails.  Outside live and batch
    mode, with the watermarks inside the buffer, a run of the effect (after
    a change of the buffer, the context or a flag) arms the refiner's timer
    (1500 ms) whenever a call of the refiner would submit a chunk, and the
    translator's timer (400 or 800 ms) whenever an incremental call of the
    translator would submit a slice.  A refinement that ends without a
    usable text changes none of the dependencies: the effect does not run,
    no timer is armed, although the next call would submit the same chunk. *)
Theorem trigger_covers_requests :
  (forall prev s : Shell.state,
     Shell.trigger_deps_changed prev s = true ->
     Shell.isAuthenticated s = true ->
     Shell.isLiveMode s = false ->
     Shell.isBatchMode s = false ->
     0 <= refinedRef (Shell.app s) <= length (text (Shell.app s)) ->
     0 <= processedRef (Shell.app s) ->
     exists t,
       Shell.auto_trigger prev s = Some t /\
       (forall chunk,
          fst (refine_call (Shell.app s)) = Some chunk ->
          Shell.refineTimeout t = Some 1500) /\
       (forall now req,
          fst (performTranslation_call false now (Shell.app s)) = Called req ->
          Shell.retryTimeout t = Some 400 \/ Shell.retryTimeout t = Some 800)) /\
  (forall (fn : nat -> api_outcome) (s : Shell.state) (chunk : str),
     fst (refine_call (Shell.app s)) = Some chunk ->
     unsuccessful (outcome (retryWithBackoff fn 0 DEFAULT_RETRIES DEFAULT_DELAY)) = true ->
     let called := Shell.set_app (snd (refine_call (Shell.app s))) s in
     let s' := Shell.set_app (refine_return fn (Shell.app called)) called in
     Shell.auto_trigger called s' = None /\
     fst (refine_call (Shell.app s')) = Some chunk).
Proof.
  split.
  - intros prev s Hrun Hauth Hlive Hbatch Hr Hp.
    unfold Shell.auto_trigger. rewrite Hrun. eexists. split; [reflexivity|].
    unfold Shell.trigger_body. rewrite Hauth, Hlive, Hbatch. cbn [negb orb].
    set (a := Shell.app s) in *. split.
    + intros chunk Hcall. cbn [Shell.refineTimeout].
      unfold refine_call in Hcall.
      destruct (API_KEY a); cbn [negb orb] in Hcall; [|discriminate].
      destruct (refiningInProgressRef a); [discriminate|].
      destruct (length _ <? _) eqn:Egate; [discriminate|].
      cbn [negb andb].
      replace (length (text a) >? refinedRef a + 20) with true; [reflexivity|].
      symmetry. apply Z.gtb_lt. apply Z.ltb_ge in Egate.
      rewrite slice_from_suffix in Egate by assumption.
      pose proof (trim_length (skipn (Z.to_nat (refinedRef a)) (text a))) as Hl.
      rewrite length_skipn in Hl. unfold length in *.
      destruct (velocityRef a >? 30); lia.
    + intros now req Hcall. cbn [Shell.retryTimeout].
      destruct (performTranslation_call false now a) as [r s1] eqn:E.
      cbn [fst] in Hcall. subst r.
      destruct (performTranslation_call_called _ _ _ _ _ E)
        as (_ & [H|[Hflag _]] & Hreq & Hne & _); [discriminate|].
      rewrite Hflag. cbn [negb andb].
      replace (refinedRef a >? processedRef a) with true;
        [destruct (velocityRef a >? 40); auto|].
      symmetry. apply Z.gtb_lt.
      apply (slice_nonempty (text a)); [|exact Hp | apply Hr].
      rewrite Hreq in Hne. cbn [chunk] in Hne. intros E0. now rewrite E0 in Hne.
  - intros fn s chunk Hcall Hfail called s'.
    destruct (refine_return_unsuccessful fn _ chunk Hcall Hfail) as (Hs & Hflag & Hret).
    unfold s', called. cbn [Shell.app Shell.set_app]. rewrite Hret, Hs. split.
    + unfold Shell.auto_trigger, Shell.trigger_deps_changed.
      cbn [Shell.app Shell.set_app Shell.contextDesc Shell.isAuthenticated
           Shell.isLiveMode Shell.isBatchMode].
      change (text (set_refining false (set_refining true (Shell.app s))))
        with (text (set_refining true (Shell.app s))).
      now rewrite !eqb_refl, !Bool.eqb_reflx.
    + rewrite <- Hcall. apply refine_call_congr; try reflexivity.
      now rewrite Hflag.
Qed.

Lemma trigger_covers_requests_witness :
  let prev := Shell.fresh true true Shell.empty_storage in
  let s := Shell.set_app (run [Start; Result [(true, first_unit)]] (initial true))
             prev in
  let called := Shell.set_app (snd (refine_call (Shell.app s))) s in
  let s' := Shell.set_app (refine_return always_limited (Shell.app called)) called in
  (exists t, Shell.auto_trigger prev s = Some t /\
             Shell.refineTimeout t = Some 1500) /\
  Shell.auto_trigger called s' = None /\
  fst (refine_call (Shell.app s')) =
    Some (lit "The quick brown fox jumps over the lazy dog today").
Proof.
  intros prev s called s'.
  destruct (proj1 trigger_covers_requests prev s) as (t & Ht & Hrefine & _);
    try reflexivity; [vm_compute; split; discriminate|].
  split.
  - exists t. split; [exact Ht|].
    apply (Hrefine (lit "The quick brown fox jumps over the lazy dog today")).
    reflexivity.
  - exact (proj2 trigger_covers_requests always_limited s
             (lit "The quick brown fox jumps over the lazy dog today")
             eq_refl eq_refl).
Defined.

End VelocityExtras.


(** ** Sessions *)

Section SessionExtras.
Import Shell.

Lemma or_empty_id v : or_empty v = v.
Proof. now destruct v. Qed.

Lemma or_zero_id v : or_zero v = v.
Proof.
  unfold or_zero. destruct (v =? 0) eqn:E; [|reflexivity].
  apply Z.eqb_eq in E. now subst.
Qed.

Lemma truthy_id_some a : a <> ""%string -> truthy_id (Some a) = Some a.
Proof. destruct a; [now intros [] | reflexivity]. Qed.

Lemma truthy_id_inv o a : truthy_id o = Some a -> o = Some a.
Proof. destruct o as [[|c r]|]; cbn; congruence. Qed.

Lemma load_shows d s : shows (load (Some d) s) d.
Proof.
  unfold shows, load. rewrite !or_empty_id, or_zero_id. now repeat split.
Qed.

Lemma load_frame d s :
  localStorage (load d s) = localStorage s /\
  sessions (load d s) = sessions s /\
  App.refiningInProgressRef (app (load d s)) = App.refiningInProgressRef (app s) /\
  App.translatingRef (app (load d s)) = App.translatingRef (app s).
Proof. destruct d; now repeat split. Qed.

Lemma save_none cl now el s :
  truthy_id (activeSessionId cl) = None -> saveCurrentToStorage cl now el s = s.
Proof. intros H. unfold saveCurrentToStorage. now rewrite H. Qed.

Lemma save_frame cl now el s :
  let s' := saveCurrentToStorage cl now el s in
  app s' = app s /\ activeSessionId s' = activeSessionId s /\
  contextDesc s' = contextDesc s /\ contextFileName s' = contextFileName s /\
  fileContent s' = fileContent s /\
  map id (sessions s') = map id (sessions s).
Proof.
  unfold saveCurrentToStorage.
  destruct (truthy_id (activeSessionId cl)) as [a|]; [|now repeat split].
  cbn -[String.eqb]. repeat split.
  rewrite map_map. apply map_ext. intros m.
  now destruct (String.eqb (id m) a).
Qed.

Lemma save_data cl now el s a :
  truthy_id (activeSessionId cl) = Some a ->
  let s' := saveCurrentToStorage cl now el s in
  data (localStorage s') a =
    Some {| d_text := App.text (app cl);
            d_translatedText := App.translatedText (app cl);
            d_contextDesc := contextDesc cl;
            d_fileContent := fileContent cl;
            d_fileName := contextFileName cl;
            d_processedIndex := App.processedRef (app s) |} /\
  (forall k, k <> a -> data (localStorage s') k = data (localStorage s) k) /\
  meta (localStorage s') = Some (sessions s').
Proof.
  intros H. unfold saveCurrentToStorage. rewrite H. cbn -[String.eqb].
  rewrite String.eqb_refl. split; [reflexivity|]. split; [|reflexivity].
  intros k Hk. apply String.eqb_neq in Hk. now rewrite Hk.
Qed.

Lemma select_eq cl now el i s :
  handleSelectSession cl now el i s =
  let s1 := match truthy_id (activeSessionId cl) with
            | Some _ => saveCurrentToStorage cl now el s
            | None => s
            end in
  setIsVaultOpen false
    (setActiveSessionId (Some i) (load (data (localStorage s1) i) s1)).
Proof. reflexivity. Qed.

Lemma select_saved cl now el s :
  (match truthy_id (activeSessionId cl) with
   | Some _ => saveCurrentToStorage cl now el s
   | None => s
   end) = saveCurrentToStorage cl now el s.
Proof.
  destruct (truthy_id (activeSessionId cl)) eqn:E; [reflexivity|].
  now rewrite save_none.
Qed.

(** X15: switching to another session and back is a round trip.  Leaving
    the active session saves it, so coming back shows the source buffer, the
    translated buffer, the context and the translated watermark as they
    were; the refined watermark comes back at the end of the buffer, so text
    that was not yet refined counts as refined from then on. *)
Theorem session_switch_round_trip
    (s : state) (a b : string) (now1 el1 now2 el2 : Z) :
  activeSessionId s = Some a ->
  a <> ""%string ->
  b <> a ->
  let s2 := select now2 el2 a (select now1 el1 b s) in
  shows s2 (saved_data s) /\ activeSessionId s2 = Some a.
Proof.
  intros Hact Ha Hb s2.
  pose proof (truthy_id_some a Ha) as Ht.
  assert (H1 : data (localStorage (select now1 el1 b s)) a = Some (saved_data s) /\
               activeSessionId (select now1 el1 b s) = Some b).
  { unfold select. rewrite select_eq, select_saved. cbn zeta.
    destruct (save_data s now1 el1 s a) as (Hd & _); [now rewrite Hact|].
    split; [|reflexivity].
    cbn [localStorage setIsVaultOpen setActiveSessionId].
    destruct (load_frame (data (localStorage (saveCurrentToStorage s now1 el1 s)) b)
                (saveCurrentToStorage s now1 el1 s)) as (-> & _).
    exact Hd. }
  unfold s2. clear s2. revert H1. generalize (select now1 el1 b s).
  intros s1 [Hdata Hact1].
  assert (Hkeep : data (localStorage (saveCurrentToStorage s1 now2 el2 s1)) a
                  = Some (saved_data s)).
  { destruct (truthy_id (activeSessionId s1)) as [k|] eqn:Ek.
    - pose proof (truthy_id_inv _ _ Ek) as Ek'. rewrite Hact1 in Ek'.
      inversion Ek'; subst k.
      destruct (save_data s1 now2 el2 s1 b Ek) as (_ & Hother & _).
      rewrite Hother by congruence. exact Hdata.
    - now rewrite save_none. }
  unfold select. rewrite select_eq, select_saved. cbn zeta.
  rewrite Hkeep. split; [|reflexivity].
  apply (load_shows (saved_data s)).
Qed.

Lemma session_switch_witness :
  let s2 := select 20 7 "s1" (select 10 5 "s2" two_sessions) in
  shows s2 (saved_data two_sessions) /\ activeSessionId s2 = Some "s1"%string.
Proof.
  apply (session_switch_round_trip two_sessions "s1" "s2" 10 5 20 7);
    [reflexivity | discriminate | discriminate].
Defined.

(** X16: a saved session comes back after a reload.  When the active session
    is the first of the list, the component mounted over the storage that a
    save has left shows the buffers, the context and the translated
    watermark that were saved, with the same list of sessions and the same
    active session. *)
Theorem reload_restores_first_session
    (s : state) (m : SessionMetadata) (rest : list SessionMetadata)
    (now el now' el' : Z) (newId : string) (key authenticated : bool) :
  sessions s = m :: rest ->
  activeSessionId s = Some (id m) ->
  id m <> ""%string ->
  let s' := mount now' el' newId
              (fresh key authenticated (localStorage (save now el s))) in
  shows s' (saved_data s) /\
  activeSessionId s' = Some (id m) /\
  map id (sessions s') = map id (sessions s).
Proof.
  intros Hs Hact Hid s'.
  assert (Ht : truthy_id (activeSessionId s) = Some (id m))
    by (rewrite Hact; now apply truthy_id_some).
  destruct (save_data s now el s (id m) Ht) as (Hd & _ & Hmeta).
  destruct (save_frame s now el s) as (_ & _ & _ & _ & _ & Hids).
  cbn zeta in Hd, Hmeta, Hids. fold (save now el s) in Hd, Hmeta, Hids.
  rewrite Hs in Hids.
  destruct (sessions (save now el s)) as [|m' rest'] eqn:Es'; [discriminate|].
  cbn [map] in Hids. inversion Hids as [[Hm Hrest]].
  unfold s', mount. cbn [localStorage fresh]. rewrite Hmeta.
  rewrite select_eq. cbn [activeSessionId fresh truthy_id setSessions].
  cbn zeta.
  change (localStorage (setSessions (m' :: rest')
            (fresh key authenticated (localStorage (save now el s)))))
    with (localStorage (save now el s)).
  rewrite Hm, Hd.
  split; [apply (load_shows (saved_data s))|]. split; [reflexivity|].
  cbn [sessions setIsVaultOpen setActiveSessionId].
  rewrite (proj1 (proj2 (load_frame _ _))).
  cbn [sessions setSessions map]. now rewrite Hs, Hm, Hrest.
Qed.

Lemma reload_witness :
  let s' := mount 30 0 "new" (fresh true true (localStorage (save 10 5 two_sessions))) in
  shows s' (saved_data two_sessions) /\
  activeSessionId s' = Some "s1"%string /\
  map id (sessions s') = map id (sessions two_sessions).
Proof.
  apply (reload_restores_first_session two_sessions _ _ 10 5 30 0 "new" true true
           eq_refl eq_refl).
  discriminate.
Defined.

End SessionExtras.

Section SessionDeletion.
Import Shell.

Lemma select_shows cl now el i s d :
  data (localStorage (saveCurrentToStorage cl now el s)) i = Some d ->
  shows (handleSelectSession cl now el i s) d.
Proof.
  intros Hd. rewrite select_eq, select_saved. cbn zeta. rewrite Hd.
  apply (load_shows d).
Qed.

Lemma select_frame cl now el i s :
  let s' := handleSelectSession cl now el i s in
  activeSessionId s' = Some i /\
  localStorage s' = localStorage (saveCurrentToStorage cl now el s) /\
  sessions s' = sessions (saveCurrentToStorage cl now el s) /\
  App.refiningInProgressRef (app s') = App.refiningInProgressRef (app s).
Proof.
  cbn zeta. rewrite select_eq, select_saved. cbn zeta.
  cbn [activeSessionId localStorage sessions app setIsVaultOpen setActiveSessionId].
  destruct (load_frame (data (localStorage (saveCurrentToStorage cl now el s)) i)
              (saveCurrentToStorage cl now el s)) as (-> & -> & -> & _).
  destruct (save_frame cl now el s) as (-> & _). now repeat split.
Qed.

Lemma save_other cl now el s k :
  activeSessionId cl <> Some k ->
  data (localStorage (saveCurrentToStorage cl now el s)) k = data (localStorage s) k.
Proof.
  intros Hk. destruct (truthy_id (activeSessionId cl)) as [a|] eqn:E.
  - destruct (save_data cl now el s a E) as (_ & Hother & _).
    apply Hother. intros ->. apply Hk. now apply truthy_id_inv.
  - now rewrite save_none.
Qed.

(** X17: switching session does not call off an outstanding refinement.
    The flag stays set across the switch, and when the corrected text of the
    chunk that was sent from the session left behind arrives, it is appended
    to the source buffer of the session that was loaded, whose refined
    watermark is at its end. *)
Theorem outstanding_refinement_lands_in_loaded_session
    (s : state) (i : string) (d : SessionData) (now el : Z) (t : str) :
  activeSessionId s <> Some i ->
  data (localStorage s) i = Some d ->
  App.refiningInProgressRef (app s) = true ->
  truthy t = true ->
  let s' := select now el i s in
  let separator :=
    if endsWith (d_text d) [nl] || negb (truthy (d_text d)) then [] else [space] in
  App.refiningInProgressRef (app s') = true /\
  App.text (App.apply (App.RefineReturn (fun _ => App.Resolved (Some t))) (app s'))
    = d_text d ++ separator ++ trim t.
Proof.
  intros Hact Hd Hflag Ht s' separator.
  assert (Hd' : data (localStorage (saveCurrentToStorage s now el s)) i = Some d)
    by (rewrite save_other; assumption).
  destruct (select_shows s now el i s d Hd') as (Etext & _ & _ & _ & _ & _ & Eref).
  destruct (select_frame s now el i s) as (_ & _ & _ & Ef).
  cbn zeta in Ef. fold (select now el i s) in Etext, Eref, Ef. fold s' in Etext, Eref, Ef.
  rewrite Hflag in Ef. split; [exact Ef|].
  cbn [App.apply]. rewrite Ef.
  change (App.refine_return (fun _ => App.Resolved (Some t)) (app s'))
    with (App.refine_settle (App.Resolved (Some t)) (app s')).
  rewrite refine_settle_success by assumption.
  assert (Hr : 0 <= App.refinedRef (app s') <= length (App.text (app s')))
    by (rewrite Eref, Etext; unfold length; lia).
  destruct (splice_text (trim t) (app s') Hr) as [E _].
  change (App.text (App.set_refining false (App.splice (trim t) (app s'))))
    with (App.text (App.splice (trim t) (app s'))).
  rewrite E, Eref, Etext. unfold length. rewrite Nat2Z.id, firstn_all.
  reflexivity.
Qed.

Lemma outstanding_refinement_witness :
  let s' := select 10 5 "s2" two_sessions in
  App.refiningInProgressRef (app s') = true /\
  App.text (App.apply (App.RefineReturn corrected_once) (app s'))
    = lit "Older text." ++ [space] ++ corrected_unit.
Proof.
  exact (outstanding_refinement_lands_in_loaded_session two_sessions "s2"
           {| d_text := lit "Older text."; d_translatedText := lit "Van ban cu.";
              d_contextDesc := []; d_fileContent := []; d_fileName := [];
              d_processedIndex := 11 |}
           10 5 corrected_unit
           ltac:(discriminate) eq_refl eq_refl eq_refl).
Defined.

Lemma filter_not_in i (l : list SessionMetadata) :
  ~ In i (map id (filter (fun m => negb (String.eqb (id m) i)) l)).
Proof.
  induction l as [|m l IH]; cbn; [tauto|].
  destruct (String.eqb (id m) i) eqn:E; cbn; [exact IH|].
  intros [H|H]; [|now apply IH].
  apply String.eqb_neq in E. congruence.
Qed.

Lemma map_update_absent i (f : SessionMetadata -> SessionMetadata)
    (l : list SessionMetadata) :
  ~ In i (map id l) ->
  map (fun m => if String.eqb (id m) i then f m else m) l = l.
Proof.
  induction l as [|m l IH]; cbn; [reflexivity|]. intros H.
  destruct (String.eqb (id m) i) eqn:E.
  - apply String.eqb_eq in E. destruct H. now left.
  - f_equal. apply IH. tauto.
Qed.

(** X18: deleting a session that is not the active one removes it.  Its
    entry leaves the list and the stored list, its stored record is removed,
    and nothing else moves: the session on screen and the records of the
    other sessions are what they were. *)
Theorem delete_inactive_session
    (s : state) (i newId : string) (now el : Z) :
  activeSessionId s <> Some i ->
  let s' := delete now el newId i s in
  app s' = app s /\
  activeSessionId s' = activeSessionId s /\
  sessions s' = filter (fun m => negb (String.eqb (id m) i)) (sessions s) /\
  ~ In i (map id (sessions s')) /\
  meta (localStorage s') = Some (sessions s') /\
  data (localStorage s') i = None /\
  (forall k, k <> i -> data (localStorage s') k = data (localStorage s) k).
Proof.
  intros Hact s'.
  assert (E : s' =
    set_localStorage
      (removeItem_data i
         (setItem_meta (filter (fun m => negb (String.eqb (id m) i)) (sessions s))
            (localStorage s)))
      (setSessions (filter (fun m => negb (String.eqb (id m) i)) (sessions s)) s)).
  { unfold s', delete, handleDeleteSession.
    destruct (activeSessionId s) as [a|]; [|reflexivity].
    destruct (String.eqb a i) eqn:Ea; [|reflexivity].
    apply String.eqb_eq in Ea. subst a. now destruct Hact. }
  rewrite E. cbn -[String.eqb filter]. repeat split.
  - apply filter_not_in.
  - now rewrite String.eqb_refl.
  - intros k Hk. apply String.eqb_neq in Hk. now rewrite Hk.
Qed.

Lemma delete_inactive_witness :
  let s' := delete 10 5 "new" "s2" two_sessions in
  app s' = app two_sessions /\
  activeSessionId s' = Some "s1"%string /\
  map id (sessions s') = ["s1"%string] /\
  data (localStorage s') "s2" = None.
Proof.
  destruct (delete_inactive_session two_sessions "s2" "new" 10 5
              ltac:(discriminate)) as (H1 & H2 & H3 & _ & _ & H6 & _).
  split; [exact H1|]. split; [exact H2|]. split; [now rewrite H3 | exact H6].
Defined.

(** X19: deleting the active session takes it off the list but leaves its
    record in the storage.  With another session left, the first of those
    becomes active; the record of the deleted session is removed and then
    written again by the save that every switch of session starts with, so
    the storage still holds the buffers that were on screen under the
    deleted identifier. *)
Theorem delete_active_session_keeps_record
    (s : state) (i newId : string) (now el : Z)
    (m : SessionMetadata) (rest : list SessionMetadata) :
  activeSessionId s = Some i ->
  i <> ""%string ->
  filter (fun m => negb (String.eqb (id m) i)) (sessions s) = m :: rest ->
  let s' := delete now el newId i s in
  activeSessionId s' = Some (id m) /\
  sessions s' = m :: rest /\
  ~ In i (map id (sessions s')) /\
  data (localStorage s') i = Some (saved_data s).
Proof.
  intros Hact Hi Hf s'.
  pose proof (filter_not_in i (sessions s)) as Hnot. rewrite Hf in Hnot.
  set (s0 := set_localStorage
               (removeItem_data i (setItem_meta (m :: rest) (localStorage s)))
               (setSessions (m :: rest) s)).
  assert (E : s' = handleSelectSession s now el (id m) s0).
  { unfold s', delete, handleDeleteSession. rewrite Hact, Hf, String.eqb_refl.
    reflexivity. }
  assert (Ht : truthy_id (activeSessionId s) = Some i)
    by (rewrite Hact; now apply truthy_id_some).
  destruct (select_frame s now el (id m) s0) as (Ha & Hst & Hses & _).
  cbn zeta in Ha, Hst, Hses. rewrite <- E in Ha, Hst, Hses.
  destruct (save_data s now el s0 i Ht) as (Hd & _ & _). cbn zeta in Hd.
  assert (Hsessions : sessions (saveCurrentToStorage s now el s0) = m :: rest).
  { unfold saveCurrentToStorage. rewrite Ht. cbn -[String.eqb map].
    apply (map_update_absent i
             (fun m0 => {| id := id m0; name := name m0; createdAt := createdAt m0;
                           updatedAt := now; durationSeconds := el;
                           wordCount := count_words (App.text (app s)) |})).
    exact Hnot. }
  split; [exact Ha|]. split; [now rewrite Hses|].
  split; [now rewrite Hses, Hsessions|].
  rewrite Hst. exact Hd.
Qed.

Lemma delete_active_witness :
  let s' := delete 10 5 "new" "s1" two_sessions in
  activeSessionId s' = Some "s2"%string /\
  map id (sessions s') = ["s2"%string] /\
  data (localStorage s') "s1" = Some (saved_data two_sessions).
Proof.
  destruct (delete_active_session_keeps_record two_sessions "s1" "new" 10 5
              _ _ eq_refl ltac:(discriminate) eq_refl) as (H1 & H2 & _ & H4).
  split; [exact H1|]. split; [now rewrite H2 | exact H4].
Defined.

(** X20: deleting the only session does not remove it.  The new session
    that takes its place is put in front of the list as the handler's
    render knew it, which still holds the deleted session: afterwards the
    list, on screen and in the storage, is the new session followed by the
    deleted one, and the new session is active. *)
Theorem delete_last_session_stays_listed
    (s : state) (m : SessionMetadata) (newId : string) (now el : Z) :
  sessions s = [m] ->
  activeSessionId s = Some (id m) ->
  let s' := delete now el newId (id m) s in
  map id (sessions s') = [newId; id m] /\
  meta (localStorage s') = Some (sessions s') /\
  activeSessionId s' = Some newId.
Proof.
  intros Hs Hact s'.
  set (newMeta := {| id := newId; name := lit "Untitled Meeting"; createdAt := now;
                     updatedAt := now; durationSeconds := 0; wordCount := 0 |}).
  set (s0 := set_localStorage
               (removeItem_data (id m) (setItem_meta [] (localStorage s)))
               (setSessions [] s)).
  set (s1 := set_localStorage (setItem_meta [newMeta; m] (localStorage s0))
               (setSessions [newMeta; m] s0)).
  assert (E : s' = setIsVaultOpen false (handleSelectSession s now el newId s1)).
  { unfold s', delete, handleDeleteSession. rewrite Hact, Hs.
    cbn [filter]. rewrite String.eqb_refl. cbn [negb].
    unfold createNewSession. rewrite Hs. reflexivity. }
  destruct (select_frame s now el newId s1) as (Ha & Hst & Hses & _).
  cbn zeta in Ha, Hst, Hses.
  destruct (save_frame s now el s1) as (_ & _ & _ & _ & _ & Hids).
  cbn zeta in Hids.
  rewrite E. cbn [sessions localStorage activeSessionId setIsVaultOpen].
  rewrite Hses, Hst, Ha, Hids. split; [reflexivity|]. split; [|reflexivity].
  destruct (truthy_id (activeSessionId s)) as [a|] eqn:Et.
  - now destruct (save_data s now el s1 a Et) as (_ & _ & ->).
  - now rewrite save_none.
Qed.

Lemma delete_last_witness :
  let s := delete 10 5 "new" "s2" two_sessions in
  let s' := delete 20 5 "fresh" "s1" s in
  map id (sessions s) = ["s1"%string] /\
  map id (sessions s') = ["fresh"%string; "s1"%string] /\
  activeSessionId s' = Some "fresh"%string.
Proof.
  intros s s'. split; [reflexivity|].
  destruct (delete_last_session_stays_listed s
              (hd {| id := ""; name := []; createdAt := 0; updatedAt := 0;
                     durationSeconds := 0; wordCount := 0 |} (sessions s))
              "fresh" 20 5 eq_refl eq_refl) as (H1 & _ & H3).
  split; [exact H1 | exact H3].
Defined.

End SessionDeletion.

(** ** Upload, export and the transcript pane *)

Section UploadExport.
Import Shell.

(** X21: the batch translation that an upload schedules does not carry the
    uploaded block.  A transcription that is not empty is appended to the
    source buffer verbatim after the tag, and the watermarks stay.  In batch
    mode the handler then schedules, 1000 ms later, the batch translation of
    the render in which the upload started, which reads the buffer of that
    render: with nothing committed in between, it submits the old buffer
    from the translated watermark to its old end, or nothing when that part
    is blank (or no key is set), and never the block.  A failed
    transcription leaves the buffer as it is and schedules nothing. *)
Theorem audio_upload_in_batch_mode (cl s : state) (t : str) (now : Z) :
  truthy t = true ->
  isBatchMode cl = true ->
  App.text (app cl) = App.text (app s) ->
  0 <= App.processedRef (app s) <= length (App.text (app s)) ->
  let s' := fst (audio_upload_settle cl (App.Resolved (Some t)) s) in
  let pending := skipn (Z.to_nat (App.processedRef (app s))) (App.text (app s)) in
  App.text (app s') = App.text (app s) ++ AUDIO_TAG ++ t /\
  snd (audio_upload_settle cl (App.Resolved (Some t)) s) = Some 1000 /\
  App.processedRef (app s') = App.processedRef (app s) /\
  App.refinedRef (app s') = App.refinedRef (app s) /\
  batchFileProcessing s' = false /\
  fst (audio_batch_translation cl now s') =
    (if App.API_KEY (app s) && truthy (trim pending)
     then App.Called {| App.isBatchRequest := true;
                        App.chunk := pending;
                        App.endIdx := length (App.text (app s)) |}
     else App.Skipped) /\
  length (App.text (app s)) < length (App.text (app s')) /\
  (forall e,
     App.text (app (fst (audio_upload_settle cl (App.Rejected e) s)))
       = App.text (app s) /\
     App.aiError (app (fst (audio_upload_settle cl (App.Rejected e) s)))
       = Some AUDIO_FAILED /\
     snd (audio_upload_settle cl (App.Rejected e) s) = None).
Proof.
  intros Ht Hbatch Hcl Hp s' pending.
  assert (Es : audio_upload_settle cl (App.Resolved (Some t)) s =
    (set_app (setIsTranslating false
                (App.setText (App.text (app s) ++ AUDIO_TAG ++ t) (app s)))
       (setBatchFileProcessing false
          (set_app (App.setText (App.text (app s) ++ AUDIO_TAG ++ t) (app s)) s)),
     Some 1000)).
  { unfold audio_upload_settle. now rewrite Ht, Hbatch. }
  unfold s'. rewrite Es. cbn [fst snd].
  split; [reflexivity|]. split; [reflexivity|]. split; [reflexivity|].
  split; [reflexivity|]. split; [reflexivity|].
  split; [|split; [|now repeat split]].
  - unfold audio_batch_translation, App.performTranslation_of.
    cbn [app set_app App.API_KEY App.translatingRef App.processedRef
         setIsTranslating App.setText App.set_speech negb andb].
    rewrite andb_false_r, orb_false_r, Hcl.
    fold (slice_from (App.text (app s)) (App.processedRef (app s))).
    rewrite slice_from_suffix by exact Hp. fold pending.
    rewrite length_eqb_0.
    destruct (App.API_KEY (app s)); cbn [negb andb]; [|reflexivity].
    now destruct (truthy (trim pending)).
  - change (length (App.text (app s)) < length (App.text (app s) ++ AUDIO_TAG ++ t)).
    unfold length. rewrite !length_app. cbn [List.length AUDIO_TAG]. lia.
Qed.

Lemma audio_upload_batch_witness :
  let s := setBatchFileProcessing true
             (set_app hello_world_session
                {| app := App.initial true; isAuthenticated := true;
                   sessions := []; activeSessionId := None; isVaultOpen := false;
                   lastSaved := 0; contextDesc := []; contextFileName := [];
                   fileContent := []; isBatchMode := true; isLiveMode := false;
                   batchFileProcessing := false; localStorage := empty_storage |}) in
  let s' := fst (audio_upload_settle s (App.Resolved (Some (lit "Good morning."))) s) in
  App.text (app s') = lit "Hello. World." ++ AUDIO_TAG ++ lit "Good morning." /\
  snd (audio_upload_settle s (App.Resolved (Some (lit "Good morning."))) s) = Some 1000 /\
  fst (audio_batch_translation s 2000 s') =
    App.Called {| App.isBatchRequest := true;
                  App.chunk := lit "Hello. World.";
                  App.endIdx := 13 |}.
Proof.
  intros s s'.
  destruct (audio_upload_in_batch_mode s s (lit "Good morning.") 2000
              eq_refl eq_refl eq_refl (conj (Z.le_refl 0) (Zle_0_nat _)))
    as (H1 & H2 & _ & _ & _ & H3 & _).
  split; [exact H1|]. split; [exact H2 | exact H3].
Defined.

Lemma replace_spaces_from_solid s : forall inside,
  forallb (fun c => negb (is_space c)) (replace_spaces_from inside s) = true.
Proof.
  induction s as [|c s IH]; intros inside; [reflexivity|].
  cbn [replace_spaces_from]. destruct (is_space c) eqn:Ec.
  - rewrite forallb_app, IH, andb_true_r. now destruct inside.
  - cbn [forallb]. now rewrite Ec, IH.
Qed.

Lemma replace_spaces_from_id s : forall inside,
  forallb (fun c => negb (is_space c)) s = true ->
  replace_spaces_from inside s = s.
Proof.
  induction s as [|c s IH]; intros inside H; [reflexivity|].
  cbn [forallb] in H. apply andb_true_iff in H as [Hc Hs].
  apply negb_true_iff in Hc. cbn [replace_spaces_from]. rewrite Hc.
  now rewrite IH.
Qed.

Lemma endsWith_app a b : endsWith (a ++ b) b = true.
Proof. unfold endsWith. rewrite rev_app_distr. apply startsWith_app. Qed.

Lemma includes_app_r a s p : includes s p = true -> includes (a ++ s) p = true.
Proof.
  intros H. induction a as [|x a IH]; [exact H|].
  change (includes ((x :: a) ++ s) p)
    with (startsWith (x :: a ++ s) p || includes (a ++ s) p).
  rewrite IH. apply orb_true_r.
Qed.

Lemma includes_prefix p b : includes (p ++ b) p = true.
Proof. apply (includes_app [] p b). Qed.

(** X22: the export.  The name of the download never holds white space (each
    run of it in the session name is one underscore; a name without white
    space is kept) and ends in "_archive.md"; the document holds the source
    buffer and the translated buffer verbatim. *)
Theorem export_document (date duration : str) (s : state) :
  let file := fst (exportSession date duration s) in
  let content := snd (exportSession date duration s) in
  forallb (fun c => negb (is_space c)) file = true /\
  endsWith file (lit "_archive.md") = true /\
  (forallb (fun c => negb (is_space c)) (export_name s) = true ->
     file = export_name s ++ lit "_archive.md") /\
  includes content (App.text (app s)) = true /\
  includes content (App.translatedText (app s)) = true.
Proof.
  cbn zeta. unfold exportSession. cbn [fst snd].
  split; [|split; [|split; [|split]]].
  - rewrite forallb_app. unfold replace_spaces.
    now rewrite replace_spaces_from_solid.
  - apply endsWith_app.
  - intros H. unfold replace_spaces. now rewrite replace_spaces_from_id.
  - repeat (first [apply includes_prefix | apply includes_app_r]).
  - repeat (first [apply includes_prefix | apply includes_app_r]).
Qed.

End UploadExport.

Section PaneExtras.
Import Pane.

Lemma lines_cons c s :
  lines (c :: s) =
  if Ascii.eqb c nl then [] :: lines s
  else match lines s with
       | l :: ls => (c :: l) :: ls
       | [] => [[c]]
       end.
Proof.
  unfold lines. cbn [split_lines].
  destruct (split_lines s) as [l ls]. now destruct (Ascii.eqb c nl).
Qed.

Lemma lines_nonempty s : lines s <> [].
Proof. unfold lines. now destruct (split_lines s). Qed.

Lemma lines_app a b : lines (a ++ nl :: b) = lines a ++ lines b.
Proof.
  induction a as [|c a IH].
  - cbn [app]. rewrite lines_cons, Ascii.eqb_refl. reflexivity.
  - cbn [app]. rewrite !lines_cons, IH.
    destruct (Ascii.eqb c nl); [reflexivity|].
    pose proof (lines_nonempty a).
    destruct (lines a) as [|l ls]; [contradiction | reflexivity].
Qed.

Lemma lines_no_newline s : Forall (fun l => ~ In nl l) (lines s).
Proof.
  induction s as [|c s IH]; [constructor; [tauto | constructor]|].
  rewrite lines_cons. destruct (Ascii.eqb c nl) eqn:E.
  - constructor; [tauto | exact IH].
  - pose proof (lines_nonempty s).
    destruct (lines s) as [|l ls]; [contradiction|].
    inversion IH; subst. constructor; [|assumption].
    intros [H'|H']; [|tauto]. subst c. now rewrite Ascii.eqb_refl in E.
Qed.

Lemma lines_blank s : blank s <-> Forall blank (lines s).
Proof.
  induction s as [|c s IH].
  - split; [constructor; [reflexivity | constructor] | reflexivity].
  - rewrite lines_cons. unfold blank in *. cbn [forallb].
    destruct (Ascii.eqb c nl) eqn:E.
    + apply Ascii.eqb_eq in E. subst c. cbn [is_space nat_of_ascii]. split.
      * intros H. constructor; [reflexivity|]. apply IH. exact H.
      * intros H. inversion H; subst. apply IH. assumption.
    + pose proof (lines_nonempty s).
      destruct (lines s) as [|l ls]; [contradiction|]. split.
      * intros H'. apply andb_true_iff in H' as [Hc Hs].
        apply IH in Hs. inversion Hs; subst.
        constructor; [cbn [forallb]; now rewrite Hc | assumption].
      * intros H'. inversion H' as [|? ? Hl Hls]; subst.
        cbn [forallb] in Hl. apply andb_true_iff in Hl as [Hc Hl].
        rewrite Hc. apply IH. now constructor.
Qed.

Lemma trim_nil_blank p : trim p = [] <-> blank p.
Proof.
  split; [|apply trim_blank]. intros E.
  destruct (trimStart_decomp p) as (w & Ep & Hw). rewrite Ep.
  apply blank_app; [assumption | now apply trimEnd_nil_blank].
Qed.

Lemma filter_nil_blank (l : list str) :
  filter (fun p => truthy (trim p)) l = [] <-> Forall blank l.
Proof.
  induction l as [|p l IH]; [split; constructor|].
  cbn [filter]. destruct (truthy (trim p)) eqn:E.
  - split; [discriminate|]. intros H. inversion H; subst.
    apply trim_nil_blank in H2. now rewrite H2 in E.
  - split.
    + intros H. constructor; [|now apply IH].
      apply trim_nil_blank. now destruct (trim p).
    + intros H. inversion H; subst. now apply IH.
Qed.

Lemma paragraphs_nil_blank text : paragraphs text = [] <-> blank text.
Proof.
  unfold paragraphs. rewrite filter_nil_blank. symmetry. apply lines_blank.
Qed.

(** X23: what the pane shows as paragraphs.  Every paragraph holds a code
    unit that is not white space and no newline; there is no paragraph
    exactly when the buffer is blank, so the placeholder is shown exactly
    when the buffer is blank and no interim text is pending. *)
Theorem paragraphs_are_solid (text : str) :
  Forall (fun p => trim p <> [] /\ ~ In nl p) (paragraphs text) /\
  (paragraphs text = [] <-> blank text) /\
  (forall interimText,
     shows_placeholder text interimText = true <->
     blank text /\ interimText = []).
Proof.
  pose proof (paragraphs_nil_blank text) as Hnil.
  split; [|split; [exact Hnil|]].
  - unfold paragraphs. apply Forall_forall. intros p Hin.
    apply filter_In in Hin as [Hin Hp].
    split; [now apply truthy_nonempty|].
    pose proof (lines_no_newline text) as Hall.
    rewrite Forall_forall in Hall. now apply Hall.
  - intros interimText. unfold shows_placeholder. rewrite andb_true_iff.
    rewrite Nat.eqb_eq, negb_true_iff, <- Hnil.
    split; intros [H1 H2]; (split;
      [ destruct (paragraphs text); [reflexivity | discriminate || reflexivity]
      | destruct interimText; [reflexivity | discriminate] ]).
Qed.

(** X24: newlines in the buffer are the boundaries of paragraphs, and blank
    lines vanish.  The paragraphs of two texts joined by a newline, or by a
    blank line, are the paragraphs of the first followed by those of the
    second; the blank line that a silence commit appends adds no paragraph
    to what the pane shows. *)
Theorem paragraphs_split_at_newlines (a b : str) :
  paragraphs (a ++ [nl] ++ b) = paragraphs a ++ paragraphs b /\
  paragraphs (a ++ [nl; nl] ++ b) = paragraphs a ++ paragraphs b /\
  paragraphs (Speech.silence_commit a) = paragraphs (trimEnd (Speech.silence_commit a)).
Proof.
  assert (H1 : forall x y, paragraphs (x ++ [nl] ++ y) = paragraphs x ++ paragraphs y).
  { intros x y. unfold paragraphs. cbn [app]. now rewrite lines_app, filter_app. }
  split; [apply H1|]. split.
  - change (a ++ [nl; nl] ++ b) with (a ++ [nl] ++ ([] ++ [nl] ++ b)).
    now rewrite H1, H1.
  - destruct (trimEnd a) as [|c x] eqn:Ex.
    + assert (E : Speech.silence_commit a = a).
      { destruct (silence_commit_cases a) as [[_ H]|[H _]]; [exact H | congruence]. }
      assert (Ha : blank a) by now apply trimEnd_nil_blank.
      rewrite E, Ex. now apply paragraphs_nil_blank.
    + destruct (silence_commit_form a) as (body & t & Ht & _ & ->); [congruence|].
      rewrite trimEnd_app_blank by reflexivity.
      rewrite trimEnd_snoc by now apply is_terminator_not_space.
      change ((body ++ [t]) ++ [nl; nl])
        with ((body ++ [t]) ++ [nl] ++ ([] ++ [nl] ++ [])).
      rewrite H1, H1. cbn. now rewrite app_nil_r.
Qed.

End PaneExtras.
